(** * The interaction layer of the portfolio page (src/main.js)

    A shallow embedding of the script and the properties its specification
    states about it.  The script is one immediately-invoked function holding
    eleven independent behaviours; each of them queries the document, guards
    on what it found, and registers event listeners, observers or timers.

    Conventions of the embedding:
    - a DOM element is a record; the document is a store [node -> element]
      so that two references to one element alias;
    - every DOM write goes through [mutate], which updates the store and
      appends the write to an effect log, so that "is added at most once" or
      "exactly one scroll request" are statements about the log;
    - closures are defunctionalised: a listener, an observer callback or a
      timer job is a constructor carrying the variables it captured;
    - JavaScript numbers are exact rationals ([Q]): the script only divides
      and multiplies by decimal constants and compares, and rounding is not
      modelled; the one division whose divisor can be zero is guarded
      ([tilt_finite]), its result being no number then;
    - JavaScript strings that are indexed ([length], [charAt], [trim]) are
      lists of UTF-16 code units; names (classes, attributes, selectors) are
      [string]s;
    - timers are ideal: a job scheduled with delay [d] at time [t] runs at
      [t + d] (milliseconds, [Z]). *)

From Stdlib Require Import ZArith QArith Qminmax Lqa Lia.
From stdpp Require Import base functions gmap sets list strings.

(** ** 0. JavaScript values *)

Abbreviation code_unit := N.
Abbreviation jsstring := (list code_unit).

(** WhiteSpace and LineTerminator of ECMAScript, as [String.prototype.trim]
    strips them. *)
Definition is_white (c : code_unit) : bool :=
  ((9 <=? c) && (c <=? 13) || (c =? 32) || (c =? 160) || (c =? 5760)
   || (8192 <=? c) && (c <=? 8202) || (c =? 8232) || (c =? 8233)
   || (c =? 8239) || (c =? 8287) || (c =? 12288) || (c =? 65279))%N.

Fixpoint trimStart (s : jsstring) : jsstring :=
  match s with
  | c :: r => if is_white c then trimStart r else s
  | [] => []
  end.

Definition trimEnd (s : jsstring) : jsstring := reverse (trimStart (reverse s)).

Definition trim (s : jsstring) : jsstring := trimEnd (trimStart s).

(** [s.charAt(i)]: the one-unit string at index [i], empty out of range. *)
Definition charAt (s : jsstring) (i : nat) : jsstring :=
  match s !! i with Some c => [c] | None => [] end.

(** [String(b)] for a boolean. *)
Definition String_of_bool (b : bool) : string := if b then "true" else "false".

Definition Math_min (a b : Q) : Q := Qmin a b.
Definition Math_max (a b : Q) : Q := Qmax a b.

(** main.js, [clamp]: [Math.max(min, Math.min(max, val))]. *)
Definition clamp (val min max : Q) : Q := Math_max min (Math_min max val).

(** [a > b] on numbers. *)
Definition Qgtb (a b : Q) : bool := negb (Qle_bool a b).

(** [x || d] for a possibly missing number: [undefined] and [0] are falsy. *)
Definition or_default (x : option Q) (d : Q) : Q :=
  match x with
  | Some s => if Qeq_bool s 0 then d else s
  | None => d
  end.

(** ** 1. The DOM *)

Definition node := nat.

(** A string built by concatenating literals and numbers, kept as its
    pieces: ["translate3d(0," + v + "px,0)"] is three pieces. *)
Inductive piece :=
| Lit (s : string)
| Num (q : Q).

Definition css_text := list piece.

Record element := Element {
  tagName : string;
  attrs : gmap string string;
  classList : gset string;
  textContent : jsstring;
  hidden : bool;
  style : gmap string css_text }.

(** The DOM writes the script performs on an element. *)
Inductive write :=
| SetAttribute (k v : string)
| RemoveAttribute (k : string)
| SetSrc (v : string)
| ClassAdd (c : string)
| ClassRemove (c : string)
| ClassToggle (c : string)
| ClassForce (c : string) (force : bool)
| SetTextContent (s : jsstring)
| SetHidden (b : bool)
| SetStyle (prop : string) (v : css_text).

(** The elements whose [src] property reflects the content attribute of
    that name.  On any other element an assignment to [src] only creates a
    property of the JavaScript object, which the document does not see. *)
Definition reflects_src (tag : string) : bool :=
  bool_decide (tag ∈ ["img"; "iframe"; "script"; "embed"; "input"; "audio"; "video";
                      "source"; "track"; "frame"]).

(** What each write does to the element it is applied to.  [el.src = v]
    sets the content attribute [src] of an element that reflects it, and
    leaves any other element as it is. *)
Definition apply_write (wr : write) (e : element) : element :=
  match wr with
  | SetAttribute k v =>
      Element (tagName e) (<[k:=v]> (attrs e)) (classList e) (textContent e) (hidden e) (style e)
  | RemoveAttribute k =>
      Element (tagName e) (delete k (attrs e)) (classList e) (textContent e) (hidden e) (style e)
  | SetSrc v =>
      if reflects_src (tagName e) then
        Element (tagName e) (<["src":=v]> (attrs e)) (classList e) (textContent e) (hidden e)
                (style e)
      else e
  | ClassAdd c =>
      Element (tagName e) (attrs e) ({[c]} ∪ classList e) (textContent e) (hidden e) (style e)
  | ClassRemove c =>
      Element (tagName e) (attrs e) (classList e ∖ {[c]}) (textContent e) (hidden e) (style e)
  | ClassToggle c =>
      Element (tagName e) (attrs e)
        (if decide (c ∈ classList e) then classList e ∖ {[c]} else {[c]} ∪ classList e)
        (textContent e) (hidden e) (style e)
  | ClassForce c force =>
      Element (tagName e) (attrs e)
        (if force then {[c]} ∪ classList e else classList e ∖ {[c]})
        (textContent e) (hidden e) (style e)
  | SetTextContent s =>
      Element (tagName e) (attrs e) (classList e) s (hidden e) (style e)
  | SetHidden b =>
      Element (tagName e) (attrs e) (classList e) (textContent e) b (style e)
  | SetStyle prop v =>
      Element (tagName e) (attrs e) (classList e) (textContent e) (hidden e) (<[prop:=v]> (style e))
  end.

(** ** 2. Closures, observers, timers and effects *)

(** The four [IntersectionObserver]s the script constructs, one per
    behaviour that uses one. *)
Inductive observer :=
| ActiveNavObs
| RevealObs
| TypingObs
| LazyObs.

#[global] Instance observer_eq_dec : EqDecision observer.
Proof. solve_decision. Defined.

(** The options object passed to the constructor; a field the script
    leaves out holds the API's default. *)
Record observer_init := ObserverInit {
  threshold : Q;
  rootMargin : string }.

(** The callback closures, with the variables they capture. *)
Inductive callback :=
| ActiveNavCb (navLinks : list node)
| RevealCb
| TypingCb (el : node) (fullText : jsstring)
| LazyCb.

(** An [IntersectionObserverEntry], as far as the script reads it. *)
Record entry := Entry {
  target : node;
  isIntersecting : bool }.

(** The event-listener closures, with the variables they capture.  The
    bodies of the first five are embedded below ([toggle_click],
    [mobile_link_click], [anchor_click], [navbar_update] behind
    [debounce(update, 8)], [parallax_update] behind
    [requestAnimationFrame]); the pointer effects of ripple, tilt and
    magnetic hover are only registered. *)
Inductive handler :=
| ToggleClick (toggle menu : node)
| MobileLinkClick (toggle menu : node)
| AnchorClick (anchor : node)
| NavbarScroll (navbar : node)
| ParallaxScroll (blobs bgGradients : list node)
| RippleClick (btn : node)
| TiltMove (card : node)
| TiltLeave (card : node)
| MagneticMove (el : node)
| MagneticLeave (el : node).

Inductive event_target :=
| OnWindow
| OnElement (n : node).

(** The [setTimeout] jobs of the typing effect. *)
Inductive task :=
| TypeTick (el : node) (fullText : jsstring)
| TypingDone (el : node).

Record timer := Timer {
  due : Z;
  job : task }.

Inductive effect :=
| Mutate (n : node) (wr : write)
| Listen (t : event_target) (type : string) (h : handler)
| NewObserver (o : observer) (cb : callback) (opts : observer_init)
| Observe (o : observer) (n : node)
| Unobserve (o : observer) (n : node)
| Disconnect (o : observer)
| PreventDefault
| ScrollIntoView (n : node) (behavior block : string)
| ConsoleLog (msg : string).

(** ** 3. The program state and the monad of the script *)

Record world := World {
  dom : node → element;            (* the document's elements *)
  observed : observer → gset node; (* each observer's current targets *)
  scrollY : Q;                     (* window.scrollY *)
  clock : Z;                       (* current time, ms *)
  timers : list timer;             (* pending setTimeout jobs, oldest first *)
  charIndex : nat;                 (* initTyping's [let charIndex] *)
  log : list effect }.             (* what has been done so far *)

Definition with_dom (f : (node → element) → node → element) (w : world) : world :=
  World (f (dom w)) (observed w) (scrollY w) (clock w) (timers w) (charIndex w) (log w).
Definition with_observed (f : (observer → gset node) → observer → gset node) (w : world) : world :=
  World (dom w) (f (observed w)) (scrollY w) (clock w) (timers w) (charIndex w) (log w).
Definition with_scrollY (y : Q) (w : world) : world :=
  World (dom w) (observed w) y (clock w) (timers w) (charIndex w) (log w).
Definition with_clock (t : Z) (w : world) : world :=
  World (dom w) (observed w) (scrollY w) t (timers w) (charIndex w) (log w).
Definition with_timers (ts : list timer) (w : world) : world :=
  World (dom w) (observed w) (scrollY w) (clock w) ts (charIndex w) (log w).
Definition with_charIndex (i : nat) (w : world) : world :=
  World (dom w) (observed w) (scrollY w) (clock w) (timers w) i (log w).
Definition emit (e : effect) (w : world) : world :=
  World (dom w) (observed w) (scrollY w) (clock w) (timers w) (charIndex w) (log w ++ [e]).

(** The state the page is in before the script runs: nothing observed,
    nothing scheduled, nothing logged. *)
Definition initial_world (d : node → element) (y : Q) : world :=
  World d (λ _, ∅) y 0 [] 0 [].

(** How a piece of script ends. *)
Inductive completion (A : Type) :=
| Normal (a : A)
| Throw (error : string).
Arguments Normal {A} a.
Arguments Throw {A} error.

Definition JS (A : Type) : Type := world → completion A * world.

#[global] Instance JS_ret : MRet JS := λ A a w, (Normal a, w).
#[global] Instance JS_bind : MBind JS := λ A B f m w,
  match m w with
  | (Normal a, w') => f a w'
  | (Throw e, w') => (Throw e, w')
  end.

Definition throw {A} (error : string) : JS A := λ w, (Throw error, w).
Definition gets {A} (f : world → A) : JS A := λ w, (Normal (f w), w).
Definition modify (f : world → world) : JS unit := λ w, (Normal tt, f w).

(** The world a piece of script leaves behind. *)
Definition exec {A} (m : JS A) (w : world) : world := (m w).2.

Fixpoint forEach {A} (l : list A) (f : A → JS unit) : JS unit :=
  match l with
  | [] => mret tt
  | x :: r => f x ;; forEach r f
  end.

(** [forEach(function (x, i) ...)], indices counted from [i0]. *)
Fixpoint forEach_from {A} (i0 : nat) (l : list A) (f : A → nat → JS unit) : JS unit :=
  match l with
  | [] => mret tt
  | x :: r => f x i0 ;; forEach_from (S i0) r f
  end.

Definition forEach_i {A} (l : list A) (f : A → nat → JS unit) : JS unit :=
  forEach_from 0 l f.

(** *** DOM primitives *)

Definition mutate (n : node) (wr : write) : JS unit :=
  modify (λ w, emit (Mutate n wr) (with_dom (alter (apply_write wr) n) w)).

Definition getAttribute (n : node) (k : string) : JS (option string) :=
  gets (λ w, attrs (dom w n) !! k).
Definition setAttribute (n : node) (k v : string) : JS unit := mutate n (SetAttribute k v).
Definition removeAttribute (n : node) (k : string) : JS unit := mutate n (RemoveAttribute k).
Definition classList_add (n : node) (c : string) : JS unit := mutate n (ClassAdd c).
Definition classList_remove (n : node) (c : string) : JS unit := mutate n (ClassRemove c).
Definition classList_toggle (n : node) (c : string) : JS unit := mutate n (ClassToggle c).
Definition classList_toggle_force (n : node) (c : string) (force : bool) : JS unit :=
  mutate n (ClassForce c force).
Definition get_textContent (n : node) : JS jsstring := gets (λ w, textContent (dom w n)).
Definition set_textContent (n : node) (s : jsstring) : JS unit := mutate n (SetTextContent s).
Definition set_hidden (n : node) (b : bool) : JS unit := mutate n (SetHidden b).
Definition set_style (n : node) (prop : string) (v : css_text) : JS unit :=
  mutate n (SetStyle prop v).
Definition set_src (n : node) (v : string) : JS unit := mutate n (SetSrc v).

Definition addEventListener (t : event_target) (type : string) (h : handler) : JS unit :=
  modify (emit (Listen t type h)).
Definition preventDefault : JS unit := modify (emit PreventDefault).
Definition scrollIntoView (n : node) (behavior block : string) : JS unit :=
  modify (emit (ScrollIntoView n behavior block)).

(** *** Observers *)

Definition newIntersectionObserver (o : observer) (cb : callback) (opts : observer_init) : JS unit :=
  modify (λ w, emit (NewObserver o cb opts) (with_observed <[o:=∅]> w)).
Definition observe (o : observer) (n : node) : JS unit :=
  modify (λ w, emit (Observe o n) (with_observed (alter (λ s, {[n]} ∪ s) o) w)).
Definition unobserve (o : observer) (n : node) : JS unit :=
  modify (λ w, emit (Unobserve o n) (with_observed (alter (λ s, s ∖ {[n]}) o) w)).
Definition disconnect (o : observer) : JS unit :=
  modify (λ w, emit (Disconnect o) (with_observed <[o:=∅]> w)).

(** *** Timers *)

Definition setTimeout (j : task) (delay : Z) : JS unit :=
  modify (λ w, with_timers (timers w ++ [Timer (clock w + delay) j]) w).

(** ** 4. The document and its selectors *)

(** A selector, as the predicate it denotes on an element of a document. *)
Definition selector := (node → element) → node → bool.

(** [.c] *)
Definition by_class (c : string) : selector :=
  λ d n, bool_decide (c ∈ classList (d n)).
(** [t[a]] *)
Definition tag_has_attr (t a : string) : selector :=
  λ d n, bool_decide (tagName (d n) = t) && bool_decide (is_Some (attrs (d n) !! a)).
(** [t[a^="p"]] *)
Definition tag_attr_prefix (t a p : string) : selector :=
  λ d n, bool_decide (tagName (d n) = t) &&
         match attrs (d n) !! a with Some v => String.prefix p v | None => false end.
(** [.c[a]] *)
Definition class_has_attr (c a : string) : selector :=
  λ d n, bool_decide (c ∈ classList (d n)) && bool_decide (is_Some (attrs (d n) !! a)).
(** [s1, s2] *)
Definition sel_or (s1 s2 : selector) : selector := λ d n, s1 d n || s2 d n.
(** the element whose [id] is [i] *)
Definition by_id (i : string) : selector :=
  λ d n, bool_decide (attrs (d n) !! "id" = Some i).

(** The static part of the document: its elements are the nodes below
    [doc_size], numbered in document order; [ancestors n] lists the proper
    ancestors of [n], nearest first; [css] is the browser's selector parser
    for selector text computed at run time ([None]: a syntax error), asked
    where [parse_fragment] below leaves the answer open. *)
Record page := Page {
  doc_size : nat;
  ancestors : node → list node;
  css : string → option selector }.

Definition matching (pg : page) (sel : selector) (d : node → element) : list node :=
  List.filter (sel d) (seq 0 (doc_size pg)).

Definition querySelectorAll (pg : page) (sel : selector) : JS (list node) :=
  gets (λ w, matching pg sel (dom w)).
Definition querySelector (pg : page) (sel : selector) : JS (option node) :=
  gets (λ w, head (matching pg sel (dom w))).
Definition getElementById (pg : page) (i : string) : JS (option node) :=
  querySelector pg (by_id i).
(** [root.querySelectorAll(sel)]: the matching descendants of [root]. *)
Definition querySelectorAll_in (pg : page) (root : node) (sel : selector) : JS (list node) :=
  gets (λ w, List.filter (λ n, bool_decide (root ∈ ancestors pg n))
                         (matching pg sel (dom w))).
(** [n.closest(sel)]: [n] itself or its nearest matching ancestor. *)
Definition closest (pg : page) (n : node) (sel : selector) : JS (option node) :=
  gets (λ w, List.find (sel (dom w)) (n :: ancestors pg n)).
(** *** Selector text computed at run time

    The click handler of the anchors hands an [href] to [querySelector].
    The selector parser is modelled where its answer is plain: ["#"]
    followed by a name of ASCII letters, digits, [_] and [-] that starts
    with a letter or [_] is the ID selector of that name; ["#"] followed by
    a digit is no selector at all, since an identifier cannot start with a
    digit; for every other text the page's [css] answers.  Ids are compared
    as they are written, as in every document that is not in quirks
    mode. *)
Definition is_digit (c : Ascii.ascii) : bool :=
  let n := Ascii.nat_of_ascii c in (48 <=? n) && (n <=? 57).   (* 0 to 9 *)
Definition is_letter (c : Ascii.ascii) : bool :=
  let n := Ascii.nat_of_ascii c in
  ((65 <=? n) && (n <=? 90)) || ((97 <=? n) && (n <=? 122)).   (* A to Z, a to z *)
Definition is_name_start (c : Ascii.ascii) : bool :=
  is_letter c || (Ascii.nat_of_ascii c =? 95).               (* _ *)
Definition is_name_char (c : Ascii.ascii) : bool :=
  is_name_start c || is_digit c || (Ascii.nat_of_ascii c =? 45). (* - *)

Fixpoint all_name_chars (s : string) : bool :=
  match s with
  | EmptyString => true
  | String c r => is_name_char c && all_name_chars r
  end.

Definition simple_ident (name : string) : bool :=
  match name with
  | String c r => is_name_start c && all_name_chars r
  | EmptyString => false
  end.





(** ** 5. The behaviours of main.js *)

(** *** 5.1 Mobile menu toggle *)

Definition toggle_click (toggle menu : node) : JS unit :=
  a ← getAttribute toggle "aria-expanded";
  let isOpen := bool_decide (a = Some "true") in
  setAttribute toggle "aria-expanded" (String_of_bool (negb isOpen)) ;;
  set_hidden menu isOpen ;;
  classList_toggle toggle "is-active".

Definition mobile_link_click (toggle menu : node) : JS unit :=
  setAttribute toggle "aria-expanded" "false" ;;
  set_hidden menu true ;;
  classList_remove toggle "is-active".

Definition initMobileMenu (pg : page) : JS unit :=
  toggle ← querySelector pg (by_class "navbar__toggle");
  menu ← getElementById pg "mobile-menu";
  match toggle, menu with
  | Some toggle, Some menu =>
      addEventListener (OnElement toggle) "click" (ToggleClick toggle menu) ;;
      links ← querySelectorAll_in pg menu (by_class "navbar__mobile-link");
      forEach links (λ link,
        addEventListener (OnElement link) "click" (MobileLinkClick toggle menu))
  | _, _ => mret tt
  end.

(** *** 5.2 Smooth scrolling *)


Definition initSmoothScroll (pg : page) : JS unit :=
  anchors ← querySelectorAll pg (tag_attr_prefix "a" "href" "#");
  forEach anchors (λ anchor,
    addEventListener (OnElement anchor) "click" (AnchorClick anchor)).

(** *** 5.3 Active navigation link *)

Definition active_nav_callback (navLinks : list node) (entries : list entry) : JS unit :=
  forEach entries (λ entry,
    if isIntersecting entry then
      id ← getAttribute (target entry) "id";
      forEach navLinks (λ link,
        href ← getAttribute link "href";
        classList_toggle_force link "is-active"
          (bool_decide (href = Some ("#" +:+ default "null" id))))
    else mret tt).

Definition initActiveNav (pg : page) : JS unit :=
  sections ← querySelectorAll pg (tag_has_attr "section" "id");
  navLinks ← querySelectorAll pg (by_class "navbar__link");
  if (length sections =? 0) || (length navLinks =? 0) then mret tt else
  newIntersectionObserver ActiveNavObs (ActiveNavCb navLinks)
    (ObserverInit 0 "-40% 0px -55% 0px") ;;
  forEach sections (λ sec, observe ActiveNavObs sec).

(** *** 5.4 Navbar scroll intensity *)

Definition navbar_update (navbar : node) : JS unit :=
  scrollY ← gets scrollY;
  let progress := clamp (scrollY / 300) 0 1 in
  set_style navbar "--nav-scroll" [Num progress] ;;
  classList_toggle_force navbar "navbar--scrolled" (Qgtb scrollY 50).

Definition initNavbarScroll (pg : page) : JS unit :=
  navbar ← querySelector pg (by_class "navbar");
  match navbar with
  | None => mret tt
  | Some navbar =>
      addEventListener OnWindow "scroll" (NavbarScroll navbar) ;;
      navbar_update navbar
  end.

(** *** 5.5 Section reveal *)


Definition initReveal (pg : page) (motionOK : bool) : JS unit :=
  if negb motionOK then
    els ← querySelectorAll pg (by_class "animate-wrapper");
    forEach els (λ el, classList_add el "is-visible")
  else
    newIntersectionObserver RevealObs RevealCb (ObserverInit 0.12 "0px") ;;
    els ← querySelectorAll pg (by_class "animate-wrapper");
    forEach els (λ el, observe RevealObs el).

(** *** 5.6 Parallax *)

Definition speeds : list Q := [0.03; -0.02; 0.015]%Q.

Definition translate3d_y (v : Q) : css_text :=
  [Lit "translate3d(0,"; Num v; Lit "px,0)"].

Definition blob_speed (i : nat) : Q := or_default (speeds !! i) 0.02%Q.
Definition gradient_speed (i : nat) : Q := if (i =? 0)%nat then 0.018%Q else (-0.012)%Q.

Definition parallax_update (blobs bgGradients : list node) : JS unit :=
  scrollY ← gets scrollY;
  forEach_i blobs (λ blob i,
    let speed := blob_speed i in
    set_style blob "transform" (translate3d_y (scrollY * speed))) ;;
  forEach_i bgGradients (λ grad i,
    let speed := gradient_speed i in
    set_style grad "transform" (translate3d_y (scrollY * speed))).

Definition initParallax (pg : page) (motionOK : bool) : JS unit :=
  if negb motionOK then mret tt else
  blobs ← querySelectorAll pg (by_class "hero__blob");
  bgGradients ← querySelectorAll pg (by_class "bg-layers__gradient");
  if (length blobs =? 0) && (length bgGradients =? 0) then mret tt else
  addEventListener OnWindow "scroll" (ParallaxScroll blobs bgGradients).

(** *** 5.7 Typing effect *)

Definition typing_done (el : node) : JS unit :=
  classList_remove el "typing-active" ;;
  classList_add el "typing-done".

Definition type (el : node) (fullText : jsstring) : JS unit :=
  i ← gets charIndex;
  if (i <? length fullText)%nat then
    t ← get_textContent el;
    set_textContent el (t ++ charAt fullText i) ;;
    modify (with_charIndex (S i)) ;;
    setTimeout (TypeTick el fullText) 42
  else
    setTimeout (TypingDone el) 2200.

Definition typing_callback (el : node) (fullText : jsstring) (entries : list entry) : JS unit :=
  match entries with
  | [] => throw "TypeError"
  | e0 :: _ =>
      if isIntersecting e0 then
        setTimeout (TypeTick el fullText) 600 ;;
        disconnect TypingObs
      else mret tt
  end.

Definition initTyping (pg : page) (motionOK : bool) : JS unit :=
  if negb motionOK then mret tt else
  el ← querySelector pg (by_class "hero__tagline");
  match el with
  | None => mret tt
  | Some el =>
      t ← get_textContent el;
      let fullText := trim t in
      set_textContent el [] ;;
      classList_add el "typing-active" ;;
      modify (with_charIndex 0) ;;
      newIntersectionObserver TypingObs (TypingCb el fullText) (ObserverInit 0.3 "0px") ;;
      hero ← closest pg el (by_class "hero");
      observe TypingObs (default el hero)
  end.

(** *** 5.8 - 5.10 Ripple, tilt, magnetic hover: what initialisation does *)

Definition initRipple (pg : page) (motionOK : bool) : JS unit :=
  if negb motionOK then mret tt else
  buttons ← querySelectorAll pg (sel_or (by_class "hero__btn") (by_class "contact__submit"));
  forEach buttons (λ btn,
    set_style btn "position" [Lit "relative"] ;;
    set_style btn "overflow" [Lit "hidden"] ;;
    addEventListener (OnElement btn) "click" (RippleClick btn)).

Definition initTilt (pg : page) (motionOK : bool) : JS unit :=
  if negb motionOK then mret tt else
  cards ← querySelectorAll pg (by_class "project-card");
  forEach cards (λ card,
    addEventListener (OnElement card) "mousemove" (TiltMove card) ;;
    addEventListener (OnElement card) "mouseleave" (TiltLeave card)).

Definition initMagnetic (pg : page) (motionOK : bool) : JS unit :=
  if negb motionOK then mret tt else
  targets ← querySelectorAll pg
    (sel_or (by_class "project-card__link")
       (sel_or (by_class "footer__social-link") (by_class "navbar__link")));
  forEach targets (λ el,
    addEventListener (OnElement el) "mousemove" (MagneticMove el) ;;
    addEventListener (OnElement el) "mouseleave" (MagneticLeave el)).

(** *** 5.11 Lazy images *)

Definition lazy_callback (entries : list entry) : JS unit :=
  forEach entries (λ entry,
    if isIntersecting entry then
      let img := target entry in
      src ← getAttribute img "data-src";
      set_src img (default "undefined" src) ;;
      removeAttribute img "data-src" ;;
      unobserve LazyObs img
    else mret tt).

Definition initLazyImages (pg : page) : JS unit :=
  images ← querySelectorAll pg (class_has_attr "project-card__image" "data-src");
  if (length images =? 0) then mret tt else
  newIntersectionObserver LazyObs LazyCb (ObserverInit 0 "200px") ;;
  forEach images (λ img, observe LazyObs img).

(** *** The script as a whole *)

Inductive behaviour :=
| MobileMenu | SmoothScroll | ActiveNav | NavbarIntensity | Reveal | Parallax
| Typing | Ripple | Tilt | Magnetic | LazyImages.

Definition init (b : behaviour) (pg : page) (motionOK : bool) : JS unit :=
  match b with
  | MobileMenu => initMobileMenu pg
  | SmoothScroll => initSmoothScroll pg
  | ActiveNav => initActiveNav pg
  | NavbarIntensity => initNavbarScroll pg
  | Reveal => initReveal pg motionOK
  | Parallax => initParallax pg motionOK
  | Typing => initTyping pg motionOK
  | Ripple => initRipple pg motionOK
  | Tilt => initTilt pg motionOK
  | Magnetic => initMagnetic pg motionOK
  | LazyImages => initLazyImages pg
  end.

Definition behaviours : list behaviour :=
  [MobileMenu; SmoothScroll; ActiveNav; NavbarIntensity; Reveal; Parallax;
   Typing; Ripple; Tilt; Magnetic; LazyImages].

Definition main (pg : page) (motionOK : bool) : JS unit :=
  forEach behaviours (λ b, init b pg motionOK).

(** ** 6. The browser: timers and observer notifications *)

Definition run_task (j : task) : JS unit :=
  match j with
  | TypeTick el fullText => type el fullText
  | TypingDone el => typing_done el
  end.

(** The pending timer that fires next, the earliest due and among equals
    the oldest, with the timers that stay pending. *)
Fixpoint next_timer (ts : list timer) : option (timer * list timer) :=
  match ts with
  | [] => None
  | t :: r =>
      match next_timer r with
      | Some (m, r') => if (due t <=? due m)%Z then Some (t, r) else Some (m, t :: r')
      | None => Some (t, [])
      end
  end.

(** Time passes until [T]: every timer due by then fires at its due time,
    in order.  [fuel] bounds the number of jobs run; [None] when it does
    not suffice. *)
Fixpoint elapse (fuel : nat) (T : Z) (w : world) : option world :=
  match next_timer (timers w) with
  | Some (t, rest) =>
      if (due t <=? T)%Z then
        match fuel with
        | O => None
        | S fuel' =>
            elapse fuel' T
              (exec (run_task (job t))
                    (with_clock (Z.max (clock w) (due t)) (with_timers rest w)))
        end
      else Some (with_clock (Z.max (clock w) T) w)
  | None => Some (with_clock (Z.max (clock w) T) w)
  end.

(** A batch of entries the browser may hand to an observer's callback:
    not empty, and only for targets the observer observes at that moment.
    One batch may hold several entries for one target: the browser queues
    an entry at every change it detects and hands over the whole queue. *)
Definition deliverable (targets : gset node) (entries : list entry) : Prop :=
  entries ≠ [] ∧ ∀ e, e ∈ entries → target e ∈ targets.

(** The executions of an observer-driven behaviour: the browser delivers
    one batch after the other to the callback [cb] of observer [o]. *)
Inductive deliveries (o : observer) (cb : list entry → JS unit) :
  world → list (list entry) → world → Prop :=
| deliveries_nil w : deliveries o cb w [] w
| deliveries_cons w entries w1 batches w2 :
    deliverable (observed w o) entries →
    cb entries w = (Normal tt, w1) →
    deliveries o cb w1 batches w2 →
    deliveries o cb w (entries :: batches) w2.

(** What happens to the typing effect's observer: a batch is delivered,
    or time passes until [T]. *)
Inductive occurrence :=
| Notify (entries : list entry)
| Wait (T : Z).

Inductive typing_run (el : node) (fullText : jsstring) :
  world → list occurrence → world → Prop :=
| typing_run_nil w : typing_run el fullText w [] w
| typing_run_notify w entries w1 occs w2 :
    deliverable (observed w TypingObs) entries →
    typing_callback el fullText entries w = (Normal tt, w1) →
    typing_run el fullText w1 occs w2 →
    typing_run el fullText w (Notify entries :: occs) w2
| typing_run_wait w fuel T w1 occs w2 :
    elapse fuel T w = Some w1 →
    typing_run el fullText w1 occs w2 →
    typing_run el fullText w (Wait T :: occs) w2.

(** ** 7. Reading the effect log *)

(** The writes made to element [n], oldest first. *)
Definition writes_to (n : node) (l : list effect) : list write :=
  omap (λ e, match e with
             | Mutate m wr => if decide (m = n) then Some wr else None
             | _ => None
             end) l.

(** How many delivered entries report [n] intersecting. *)
Definition reports_in (n : node) (entries : list entry) : nat :=
  length (List.filter (λ e, bool_decide (target e = n) && isIntersecting e) entries).
Definition reports (n : node) (batches : list (list entry)) : nat :=
  reports_in n (concat batches).

(** Effects that touch neither an element nor the console. *)
Definition inert (e : effect) : Prop :=
  match e with
  | Mutate _ _ | Listen _ _ _ | Observe _ _ | ConsoleLog _ => False
  | _ => True
  end.

(** *** The typing effect's timetable, in ms since the observer fired *)

Definition startup_delay : Z := 600.
Definition type_speed : Z := 42.
Definition dwell : Z := 2200.

(** Characters shown [e] ms after the hero was reported intersecting, for a
    text of [M] characters: one per tick, the first tick at [startup_delay]. *)
Definition typed_by (M : nat) (e : Z) : nat :=
  if (e <? startup_delay)%Z then 0
  else Nat.min M (Z.to_nat ((e - startup_delay) / type_speed) + 1).

(** When the cursor classes are swapped: [dwell] after the tick that finds
    the text complete, which is one [type_speed] after the last character. *)
Definition done_at (M : nat) : Z :=
  (startup_delay + type_speed * Z.of_nat M + dwell)%Z.


(** ** 8. Vocabulary of the statements *)

(** The mobile menu as its users see it: the toggle's [aria-expanded], the
    menu's [hidden], and whether the toggle carries [is-active]. *)
Definition menu_state (toggle menu : node) (w : world) : option string * bool * bool :=
  (attrs (dom w toggle) !! "aria-expanded",
   hidden (dom w menu),
   bool_decide ("is-active" ∈ classList (dom w toggle))).

(** What the toggle handler reads as "open". *)
Definition is_open (toggle : node) (w : world) : bool :=
  bool_decide (attrs (dom w toggle) !! "aria-expanded" = Some "true").

(** A piece of script that completes normally from every state. *)
Definition never_throws (m : JS unit) : Prop := ∀ w, m w = (Normal tt, exec m w).

(** The writes [wrs] made to [n] one after the other. *)
Definition replay (n : node) (wrs : list write) : JS unit :=
  forEach wrs (λ wr, mutate n wr).

(** The shape the reveal and lazy-image callbacks share: for each entry
    reported intersecting, act on its target, then stop observing it. *)
Definition one_shot (o : observer) (action : node → JS unit) (entries : list entry) : JS unit :=
  forEach entries (λ entry,
    if isIntersecting entry then action (target entry) ;; unobserve o (target entry)
    else mret tt).

Definition lazy_writes (e : element) : list write :=
  [SetSrc (default "undefined" (attrs e !! "data-src")); RemoveAttribute "data-src"].

(** *** Clicks on an anchor *)




(** What a behaviour looks for, and whether the document holds none of it
    (for a behaviour that needs two things, either one missing). *)
Definition finds_nothing (b : behaviour) (pg : page) (d : node → element) : Prop :=
  match b with
  | MobileMenu =>
      matching pg (by_class "navbar__toggle") d = [] ∨ matching pg (by_id "mobile-menu") d = []
  | SmoothScroll => matching pg (tag_attr_prefix "a" "href" "#") d = []
  | ActiveNav =>
      matching pg (tag_has_attr "section" "id") d = [] ∨ matching pg (by_class "navbar__link") d = []
  | NavbarIntensity => matching pg (by_class "navbar") d = []
  | Reveal => matching pg (by_class "animate-wrapper") d = []
  | Parallax =>
      matching pg (by_class "hero__blob") d = [] ∧ matching pg (by_class "bg-layers__gradient") d = []
  | Typing => matching pg (by_class "hero__tagline") d = []
  | Ripple => matching pg (sel_or (by_class "hero__btn") (by_class "contact__submit")) d = []
  | Tilt => matching pg (by_class "project-card") d = []
  | Magnetic =>
      matching pg (sel_or (by_class "project-card__link")
                     (sel_or (by_class "footer__social-link") (by_class "navbar__link"))) d = []
  | LazyImages => matching pg (class_has_attr "project-card__image" "data-src") d = []
  end.

(** The hero is never reported intersecting. *)
Definition never_intersecting (occs : list occurrence) : Prop :=
  ∀ entries e, Notify entries ∈ occs → e ∈ entries → isIntersecting e = false.

(** The cursor classes of the tagline, from the classes [C] it has in the
    markup: while typing, and after the swap. *)
Definition typing_classes (C : gset string) : gset string := {["typing-active"]} ∪ C.
Definition done_classes (C : gset string) : gset string :=
  {["typing-done"]} ∪ (typing_classes C ∖ {["typing-active"]}).

(** What one lazy load does to an image: the callback's body without the
    [unobserve]. *)
Definition lazy_action (img : node) : JS unit :=
  src ← getAttribute img "data-src";
  set_src img (default "undefined" src) ;;
  removeAttribute img "data-src".

Definition apply_writes (e : element) (wrs : list write) : element :=
  foldl (λ e wr, apply_write wr e) e wrs.

(** The writes of [k] runs of an action on one element, one run after the
    other from state [e], and the element that they leave. *)
Fixpoint repeated_writes (act : element → list write) (k : nat) (e : element) : list write :=
  match k with
  | 0 => []
  | S k => act e ++ repeated_writes act k (apply_writes e (act e))
  end.

Fixpoint repeated (act : element → list write) (k : nat) (e : element) : element :=
  match k with
  | 0 => e
  | S k => repeated act k (apply_writes e (act e))
  end.

(** In how many of the batches [n] is reported intersecting. *)
Definition notified (n : node) (batches : list (list entry)) : nat :=
  length (List.filter (λ es, negb (reports_in n es =? 0)) batches).

(** The typing effect from page load: the script initialises with motion
    allowed, the observer's callback receives [entries] at time [t0], and
    time passes until [T].  [el] is the tagline. *)
Definition typing_scenario (pg : page) (d : node → element) (y : Q) (el : node)
    (entries : list entry) (t0 T : Z) : option world :=
  let fullText := trim (textContent (d el)) in
  w ← elapse 0 t0 (exec (initTyping pg true) (initial_world d y));
  elapse (length fullText + 2) T (exec (typing_callback el fullText entries) w).

(** ** 9. A small page to run the script on

    In document order:
    - 0 [<button class="navbar__toggle" aria-expanded="false">]
    - 1 [<div id="mobile-menu">] (no [hidden] attribute)
    - 2 [<a class="navbar__mobile-link" href="#about">], inside 1
    - 3 [<section class="hero" id="hero">]
    - 4 [<p class="hero__tagline"> Hi</p>], inside 3
    - 5 [<section class="animate-wrapper" id="about">]
    - 6 [<img class="project-card__image" data-src="shot.png">], inside 5
    - 7 [<img class="project-card__image" src="logo.png">], inside 5
    - 8 [<a href="#2024">] *)

Definition mk_element (tag : string) (classes : list string)
    (attributes : list (string * string)) (text : jsstring) : element :=
  Element tag (list_to_map attributes) (list_to_set classes) text false ∅.

Definition demo_dom : node → element := λ n,
  match n with
  | 0 => mk_element "button" ["navbar__toggle"] [("aria-expanded", "false")] []
  | 1 => mk_element "div" [] [("id", "mobile-menu")] []
  | 2 => mk_element "a" ["navbar__mobile-link"] [("href", "#about")] []
  | 3 => mk_element "section" ["hero"] [("id", "hero")] []
  | 4 => mk_element "p" ["hero__tagline"] [] [32; 72; 105]%N
  | 5 => mk_element "section" ["animate-wrapper"] [("id", "about")] []
  | 6 => mk_element "img" ["project-card__image"] [("data-src", "shot.png")] []
  | 7 => mk_element "img" ["project-card__image"] [("src", "logo.png")] []
  | 8 => mk_element "a" [] [("href", "#2024")] []
  | _ => mk_element "div" [] [] []
  end.

(** The selector parser of the pages below, for the texts that
    [parse_fragment] leaves open: it takes none of them for a selector. *)
Definition demo_css (text : string) : option selector := None.

Definition demo_page : page :=
  Page 9
       (λ n, match n with 2 => [1] | 4 => [3] | 6 => [5] | 7 => [5] | _ => [] end)
       demo_css.

Definition demo_world : world := initial_world demo_dom 0.



(** ** 10. Invariants and proof vocabulary *)

(** One iteration of a one-shot callback. *)
Definition one_shot_step (o : observer) (action : node → JS unit) (e : entry) : JS unit :=
  if isIntersecting e then action (target e) ;; unobserve o (target e) else mret tt.

(** The state of the typing effect between two ticks, for a tagline [el]
    with text [full] whose observer fired at [t0] and whose classes while
    typing are [C]: [k] characters are shown and the tick that shows the
    next one (or finds none left) is the one pending timer. *)
Record typing_at (el : node) (full : jsstring) (t0 : Z) (C : gset string)
    (k : nat) (w : world) : Prop := TypingAt {
  ta_timers : ∃ due, timers w = [Timer due (TypeTick el full)]
                     ∧ due = (t0 + 600 + 42 * Z.of_nat k)%Z;
  ta_index : charIndex w = k;
  ta_le : k ≤ length full;
  ta_text : textContent (dom w el) = take k full;
  ta_class : classList (dom w el) = C;
  ta_clock_hi : (clock w <= t0 + 600 + 42 * Z.of_nat k)%Z;
  ta_clock_lo : (t0 <= clock w)%Z
                ∧ (1 ≤ k → (t0 + 600 + 42 * (Z.of_nat k - 1) <= clock w)%Z) }.

(** What the tagline looks like at time [T]. *)
Definition typing_result (el : node) (full : jsstring) (t0 : Z) (C : gset string)
    (T : Z) (w : world) : Prop :=
  clock w = T
  ∧ textContent (dom w el) = take (typed_by (length full) (T - t0)) full
  ∧ classList (dom w el) =
      (if (T - t0 <? done_at (length full))%Z then C
       else {["typing-done"]} ∪ (C ∖ {["typing-active"]})).

(** The links the mobile menu closes on. *)
Definition mobile_links (pg : page) (menu : node) (d : node → element) : list node :=
  List.filter (λ n, bool_decide (menu ∈ ancestors pg n))
              (matching pg (by_class "navbar__mobile-link") d).

Ltac js_unfold :=
  unfold exec, getAttribute, setAttribute, removeAttribute, classList_add, classList_remove,
    classList_toggle, classList_toggle_force, get_textContent, set_textContent, set_hidden,
    set_style, set_src, addEventListener, preventDefault, scrollIntoView, setTimeout,
    newIntersectionObserver, observe, unobserve, disconnect, mutate, modify, gets, throw,
    mbind, mret, JS_bind, JS_ret in *.

Ltac dom_simpl :=
  repeat first [ rewrite fn_lookup_alter | rewrite fn_lookup_alter_ne by congruence ]; cbn.

(** Membership in a concrete class list or target set, by evaluation. *)
Ltac by_compute := apply (bool_decide_unpack _); vm_compute; exact I.

(** ** 11. Timers that can be cancelled

    [debounce] and the tilt effect schedule closures of their own, and
    [debounce] cancels them: their timers carry the handle that
    [setTimeout] returned and the job itself. *)

Record slot := Slot {
  handle : nat;       (* what setTimeout returned *)
  fires_at : Z;       (* ms *)
  callback_of : JS unit }.

Record browser := Browser {
  page_of : world;
  pending : list slot;     (* oldest first *)
  next_handle : nat }.

Definition on_page (f : world → world) (b : browser) : browser :=
  Browser (f (page_of b)) (pending b) (next_handle b).

(** [setTimeout(job, delay)], returning the handle. *)
Definition set_timeout (job : JS unit) (delay : Z) (b : browser) : nat * browser :=
  (next_handle b,
   Browser (page_of b)
           (pending b ++ [Slot (next_handle b) (clock (page_of b) + delay) job])
           (S (next_handle b))).

(** [clearTimeout(h)]; [None] is [undefined].  A handle that is not
    pending cancels nothing. *)
Definition clear_timeout (h : option nat) (b : browser) : browser :=
  match h with
  | None => b
  | Some h =>
      Browser (page_of b)
              (List.filter (λ s, negb (handle s =? h)) (pending b))
              (next_handle b)
  end.

(** The slot that fires next: the earliest, and among equals the oldest. *)
Fixpoint next_slot (ss : list slot) : option (slot * list slot) :=
  match ss with
  | [] => None
  | s :: r =>
      match next_slot r with
      | Some (m, r') => if (fires_at s <=? fires_at m)%Z then Some (s, r) else Some (m, s :: r')
      | None => Some (s, [])
      end
  end.

(** A slot fires: the clock moves to its time and its job runs. *)
Definition fire (s : slot) (rest : list slot) (b : browser) : browser :=
  Browser (exec (callback_of s)
                (with_clock (Z.max (clock (page_of b)) (fires_at s)) (page_of b)))
          rest (next_handle b).

(** Time passes until [T], at most [fuel] slots firing. *)
Fixpoint advance (fuel : nat) (T : Z) (b : browser) : browser :=
  match fuel, next_slot (pending b) with
  | S fuel', Some (s, rest) =>
      if (fires_at s <=? T)%Z then advance fuel' T (fire s rest b)
      else on_page (λ w, with_clock (Z.max (clock w) T) w) b
  | _, _ => on_page (λ w, with_clock (Z.max (clock w) T) w) b
  end.

(** Time passes until [T]: every slot due by then fires, in order.  The
    jobs of this script's cancellable timers schedule nothing, so there are
    no more firings than pending slots. *)
Definition run_until (T : Z) (b : browser) : browser :=
  advance (length (pending b)) T b.

(** *** 0. Helpers: [debounce] *)

(** The function that [debounce(fn, wait)] returns, called with [args]
    while the closure's variable [timer] holds [timer]; the result carries
    the variable's new value.  ([this] is passed on to [fn] unused: the one
    function the script debounces does not read it.) *)
Definition debounce {A} (fn : A → JS unit) (wait : Z) (args : A)
    (timer : option nat) (b : browser) : option nat * browser :=
  let b := clear_timeout timer b in
  let '(h, b) := set_timeout (fn args) wait b in
  (Some h, b).

(** The debounced function called with [c.2] at time [c.1]; then one call
    after the other. *)
Definition call_at {A} (fn : A → JS unit) (wait : Z) (c : Z * A)
    (st : option nat * browser) : option nat * browser :=
  debounce fn wait c.2 st.1 (run_until c.1 st.2).

Definition calls {A} (fn : A → JS unit) (wait : Z) (cs : list (Z * A))
    (st : option nat * browser) : option nat * browser :=
  foldl (λ st c, call_at fn wait c st) st cs.

(** Each time follows the one before by less than [wait], the first one
    follows [t]. *)
Fixpoint rapid (wait : Z) (t : Z) (ts : list Z) : Prop :=
  match ts with
  | [] => True
  | t' :: r => (t <= t' < t + wait)%Z ∧ rapid wait t' r
  end.

(** *** 5.4 The navbar's scroll listener, [debounce(update, 8)] *)

(** The window is scrolled to offset [ev.2] at time [ev.1] and the
    listener runs; then one scroll event after the other. *)
Definition navbar_scroll (navbar : node) (ev : Z * Q)
    (st : option nat * browser) : option nat * browser :=
  debounce (λ _ : unit, navbar_update navbar) 8 tt st.1
    (on_page (with_scrollY ev.2) (run_until ev.1 st.2)).

Definition navbar_scrolls (navbar : node) (evs : list (Z * Q))
    (st : option nat * browser) : option nat * browser :=
  foldl (λ st ev, navbar_scroll navbar ev st) st evs.

(** The page once the script has initialised the navbar: nothing pending,
    the closure's [timer] still [undefined]. *)
Definition navbar_loaded (pg : page) (d : node → element) (y : Q) : option nat * browser :=
  (None, Browser (exec (initNavbarScroll pg) (initial_world d y)) [] 0).

(** The writes of one navbar update at scroll offset [y]. *)
Definition navbar_writes (y : Q) : list write :=
  [SetStyle "--nav-scroll" [Num (clamp (y / 300) 0 1)];
   ClassForce "navbar--scrolled" (Qgtb y 50)].

(** ** 12. The pointer handlers of tilt and magnetic hover

    The bodies of the listeners that section 2 names [TiltMove],
    [TiltLeave], [MagneticMove] and [MagneticLeave] ([NavbarScroll] is
    [navbar_scroll] above).  A handler reads the element's
    [getBoundingClientRect()] and the mouse event; layout is the browser's
    business, so a handler takes the rectangle that the call returns as
    an argument. *)
Record DOMRect := Rect {
  rect_left : Q;
  rect_top : Q;
  rect_width : Q;
  rect_height : Q }.

Record MouseEvent := Mouse {
  clientX : Q;
  clientY : Q }.

(** *** 5.9 Card tilt *)

Definition MAX_DEG : Q := 4.

(** [const x], [const y] of the [mousemove] handler, where they are
    numbers: for a rectangle of width and height other than zero. *)
Definition tilt_x (rect : DOMRect) (e : MouseEvent) : Q :=
  (clientX e - rect_left rect) / rect_width rect - 0.5.
Definition tilt_y (rect : DOMRect) (e : MouseEvent) : Q :=
  (clientY e - rect_top rect) / rect_height rect - 0.5.

(** Whether they are.  A width or height of zero makes the division give
    [Infinity], [-Infinity] or [NaN]. *)
Definition tilt_finite (rect : DOMRect) : bool :=
  negb (Qeq_bool (rect_width rect) 0) && negb (Qeq_bool (rect_height rect) 0).

Definition tilt_transform (x y : Q) : css_text :=
  [Lit "perspective(800px) rotateY("; Num (x * MAX_DEG); Lit "deg) rotateX(";
   Num (- y * MAX_DEG); Lit "deg) translateY(-6px)"].

(** With [Infinity] or [NaN] in the place of an angle the text assigned
    is no transform, and the style drops the assignment. *)
Definition tilt_move (card : node) (rect : DOMRect) (e : MouseEvent) : JS unit :=
  if tilt_finite rect then
    let x := tilt_x rect e in
    let y := tilt_y rect e in
    set_style card "transform" (tilt_transform x y)
  else mret tt.

(** The job that the [mouseleave] handler schedules. *)
Definition tilt_reset (card : node) : JS unit :=
  set_style card "transition" [Lit ""].

Definition tilt_leave (card : node) (b : browser) : browser :=
  let b :=
    on_page (exec (set_style card "transform" [Lit ""] ;;
                   set_style card "transition"
                     [Lit "transform 0.4s cubic-bezier(0.22,1,0.36,1)"])) b in
  (set_timeout (tilt_reset card) 400 b).2.

(** *** 5.10 Magnetic hover *)

Definition STRENGTH : Q := 0.3.

(** [const dx], [const dy] of the [mousemove] handler. *)
Definition magnetic_dx (rect : DOMRect) (e : MouseEvent) : Q :=
  clientX e - (rect_left rect + rect_width rect / 2).
Definition magnetic_dy (rect : DOMRect) (e : MouseEvent) : Q :=
  clientY e - (rect_top rect + rect_height rect / 2).

Definition magnetic_transform (dx dy : Q) : css_text :=
  [Lit "translate("; Num (dx * STRENGTH); Lit "px,"; Num (dy * STRENGTH); Lit "px)"].

Definition magnetic_move (el : node) (rect : DOMRect) (e : MouseEvent) : JS unit :=
  let dx := magnetic_dx rect e in
  let dy := magnetic_dy rect e in
  set_style el "transform" (magnetic_transform dx dy).

Definition magnetic_leave (el : node) : JS unit :=
  set_style el "transform" [Lit "translate(0,0)"].

(** ** 13. Sequences of events, and further vocabulary *)

(** *** Clicks on the mobile menu *)

Inductive menu_click :=
| ClickToggle
| ClickLink.

Definition menu_handler (toggle menu : node) (c : menu_click) : JS unit :=
  match c with
  | ClickToggle => toggle_click toggle menu
  | ClickLink => mobile_link_click toggle menu
  end.

(** The clicks handled one after the other. *)
Definition menu_clicks (toggle menu : node) (cs : list menu_click) (w : world) : world :=
  foldl (λ w c, exec (menu_handler toggle menu c) w) w cs.

(** The two-state machine that a click drives: the toggle flips, a link
    closes. *)
Definition menu_step (open : bool) (c : menu_click) : bool :=
  match c with
  | ClickToggle => negb open
  | ClickLink => false
  end.

(** [aria-expanded] and [hidden] say the same thing. *)
Definition menu_consistent (toggle menu : node) (w : world) : Prop :=
  (attrs (dom w toggle) !! "aria-expanded" = Some "true" ∧ hidden (dom w menu) = false)
  ∨ (attrs (dom w toggle) !! "aria-expanded" = Some "false" ∧ hidden (dom w menu) = true).

Definition is_active (toggle : node) (w : world) : bool :=
  bool_decide ("is-active" ∈ classList (dom w toggle)).

(** *** Notifications of the active-link observer *)

(** The entry that decides the active link: the last one reported
    intersecting. *)
Definition last_intersecting (entries : list entry) : option entry :=
  last (List.filter isIntersecting entries).

(** The [href] that a link must have to become the active one for section
    [sec]: ["#" + id]. *)
Definition fragment_of (d : node → element) (sec : node) : string :=
  "#" +:+ default "null" (attrs (d sec) !! "id").

(** The body of the callback's inner loop, for the fragment [frag] of the
    section at hand. *)
Definition mark_link (frag : string) (link : node) : JS unit :=
  href ← getAttribute link "href";
  classList_toggle_force link "is-active" (bool_decide (href = Some frag)).

(** *** One parallax update, seen from one element *)

(** The [transform] written, if the element is among those updated. *)
Definition transform_or_not (present : bool) (v : css_text) (e : element) : element :=
  if present then apply_write (SetStyle "transform" v) e else e.

(** *** The phases of the typing effect

    For a tagline [el] whose trimmed text is [full] and whose classes in
    the markup are [C0]: waiting for the hero to be seen; typing, the next
    tick pending; the text complete and the class swap pending; finished. *)
Inductive typing_phase (el : node) (full : jsstring) (C0 : gset string) (w : world) : Prop :=
| phase_waiting :
    timers w = [] →
    charIndex w = 0 →
    textContent (dom w el) = [] →
    classList (dom w el) = typing_classes C0 →
    typing_phase el full C0 w
| phase_typing due :
    observed w TypingObs = ∅ →
    timers w = [Timer due (TypeTick el full)] →
    charIndex w ≤ length full →
    textContent (dom w el) = take (charIndex w) full →
    classList (dom w el) = typing_classes C0 →
    typing_phase el full C0 w
| phase_dwelling due :
    observed w TypingObs = ∅ →
    timers w = [Timer due (TypingDone el)] →
    textContent (dom w el) = full →
    classList (dom w el) = typing_classes C0 →
    typing_phase el full C0 w
| phase_finished :
    observed w TypingObs = ∅ →
    timers w = [] →
    textContent (dom w el) = full →
    classList (dom w el) = done_classes C0 →
    typing_phase el full C0 w.

(** The phase, with every other element as in [d0]. *)
Definition typing_inv (el : node) (full : jsstring) (C0 : gset string)
    (d0 : node → element) (w : world) : Prop :=
  typing_phase el full C0 w ∧ ∀ n, n ≠ el → dom w n = d0 n.

(** *** What the script does while it loads *)

(** It writes to elements, registers listeners, creates observers and has
    them observe. *)
Definition load_effect (e : effect) : Prop :=
  match e with
  | Mutate _ _ | Listen _ _ _ | NewObserver _ _ _ | Observe _ _ => True
  | _ => False
  end.

(** A piece of script that completes normally, schedules nothing and has
    only such effects. *)
Definition steady (m : JS unit) : Prop :=
  ∀ w, let w' := exec m w in
    m w = (Normal tt, w')
    ∧ timers w' = timers w
    ∧ clock w' = clock w
    ∧ scrollY w' = scrollY w
    ∧ ∃ l, log w' = log w ++ l ∧ Forall load_effect l.

(** What is left of that when motion is to be reduced: the click listeners
    of the menu and of the anchors, the navbar's scroll listener and its
    two writes, the observers of the active link and of the lazy images,
    and [is-visible] added. *)
Definition calm (e : effect) : Prop :=
  match e with
  | Listen (OnElement _) type (ToggleClick _ _ | MobileLinkClick _ _ | AnchorClick _) =>
      type = "click"
  | Listen OnWindow type (NavbarScroll _) => type = "scroll"
  | NewObserver o _ _ | Observe o _ => o = ActiveNavObs ∨ o = LazyObs
  | Mutate _ (ClassAdd c) => c = "is-visible"
  | Mutate _ (SetStyle p _) => p = "--nav-scroll"
  | Mutate _ (ClassForce c _) => c = "navbar--scrolled"
  | _ => False
  end.

(** Document [d'] is [d] up to the classes [is-visible] (possibly added)
    and [navbar--scrolled] (possibly added or removed) and up to the
    style. *)
Definition calm_dom (d d' : node → element) : Prop :=
  ∀ n, tagName (d' n) = tagName (d n)
       ∧ attrs (d' n) = attrs (d n)
       ∧ textContent (d' n) = textContent (d n)
       ∧ hidden (d' n) = hidden (d n)
       ∧ (∀ c, c ≠ "navbar--scrolled" → c ∈ classList (d n) → c ∈ classList (d' n))
       ∧ (∀ c, c ≠ "navbar--scrolled" → c ≠ "is-visible" →
               c ∈ classList (d' n) → c ∈ classList (d n)).

(** A piece of script that completes normally, schedules nothing, leaves
    the reveal and typing observers alone and does only calm things. *)
Definition calmly (m : JS unit) : Prop :=
  ∀ w, let w' := exec m w in
    m w = (Normal tt, w')
    ∧ timers w' = timers w
    ∧ observed w' RevealObs = observed w RevealObs
    ∧ observed w' TypingObs = observed w TypingObs
    ∧ calm_dom (dom w) (dom w')
    ∧ ∃ l, log w' = log w ++ l ∧ Forall calm l.

(** The behaviours initialised before and after the section reveal. *)
Definition before_reveal : list behaviour := [MobileMenu; SmoothScroll; ActiveNav; NavbarIntensity].
Definition after_reveal : list behaviour := [Parallax; Typing; Ripple; Tilt; Magnetic; LazyImages].

(** *** What initialisation does to one ripple button *)

Definition ripple_buttons : selector :=
  sel_or (by_class "hero__btn") (by_class "contact__submit").

Definition ripple_writes : list write :=
  [SetStyle "position" [Lit "relative"]; SetStyle "overflow" [Lit "hidden"]].

Definition ripple_effects (btn : node) : list effect :=
  (Mutate btn <$> ripple_writes) ++ [Listen (OnElement btn) "click" (RippleClick btn)].

(** *** A pointer session over one card *)

(** The pointer is over the rectangle. *)
Definition inside (rect : DOMRect) (e : MouseEvent) : Prop :=
  (rect_left rect <= clientX e <= rect_left rect + rect_width rect
   ∧ rect_top rect <= clientY e <= rect_top rect + rect_height rect)%Q.

Inductive pointer_event :=
| Move (rect : DOMRect) (e : MouseEvent)
| Leave.

(** The event [ev.2] reaches the card's listeners at time [ev.1]; then one
    event after the other. *)
Definition tilt_event (card : node) (ev : Z * pointer_event) (b : browser) : browser :=
  let b := run_until ev.1 b in
  match ev.2 with
  | Move rect e => on_page (exec (tilt_move card rect e)) b
  | Leave => tilt_leave card b
  end.

Definition tilt_events (card : node) (evs : list (Z * pointer_event)) (b : browser) : browser :=
  foldl (λ b ev, tilt_event card ev b) b evs.

(** No time is earlier than the one before, the first not earlier than [t]. *)
Fixpoint in_order (t : Z) (ts : list Z) : Prop :=
  match ts with
  | [] => True
  | t' :: r => (t <= t')%Z ∧ in_order t' r
  end.

(** The [transform] that an event writes to the card's style: a move over
    a rectangle of width and height other than zero writes the tilt, a move
    over any other rectangle writes nothing, leaving writes the empty
    string.  Then the last [transform] written by a list of events. *)
Definition written_by (ev : pointer_event) : option css_text :=
  match ev with
  | Move rect e =>
      if Qeq_bool (rect_width rect) 0 || Qeq_bool (rect_height rect) 0 then None
      else Some [Lit "perspective(800px) rotateY(";
                 Num (((clientX e - rect_left rect) / rect_width rect - 0.5) * 4);
                 Lit "deg) rotateX(";
                 Num (- ((clientY e - rect_top rect) / rect_height rect - 0.5) * 4);
                 Lit "deg) translateY(-6px)"]
  | Leave => Some [Lit ""]
  end.

Definition last_written (evs : list pointer_event) : option css_text :=
  last (omap written_by evs).

(** The style's [transform] after an event, from the one before it. *)
Definition transform_after (tr : option css_text) (ev : pointer_event) : option css_text :=
  match written_by ev with
  | Some v => Some v
  | None => tr
  end.

(** The state of a pointer session over [card]: every pending timer is a
    reset of this card, due by [B]; the style's [transform] is [tr]; if the
    pointer has left before ([lv]), the transition override is gone or a
    reset is still pending; every other element is as in [d0]. *)
Definition tilt_inv (card : node) (d0 : node → element) (B : Z)
    (tr : option css_text) (lv : Prop) (b : browser) : Prop :=
  (∀ s, s ∈ pending b → callback_of s = tilt_reset card ∧ (fires_at s <= B)%Z)
  ∧ style (dom (page_of b) card) !! "transform" = tr
  ∧ (lv → style (dom (page_of b) card) !! "transition" = Some [Lit ""] ∨ pending b ≠ [])
  ∧ (∀ n, n ≠ card → dom (page_of b) n = d0 n).

(** *** A second page to run the script on

    In document order:
    - 0 [<a class="navbar__link" href="#about">]
    - 1 [<a class="navbar__link is-active" href="#work">]
    - 2 [<section id="about">]
    - 3 [<section id="work">]
    - 4 [<nav class="navbar">] *)
Definition nav_dom : node → element := λ n,
  match n with
  | 0 => mk_element "a" ["navbar__link"] [("href", "#about")] []
  | 1 => mk_element "a" ["navbar__link"; "is-active"] [("href", "#work")] []
  | 2 => mk_element "section" [] [("id", "about")] []
  | 3 => mk_element "section" [] [("id", "work")] []
  | 4 => mk_element "nav" ["navbar"] [] []
  | _ => mk_element "div" [] [] []
  end.

Definition nav_page : page := Page 5 (λ _, []) demo_css.

(** * Properties *)

(** ** Scripts that cannot throw *)

Lemma never_throws_modify f : never_throws (modify f).
Proof. done. Qed.

Lemma never_throws_mutate n wr : never_throws (mutate n wr).
Proof. done. Qed.

Lemma never_throws_seq (a b : JS unit) :
  never_throws a → never_throws b → never_throws (a ;; b).
Proof.
  intros Ha Hb w. unfold exec, mbind, JS_bind. rewrite Ha. cbn. apply Hb.
Qed.

Lemma exec_seq (a b : JS unit) w : never_throws a → exec (a ;; b) w = exec b (exec a w).
Proof. intros Ha. unfold exec at 1, mbind, JS_bind. by rewrite Ha. Qed.

Lemma exec_gets {A} (f : world → A) (k : A → JS unit) w :
  exec (x ← gets f; k x) w = exec (k (f w)) w.
Proof. done. Qed.

Lemma never_throws_forEach {A} (l : list A) f :
  (∀ x, never_throws (f x)) → never_throws (forEach l f).
Proof.
  intros Hf. induction l as [|x r IH]; [done|].
  cbn [forEach]. by apply never_throws_seq.
Qed.

Lemma never_throws_forEach_from {A} (l : list A) f :
  (∀ x i, never_throws (f x i)) → ∀ i0, never_throws (forEach_from i0 l f).
Proof.
  intros Hf. induction l as [|x r IH]; intros i0; [done|].
  cbn [forEach_from]. by apply never_throws_seq.
Qed.

(** ** Queries *)

Lemma elem_of_matching pg sel d n :
  n ∈ matching pg sel d ↔ n < doc_size pg ∧ sel d n = true.
Proof.
  unfold matching. rewrite list_elem_of_In, filter_In, <- list_elem_of_In, elem_of_seq.
  intuition lia.
Qed.

Lemma NoDup_matching pg sel d : NoDup (matching pg sel d).
Proof.
  unfold matching. apply NoDup_ListNoDup, List.NoDup_filter, NoDup_ListNoDup, NoDup_seq.
Qed.

(** ** The effect log *)

Lemma writes_to_app n l1 l2 : writes_to n (l1 ++ l2) = writes_to n l1 ++ writes_to n l2.
Proof. unfold writes_to. apply omap_app. Qed.

Lemma writes_to_cons_mutate n m wr l :
  writes_to n (Mutate m wr :: l) = (if decide (m = n) then [wr] else []) ++ writes_to n l.
Proof. unfold writes_to. cbn. by destruct (decide (m = n)). Qed.

Lemma writes_to_mutate_eq n wrs : writes_to n (Mutate n <$> wrs) = wrs.
Proof.
  induction wrs as [|wr r IH]; [done|].
  rewrite fmap_cons, writes_to_cons_mutate, IH. by rewrite decide_True.
Qed.

Lemma writes_to_mutate_ne n m wrs : m ≠ n → writes_to n (Mutate m <$> wrs) = [].
Proof.
  intros Hne. induction wrs as [|wr r IH]; [done|].
  rewrite fmap_cons, writes_to_cons_mutate, IH. by rewrite decide_False.
Qed.

Lemma writes_to_observes n o els : writes_to n (Observe o <$> els) = [].
Proof. by induction els. Qed.

Lemma writes_to_new_observer n o cb opts o' els :
  writes_to n (NewObserver o cb opts :: (Observe o' <$> els)) = [].
Proof. exact (writes_to_observes n o' els). Qed.


Lemma reports_in_cons n e r :
  reports_in n (e :: r) =
  (if bool_decide (target e = n) && isIntersecting e then 1 else 0) + reports_in n r.
Proof.
  unfold reports_in. cbn. by destruct (bool_decide (target e = n) && isIntersecting e).
Qed.

Lemma reports_in_absent n es : n ∉ target <$> es → reports_in n es = 0.
Proof.
  induction es as [|e r IH]; [done|].
  rewrite fmap_cons, not_elem_of_cons. intros [Hne Hr].
  rewrite reports_in_cons, IH by done.
  by rewrite bool_decide_eq_false_2.
Qed.

Lemma reports_in_present n es : reports_in n es ≠ 0 → n ∈ target <$> es.
Proof.
  intros H. destruct (decide (n ∈ target <$> es)) as [|Hn]; [done|].
  by rewrite reports_in_absent in H.
Qed.

Lemma reports_cons n es bs : reports n (es :: bs) = reports_in n es + reports n bs.
Proof.
  unfold reports, reports_in. cbn. by rewrite List.filter_app, length_app.
Qed.

Lemma notified_cons n es bs :
  notified n (es :: bs) = (if reports_in n es =? 0 then 0 else 1) + notified n bs.
Proof. unfold notified. cbn. by destruct (reports_in n es =? 0). Qed.

Lemma notified_none n bs : reports n bs = 0 → notified n bs = 0.
Proof.
  induction bs as [|es bs IH]; [done|].
  rewrite reports_cons, notified_cons. intros H.
  assert (reports_in n es = 0) as -> by lia. cbn. apply IH. lia.
Qed.

(** ** Loops over a node list *)

Lemma replay_never_throws n wrs : never_throws (replay n wrs).
Proof. apply never_throws_forEach. intros. apply never_throws_mutate. Qed.

Lemma replay_spec n wrs : ∀ w,
  let w' := exec (replay n wrs) w in
  log w' = log w ++ (Mutate n <$> wrs)
  ∧ dom w' n = apply_writes (dom w n) wrs
  ∧ (∀ m, m ≠ n → dom w' m = dom w m)
  ∧ observed w' = observed w.
Proof.
  induction wrs as [|wr r IH]; intros w.
  - cbn. by rewrite app_nil_r.
  - cbn [replay forEach]. rewrite exec_seq by apply never_throws_mutate.
    destruct (IH (exec (mutate n wr) w)) as (Hl & Hd & Hf & Ho).
    fold (replay n r). cbn zeta. rewrite Hl, Hd, Ho. repeat split.
    + cbn. by rewrite <- app_assoc.
    + cbn. by rewrite fn_lookup_alter.
    + intros m Hm. rewrite Hf by done. cbn. by rewrite fn_lookup_alter_ne.
Qed.

Lemma observe_loop o els : ∀ w,
  let w' := exec (forEach els (λ el, observe o el)) w in
  log w' = log w ++ (Observe o <$> els)
  ∧ dom w' = dom w
  ∧ (∀ n, n ∈ observed w' o ↔ n ∈ els ∨ n ∈ observed w o).
Proof.
  induction els as [|x r IH]; intros w.
  - cbn. rewrite app_nil_r. split_and!; [done | done |].
    intros n. rewrite elem_of_nil. tauto.
  - cbn [forEach]. rewrite exec_seq by done.
    destruct (IH (exec (observe o x) w)) as (Hl & Hd & Ho).
    cbn zeta. rewrite Hl, Hd. split_and!.
    + cbn. by rewrite <- app_assoc.
    + done.
    + intros n. rewrite Ho, elem_of_cons. cbn. rewrite fn_lookup_alter.
      rewrite elem_of_union, elem_of_singleton. tauto.
Qed.

Lemma class_add_loop c els : ∀ w,
  NoDup els →
  let w' := exec (forEach els (λ el, classList_add el c)) w in
  log w' = log w ++ ((λ el, Mutate el (ClassAdd c)) <$> els)
  ∧ (∀ n, n ∈ els → dom w' n = apply_write (ClassAdd c) (dom w n))
  ∧ (∀ n, n ∉ els → dom w' n = dom w n)
  ∧ observed w' = observed w.
Proof.
  induction els as [|x r IH]; intros w Hnd.
  - cbn. rewrite app_nil_r. split_and!; [done | | done | done].
    intros n Hn. by apply elem_of_nil in Hn.
  - apply NoDup_cons in Hnd as [Hx Hnd].
    cbn [forEach]. rewrite exec_seq by done.
    destruct (IH (exec (classList_add x c) w) Hnd) as (Hl & Hin & Hout & Ho).
    cbn zeta. rewrite Hl, Ho. split_and!.
    + cbn. by rewrite <- app_assoc.
    + intros n [->|Hn]%elem_of_cons.
      * rewrite Hout by done. cbn. by rewrite fn_lookup_alter.
      * rewrite Hin by done. cbn. rewrite fn_lookup_alter_ne; [done|].
        intros ->. done.
    + intros n [Hne Hn]%not_elem_of_cons. rewrite Hout by done.
      cbn. by rewrite fn_lookup_alter_ne.
    + done.
Qed.

Lemma listen_loop {A} (l : list A) (t : A → event_target) type (h : A → handler) : ∀ w,
  let w' := exec (forEach l (λ x, addEventListener (t x) type (h x))) w in
  log w' = log w ++ ((λ x, Listen (t x) type (h x)) <$> l) ∧ dom w' = dom w.
Proof.
  induction l as [|x r IH]; intros w.
  - cbn. by rewrite app_nil_r.
  - cbn [forEach]. rewrite exec_seq by done.
    destruct (IH (exec (addEventListener (t x) type (h x)) w)) as (Hl & Hd).
    cbn zeta. rewrite Hl, Hd. cbn. by rewrite <- app_assoc.
Qed.

(** ** Mobile menu *)

Lemma toggle_membership c (X : gset string) :
  bool_decide (c ∈ (if decide (c ∈ X) then X ∖ {[c]} else {[c]} ∪ X))
  = negb (bool_decide (c ∈ X)).
Proof.
  destruct (decide (c ∈ X)) as [Hc|Hc].
  - rewrite (bool_decide_eq_true_2 (c ∈ X)) by done.
    apply bool_decide_eq_false_2. rewrite elem_of_difference, elem_of_singleton. tauto.
  - rewrite (bool_decide_eq_false_2 (c ∈ X)) by done.
    apply bool_decide_eq_true_2. rewrite elem_of_union, elem_of_singleton. tauto.
Qed.

Lemma toggle_click_state toggle menu w :
  menu_state toggle menu (exec (toggle_click toggle menu) w) =
  (Some (String_of_bool (negb (is_open toggle w))),
   is_open toggle w,
   negb (bool_decide ("is-active" ∈ classList (dom w toggle)))).
Proof.
  unfold menu_state, is_open, toggle_click. js_unfold. cbn.
  destruct (decide (menu = toggle)) as [->|Hne]; dom_simpl;
    by rewrite lookup_insert_eq, toggle_membership.
Qed.

Lemma is_open_after_toggle toggle menu w :
  is_open toggle (exec (toggle_click toggle menu) w) = negb (is_open toggle w).
Proof.
  pose proof (f_equal (λ p, p.1.1) (toggle_click_state toggle menu w)) as H.
  cbn beta in H. unfold menu_state in H at 1. cbn [fst] in H.
  unfold is_open at 1. rewrite H.
  by destruct (is_open toggle w).
Qed.

Lemma active_after_toggle toggle menu w :
  bool_decide ("is-active" ∈ classList (dom (exec (toggle_click toggle menu) w) toggle)) =
  negb (bool_decide ("is-active" ∈ classList (dom w toggle))).
Proof. exact (f_equal snd (toggle_click_state toggle menu w)). Qed.

Lemma initMobileMenu_listeners pg w toggle menu :
  head (matching pg (by_class "navbar__toggle") (dom w)) = Some toggle →
  head (matching pg (by_id "mobile-menu") (dom w)) = Some menu →
  let w' := exec (initMobileMenu pg) w in
  log w' = log w
    ++ Listen (OnElement toggle) "click" (ToggleClick toggle menu)
       :: ((λ link, Listen (OnElement link) "click" (MobileLinkClick toggle menu))
             <$> mobile_links pg menu (dom w))
  ∧ dom w' = dom w.
Proof.
  intros Ht Hm w'. unfold w', initMobileMenu, getElementById, querySelector, querySelectorAll_in.
  rewrite !exec_gets, Ht, Hm, exec_seq, exec_gets by done.
  destruct (listen_loop (mobile_links pg menu (dom w)) OnElement "click"
              (λ _, MobileLinkClick toggle menu)
              (exec (addEventListener (OnElement toggle) "click" (ToggleClick toggle menu)) w))
    as (Hl & Hd).
  cbn [dom exec addEventListener modify emit snd] in *.
  unfold mobile_links in *. rewrite Hl, Hd. cbn. by rewrite <- app_assoc.
Qed.

(** C6, as the script has it.  Two clicks on the toggle always restore its
    [is-active] class, leave [aria-expanded] at ["true"] if it was ["true"]
    and at ["false"] otherwise, and leave the menu hidden exactly if
    [aria-expanded] was not ["true"].  So the three values return to their
    original ones if and only if the menu started in a state the handler
    itself produces: [aria-expanded="true"] with the menu shown, or
    [aria-expanded="false"] with the menu hidden. *)
Theorem toggle_twice toggle menu w :
  let w2 := exec (toggle_click toggle menu) (exec (toggle_click toggle menu) w) in
  menu_state toggle menu w2 =
    (Some (String_of_bool (is_open toggle w)),
     negb (is_open toggle w),
     bool_decide ("is-active" ∈ classList (dom w toggle)))
  ∧ (menu_state toggle menu w2 = menu_state toggle menu w ↔
       (attrs (dom w toggle) !! "aria-expanded" = Some "true" ∧ hidden (dom w menu) = false)
     ∨ (attrs (dom w toggle) !! "aria-expanded" = Some "false" ∧ hidden (dom w menu) = true)).
Proof.
  intros w2.
  assert (Hst : menu_state toggle menu w2 =
    (Some (String_of_bool (is_open toggle w)), negb (is_open toggle w),
     bool_decide ("is-active" ∈ classList (dom w toggle)))).
  { unfold w2. rewrite toggle_click_state, is_open_after_toggle, active_after_toggle.
    by rewrite !negb_involutive. }
  split; [exact Hst|].
  rewrite Hst. unfold menu_state, is_open.
  generalize (attrs (dom w toggle) !! "aria-expanded") (hidden (dom w menu))
    (bool_decide ("is-active" ∈ classList (dom w toggle))).
  intros a h act. destruct (decide (a = Some "true")) as [->|Hd].
  - rewrite bool_decide_eq_true_2 by done. cbn. split.
    + intros [= <-]. by left.
    + intros [[_ ->]|[[=] _]]. done.
  - rewrite bool_decide_eq_false_2 by done. cbn. split.
    + intros [= <- <-]. by right.
    + intros [[-> _]|[-> ->]]; done.
Qed.

(** C6 as stated fails: on the demo page the toggle says
    [aria-expanded="false"] while the menu is not hidden; after two clicks
    the menu is hidden. *)
Lemma toggle_twice_counterexample :
  let w2 := exec (toggle_click 0 1) (exec (toggle_click 0 1) demo_world) in
  attrs (dom demo_world 0) !! "aria-expanded" = Some "false"
  ∧ hidden (dom demo_world 1) = false
  ∧ hidden (dom w2 1) = true
  ∧ menu_state 0 1 w2 ≠ menu_state 0 1 demo_world.
Proof.
  split_and!; [vm_compute; reflexivity | reflexivity | vm_compute; reflexivity |].
  intros H. apply (f_equal (λ p, p.1.2)) in H. vm_compute in H. discriminate.
Qed.

(** C7.  Whatever the state before, the handler of a mobile link leaves
    [aria-expanded="false"], the menu hidden and [is-active] absent; and
    initialisation registers that handler on every [.navbar__mobile-link]
    inside the menu. *)
Theorem mobile_link_closes_menu :
  (∀ toggle menu w,
     menu_state toggle menu (exec (mobile_link_click toggle menu) w) = (Some "false", true, false))
  ∧ (∀ pg w toggle menu link,
       head (matching pg (by_class "navbar__toggle") (dom w)) = Some toggle →
       head (matching pg (by_id "mobile-menu") (dom w)) = Some menu →
       link ∈ mobile_links pg menu (dom w) →
       Listen (OnElement link) "click" (MobileLinkClick toggle menu)
         ∈ log (exec (initMobileMenu pg) w)).
Proof.
  split.
  - intros toggle menu w. unfold menu_state, mobile_link_click. js_unfold. cbn.
    destruct (decide (menu = toggle)) as [->|Hne]; dom_simpl;
      rewrite lookup_insert_eq; do 2 f_equal;
      apply bool_decide_eq_false_2; rewrite elem_of_difference, elem_of_singleton; tauto.
  - intros pg w toggle menu link Ht Hm Hlink.
    destruct (initMobileMenu_listeners pg w toggle menu Ht Hm) as [-> _].
    apply elem_of_app. right. apply elem_of_cons. right.
    apply list_elem_of_fmap. eauto.
Qed.

Lemma mobile_link_closes_menu_witness :
  Listen (OnElement 2) "click" (MobileLinkClick 0 1) ∈ log (exec (initMobileMenu demo_page) demo_world)
  ∧ menu_state 0 1 (exec (mobile_link_click 0 1) demo_world) = (Some "false", true, false).
Proof.
  destruct mobile_link_closes_menu as [Hstate Hreg]. split.
  - apply (Hreg demo_page demo_world 0 1 2); [vm_compute; reflexivity | vm_compute; reflexivity |].
    vm_compute. apply list_elem_of_here.
  - apply Hstate.
Defined.

(** ** Smooth scrolling *)








Lemma simple_ident_nonempty name : simple_ident name = true → name ≠ EmptyString.
Proof. by destruct name. Qed.




(** ** Navbar scroll intensity *)

Lemma Qgtb_iff a b : Qgtb a b = true ↔ (b < a)%Q.
Proof.
  unfold Qgtb. rewrite negb_true_iff, <- not_true_iff_false, Qle_bool_iff.
  split; [apply Qnot_le_lt | apply Qlt_not_le].
Qed.

Lemma clamp_unit_cases (v : Q) :
  (v <= 0 ∧ clamp v 0 1 == 0)%Q
  ∨ (0 <= v <= 1 ∧ clamp v 0 1 == v)%Q
  ∨ (1 <= v ∧ clamp v 0 1 == 1)%Q.
Proof.
  unfold clamp, Math_max, Math_min.
  destruct (Q.max_spec 0 (Qmin 1 v)) as [[H1 E1]|[H1 E1]];
    destruct (Q.min_spec 1 v) as [[H2 E2]|[H2 E2]];
    rewrite E1; rewrite E2 in *.
  - right. right. split; [lra | reflexivity].
  - right. left. split; [lra | reflexivity].
  - lra.
  - left. split; [lra | reflexivity].
Qed.

Lemma scroll_fraction (y : Q) : (y / 300 == y * (1 # 300))%Q.
Proof. reflexivity. Qed.

(** C2.  An update at scroll offset [y] sets [--nav-scroll] to
    [clamp(y / 300, 0, 1)], which is 0 at [y = 0], 1 from 300 on and
    strictly between for [51 <= y <= 299], and leaves [navbar--scrolled]
    present exactly when [y > 50]. *)
Theorem navbar_progress navbar w :
  let y := scrollY w in
  let progress := clamp (y / 300) 0 1 in
  let w' := exec (navbar_update navbar) w in
  style (dom w' navbar) !! "--nav-scroll" = Some [Num progress]
  ∧ ("navbar--scrolled" ∈ classList (dom w' navbar) ↔ (50 < y)%Q)
  ∧ (y == 0 → progress == 0)%Q
  ∧ (300 <= y → progress == 1)%Q
  ∧ (51 <= y <= 299 → 0 < progress < 1)%Q
  ∧ (0 <= progress <= 1)%Q.
Proof.
  intros y progress w'.
  assert (Hclass : "navbar--scrolled" ∈ classList (dom w' navbar) ↔ (50 < y)%Q).
  { unfold w', navbar_update. js_unfold. cbn. dom_simpl. fold y.
    rewrite <- Qgtb_iff. destruct (Qgtb y 50).
    - rewrite elem_of_union, elem_of_singleton. tauto.
    - rewrite elem_of_difference, elem_of_singleton. split; [tauto | done]. }
  assert (Hstyle : style (dom w' navbar) !! "--nav-scroll" = Some [Num progress]).
  { unfold w', navbar_update. js_unfold. cbn. dom_simpl. by rewrite lookup_insert_eq. }
  pose proof (scroll_fraction y) as Hfrac.
  destruct (clamp_unit_cases (y / 300)) as [[Hv Hc]|[[Hv Hc]|[Hv Hc]]];
    fold progress in Hc; rewrite Hfrac in Hv;
    (split; [exact Hstyle | split; [exact Hclass |]]);
    rewrite Hc, ?Hfrac; repeat split; intros; lra.
Qed.

Lemma navbar_progress_witness :
  let w := with_scrollY 150 demo_world in
  (0 < clamp (scrollY w / 300) 0 1 < 1)%Q
  ∧ "navbar--scrolled" ∈ classList (dom (exec (navbar_update 3) w) 3).
Proof.
  intros w.
  destruct (navbar_progress 3 w) as (_ & Hclass & _ & _ & Hmid & _). split.
  - apply Hmid. split; vm_compute; discriminate.
  - apply Hclass. vm_compute. reflexivity.
Defined.

(** ** Parallax *)

Lemma blob_speeds :
  blob_speed 0 = 0.03%Q ∧ blob_speed 1 = (-0.02)%Q ∧ blob_speed 2 = 0.015%Q
  ∧ ∀ i, 3 ≤ i → blob_speed i = 0.02%Q.
Proof.
  repeat split. intros i Hi. unfold blob_speed, speeds.
  rewrite lookup_ge_None_2; [done | simpl; lia].
Qed.

Lemma gradient_speeds :
  gradient_speed 0 = 0.018%Q ∧ ∀ i, 1 ≤ i → gradient_speed i = (-0.012)%Q.
Proof. split; [done|]. intros [|i] Hi; [lia | done]. Qed.

Section style_loop.
Variables (prop : string) (value : nat → css_text).

Lemma style_loop_log l : ∀ i0 w,
  log (exec (forEach_from i0 l (λ x i, set_style x prop (value i))) w) =
  log w ++ imap (λ k x, Mutate x (SetStyle prop (value (i0 + k)))) l.
Proof.
  induction l as [|x r IH]; intros i0 w.
  - cbn. by rewrite app_nil_r.
  - cbn [forEach_from]. rewrite exec_seq by done. rewrite IH. cbn.
    rewrite <- app_assoc. cbn. rewrite Nat.add_0_r. do 2 f_equal.
    apply imap_ext. intros k y _. cbn. do 3 f_equal. lia.
Qed.

Lemma style_loop_frame l : ∀ i0 w n,
  n ∉ l → dom (exec (forEach_from i0 l (λ x i, set_style x prop (value i))) w) n = dom w n.
Proof.
  induction l as [|x r IH]; intros i0 w n Hn; [done|].
  apply not_elem_of_cons in Hn as [Hne Hn].
  cbn [forEach_from]. rewrite exec_seq by done. rewrite IH by done.
  cbn. by rewrite fn_lookup_alter_ne.
Qed.

Lemma style_loop_value l : ∀ i0 w k n,
  NoDup l → l !! k = Some n →
  style (dom (exec (forEach_from i0 l (λ x i, set_style x prop (value i))) w) n) !! prop
  = Some (value (i0 + k)).
Proof.
  induction l as [|x r IH]; intros i0 w k n Hnd Hk; [done|].
  apply NoDup_cons in Hnd as [Hx Hnd].
  cbn [forEach_from]. rewrite exec_seq by done.
  destruct k as [|k]; simplify_eq/=.
  - rewrite style_loop_frame by done. cbn.
    rewrite fn_lookup_alter. cbn. by rewrite lookup_insert_eq, Nat.add_0_r.
  - rewrite (IH (S i0) _ k n) by done. do 2 f_equal. lia.
Qed.
End style_loop.

Lemma parallax_update_spec blobs bgGradients w :
  let y := scrollY w in
  let w' := exec (parallax_update blobs bgGradients) w in
  log w' = log w
    ++ imap (λ i b, Mutate b (SetStyle "transform" (translate3d_y (y * blob_speed i)))) blobs
    ++ imap (λ i g, Mutate g (SetStyle "transform" (translate3d_y (y * gradient_speed i))))
         bgGradients
  ∧ (∀ i g, NoDup bgGradients → bgGradients !! i = Some g →
       style (dom w' g) !! "transform" = Some (translate3d_y (y * gradient_speed i)))
  ∧ (∀ i b, NoDup blobs → blobs !! i = Some b → b ∉ bgGradients →
       style (dom w' b) !! "transform" = Some (translate3d_y (y * blob_speed i))).
Proof.
  intros y w'.
  assert (Hw' : w' = exec (forEach_from 0 bgGradients
            (λ g i, set_style g "transform" (translate3d_y (y * gradient_speed i))))
          (exec (forEach_from 0 blobs
            (λ b i, set_style b "transform" (translate3d_y (y * blob_speed i)))) w)).
  { unfold w', parallax_update, forEach_i. rewrite exec_gets. fold y.
    rewrite exec_seq; [done|].
    apply never_throws_forEach_from. intros. apply never_throws_mutate. }
  split; [|split].
  - rewrite Hw'.
    rewrite (style_loop_log "transform" (λ i, translate3d_y (y * gradient_speed i))).
    rewrite (style_loop_log "transform" (λ i, translate3d_y (y * blob_speed i))).
    by rewrite <- app_assoc.
  - intros i g Hnd Hi. rewrite Hw'.
    by rewrite (style_loop_value "transform" (λ i, translate3d_y (y * gradient_speed i))
              bgGradients 0 _ i g).
  - intros i b Hnd Hi Hb. rewrite Hw'.
    rewrite (style_loop_frame "transform" (λ i, translate3d_y (y * gradient_speed i)))
      by done.
    by rewrite (style_loop_value "transform" (λ i, translate3d_y (y * blob_speed i))
              blobs 0 _ i b).
Qed.

(** C8.  One parallax update at scroll offset [y] writes, in order, to the
    blob at each index [i] the transform [translate3d(0,] [y] times the
    factor of [i] [px,0)], with the factors 0.03, -0.02 and 0.015 for the
    indices 0 to 2 and 0.02 beyond, and then to the gradient at each index
    [i] the transform with the factor 0.018 (positive) for index 0 and
    -0.012 (negative) for every later one.  These are the final transforms
    of the gradients, and of every blob that is not also a gradient. *)
Theorem parallax_translation blobs bgGradients w :
  let y := scrollY w in
  let w' := exec (parallax_update blobs bgGradients) w in
  let translated (v : Q) : css_text := [Lit "translate3d(0,"; Num v; Lit "px,0)"] in
  let blob_factor (i : nat) : Q :=
    match i with 0 => 0.03%Q | 1 => (-0.02)%Q | 2 => 0.015%Q | _ => 0.02%Q end in
  let gradient_factor (i : nat) : Q :=
    match i with 0 => 0.018%Q | _ => (-0.012)%Q end in
  log w' = log w
    ++ imap (λ i b, Mutate b (SetStyle "transform" (translated (y * blob_factor i)%Q))) blobs
    ++ imap (λ i g, Mutate g (SetStyle "transform" (translated (y * gradient_factor i)%Q)))
         bgGradients
  ∧ (∀ i g, NoDup bgGradients → bgGradients !! i = Some g →
       style (dom w' g) !! "transform" = Some (translated (y * gradient_factor i)%Q))
  ∧ (∀ i b, NoDup blobs → blobs !! i = Some b → b ∉ bgGradients →
       style (dom w' b) !! "transform" = Some (translated (y * blob_factor i)%Q))
  ∧ blob_speed 0 = 0.03%Q ∧ blob_speed 1 = (-0.02)%Q ∧ blob_speed 2 = 0.015%Q
  ∧ (∀ i, 3 ≤ i → blob_speed i = 0.02%Q)
  ∧ gradient_speed 0 = 0.018%Q ∧ (0 < 0.018)%Q
  ∧ (∀ i, 1 ≤ i → gradient_speed i = (-0.012)%Q) ∧ (-0.012 < 0)%Q.
Proof.
  intros y w' translated blob_factor gradient_factor.
  assert (Hb : ∀ i, translate3d_y (y * blob_speed i) = translated (y * blob_factor i)%Q).
  { intros i. by do 3 (destruct i as [|i]; [done|]). }
  assert (Hg : ∀ i, translate3d_y (y * gradient_speed i) = translated (y * gradient_factor i)%Q).
  { intros i. by destruct i. }
  destruct (parallax_update_spec blobs bgGradients w) as (Hlog & Hgrad & Hblob).
  fold y w' in Hlog, Hgrad, Hblob.
  split; [|split; [|split]].
  - rewrite Hlog. f_equal. f_equal.
    + apply imap_ext. intros i b _. cbn beta. by rewrite Hb.
    + apply imap_ext. intros i g _. cbn beta. by rewrite Hg.
  - intros i g Hnd Hi. rewrite <- Hg. by apply Hgrad.
  - intros i b Hnd Hi Hn. rewrite <- Hb. by apply Hblob.
  - pose proof blob_speeds as (?&?&?&?). pose proof gradient_speeds as (?&?).
    repeat split; done.
Qed.

Lemma parallax_translation_witness :
  let w' := exec (parallax_update [10; 11; 12; 13] [20; 21]) (with_scrollY 100 demo_world) in
  style (dom w' 13) !! "transform"
    = Some [Lit "translate3d(0,"; Num (100 * 0.02); Lit "px,0)"]
  ∧ style (dom w' 21) !! "transform"
    = Some [Lit "translate3d(0,"; Num (100 * -0.012); Lit "px,0)"].
Proof.
  intros w'.
  destruct (parallax_translation [10; 11; 12; 13] [20; 21] (with_scrollY 100 demo_world))
    as (_ & Hgrad & Hblob & _).
  split.
  - apply (Hblob 3 13); [by_compute | reflexivity | by_compute].
  - apply (Hgrad 1 21); [by_compute | reflexivity].
Defined.

(** ** One-shot observers *)

Section one_shot_theory.
Variables (o : observer) (action : node → JS unit) (act : element → list write).
Hypothesis action_spec : ∀ n w, action n w = replay n (act (dom w n)) w.

Lemma one_shot_step_never_throws e : never_throws (one_shot_step o action e).
Proof.
  unfold one_shot_step. destruct (isIntersecting e); [|done].
  intros w. unfold exec, mbind, JS_bind. rewrite action_spec.
  by rewrite replay_never_throws.
Qed.

Lemma one_shot_never_throws es : never_throws (one_shot o action es).
Proof. apply never_throws_forEach. intros e. apply one_shot_step_never_throws. Qed.

Lemma one_shot_step_spec e w :
  isIntersecting e = true →
  let t := target e in
  let w' := exec (one_shot_step o action e) w in
  log w' = log w ++ (Mutate t <$> act (dom w t)) ++ [Unobserve o t]
  ∧ dom w' t = apply_writes (dom w t) (act (dom w t))
  ∧ (∀ m, m ≠ t → dom w' m = dom w m)
  ∧ observed w' o = observed w o ∖ {[t]}.
Proof.
  intros Hi t w'. unfold w', one_shot_step. rewrite Hi.
  assert (exec (action (target e) ;; unobserve o (target e)) w =
          exec (unobserve o t) (exec (replay t (act (dom w t))) w)) as ->.
  { unfold exec at 1 3, mbind, JS_bind. by rewrite action_spec, replay_never_throws. }
  destruct (replay_spec t (act (dom w t)) w) as (Hl & Hd & Hf & Ho).
  revert Hl Hd Hf Ho. generalize (exec (replay t (act (dom w t))) w). intros w1 Hl Hd Hf Ho.
  cbn. rewrite Hl, Hd, Ho. rewrite fn_lookup_alter.
  repeat split; [by rewrite <- app_assoc | done].
Qed.

(** One batch: a target gets the action's writes once for every entry that
    reports it intersecting, and leaves the observer with the first. *)
Lemma one_shot_batch es : ∀ w n,
  let w' := exec (one_shot o action es) w in
  let r := reports_in n es in
  writes_to n (log w') = writes_to n (log w) ++ repeated_writes act r (dom w n)
  ∧ dom w' n = repeated act r (dom w n)
  ∧ (n ∈ observed w' o ↔ n ∈ observed w o ∧ r = 0).
Proof.
  induction es as [|e es IH]; intros w n.
  - cbn. rewrite app_nil_r. split_and!; [done | done | tauto].
  - cbn [one_shot forEach]. fold (one_shot_step o action e). fold (one_shot o action es).
    rewrite exec_seq by apply one_shot_step_never_throws.
    specialize (IH (exec (one_shot_step o action e) w) n). cbn zeta in IH.
    destruct IH as (IHl & IHd & IHo).
    cbn zeta. rewrite reports_in_cons.
    destruct (isIntersecting e) eqn:Hi.
    + destruct (one_shot_step_spec e w Hi) as (Hl & Hd & Hf & Ho).
      destruct (decide (target e = n)) as [<-|Hne].
      * rewrite bool_decide_eq_true_2 by done. cbn [andb plus repeated_writes repeated].
        rewrite IHl, IHd, IHo, Hl, Hd, Ho.
        rewrite !writes_to_app, writes_to_mutate_eq. cbn [writes_to omap]. rewrite app_nil_r.
        split_and!; [by rewrite <- app_assoc | done |].
        rewrite elem_of_difference, elem_of_singleton. split; [tauto | intros [_ ?]; lia].
      * rewrite bool_decide_eq_false_2 by done. cbn [andb plus].
        rewrite IHl, IHd, IHo, Hl, Ho, !writes_to_app, writes_to_mutate_ne by done.
        rewrite (Hf n) by done. cbn [writes_to omap app]. rewrite app_nil_r.
        split_and!; [done | done |].
        rewrite elem_of_difference, elem_of_singleton. split; [tauto|].
        intros [? ?]. split_and!; [done | congruence | done].
    + rewrite andb_false_r. cbn [plus].
      assert (exec (one_shot_step o action e) w = w) as Hw
        by (unfold one_shot_step; by rewrite Hi).
      rewrite Hw in *. done.
Qed.

Variable cb : list entry → JS unit.
Hypothesis cb_eq : ∀ es w, cb es w = one_shot o action es w.

(** Over a whole execution: a target is reported intersecting in at most
    one batch, and only while observed; it gets the action's writes once
    for every such report, and is observed no longer after the first. *)
Lemma one_shot_run w0 batches w :
  deliveries o cb w0 batches w →
  ∀ n, let r := reports n batches in
  notified n batches ≤ 1
  ∧ (r ≠ 0 → n ∈ observed w0 o)
  ∧ writes_to n (log w) = writes_to n (log w0) ++ repeated_writes act r (dom w0 n)
  ∧ dom w n = repeated act r (dom w0 n)
  ∧ (n ∈ observed w o ↔ n ∈ observed w0 o ∧ r = 0).
Proof.
  induction 1 as [w|w es w1 bs w2 (Hne & Hsub) Hcb Hrun IH]; intros n.
  - cbn. rewrite app_nil_r. split_and!; [lia | done | done | done | tauto].
  - rewrite cb_eq, one_shot_never_throws in Hcb. injection Hcb as <-.
    destruct (one_shot_batch es w n) as (Bl & Bd & Bo).
    destruct (IH n) as (Ir & Iin & Il & Id & Io). clear IH. cbn zeta.
    rewrite reports_cons, notified_cons.
    assert (reports_in n es ≠ 0 → n ∈ observed w o) as Hobs.
    { intros Hr. apply reports_in_present in Hr.
      apply list_elem_of_fmap in Hr as (e & -> & He). by apply Hsub. }
    destruct (reports n bs) as [|r2] eqn:E2.
    + rewrite Nat.add_0_r, (notified_none n bs E2), Il, Id, Io.
      cbn [repeated_writes repeated]. rewrite app_nil_r.
      split_and!; [destruct (reports_in n es =? 0); lia | done | done | done | tauto].
    + assert (n ∈ observed (exec (one_shot o action es) w) o) as Hin by (apply Iin; lia).
      apply Bo in Hin as [Hin Hr1]. rewrite Hr1 in *. cbn [plus Nat.eqb].
      cbn [repeated_writes repeated] in Bl, Bd. rewrite app_nil_r in Bl.
      rewrite Il, Id, Io, Bl, Bd.
      split_and!; [lia | done | done | done | split; [tauto | intros [_ ?]; lia]].
Qed.
End one_shot_theory.


(** ** Section reveal *)










(** ** Lazy images *)

Lemma lazy_action_spec n w : lazy_action n w = replay n (lazy_writes (dom w n)) w.
Proof. done. Qed.

Lemma lazy_callback_one_shot es w : lazy_callback es w = one_shot LazyObs lazy_action es w.
Proof.
  revert w. induction es as [|e es IH]; intros w; [done|].
  cbn [lazy_callback one_shot forEach] in *.
  unfold mbind at 1 5, JS_bind.
  destruct (isIntersecting e); cbn; apply IH.
Qed.

Lemma initLazyImages_spec pg d y :
  let w1 := exec (initLazyImages pg) (initial_world d y) in
  let images := matching pg (class_has_attr "project-card__image" "data-src") d in
  dom w1 = d
  ∧ (∀ n, writes_to n (log w1) = [])
  ∧ (∀ n, n ∈ observed w1 LazyObs ↔ n ∈ images)
  ∧ (images ≠ [] →
       log w1 = NewObserver LazyObs LazyCb (ObserverInit 0 "200px")
                  :: (Observe LazyObs <$> images)).
Proof.
  intros w1 images. unfold w1, initLazyImages, querySelectorAll. rewrite exec_gets.
  cbn [dom initial_world]. fold images.
  destruct images as [|i r] eqn:E.
  - cbn. split_and!; [done | done | | done].
    intros n. rewrite elem_of_empty, elem_of_nil. tauto.
  - cbn [length Nat.eqb]. rewrite exec_seq by done.
    set (w0 := exec (newIntersectionObserver _ _ _) _).
    destruct (observe_loop LazyObs (i :: r) w0) as (Hl & Hd & Ho).
    rewrite Hl, Hd. split_and!; [done | | | done].
    + intros n.
      apply (writes_to_new_observer n LazyObs LazyCb (ObserverInit 0 "200px") LazyObs (i :: r)).
    + intros n. rewrite Ho. cbn. rewrite fn_lookup_insert, elem_of_empty. tauto.
Qed.

Lemma repeated_lazy_no_data_src k e :
  k ≠ 0 → attrs (repeated lazy_writes k e) !! "data-src" = None.
Proof.
  revert e. induction k as [|k IH]; intros e Hk; [done|].
  cbn [repeated].
  destruct k as [|k]; [|by apply IH].
  cbn. destruct (reflects_src (tagName e)); cbn; by rewrite lookup_delete_eq.
Qed.

(** C4, as the script has it.  Initialisation observes, with a 200px root
    margin, exactly the elements matching [.project-card__image[data-src]].
    In every execution an element is reported intersecting in at most one
    notification of the observer (possibly in none), and only while it is
    observed.  Once it has been reported it is one of those elements, has
    no [data-src] and is no longer observed.  When it has been reported
    once, the writes it received are exactly [src := v], with [v] the value
    its [data-src] held, followed by the removal of [data-src]; the [src]
    attribute of an [img] is then [v], and that of an element whose [src]
    property is no attribute (a [div], say) is as the markup had it.  An
    element not reported yet is untouched, and an element without
    [data-src] is never written to. *)
Theorem lazy_load_once pg d y :
  let images := matching pg (class_has_attr "project-card__image" "data-src") d in
  let w1 := exec (initLazyImages pg) (initial_world d y) in
  (images ≠ [] →
     log w1 = NewObserver LazyObs LazyCb (ObserverInit 0 "200px")
                :: (Observe LazyObs <$> images))
  ∧ ∀ batches w,
      deliveries LazyObs lazy_callback w1 batches w →
      ∀ img,
        notified img batches ≤ 1
        ∧ writes_to img (log w) = repeated_writes lazy_writes (reports img batches) (d img)
        ∧ (reports img batches ≠ 0 →
             img ∈ images
             ∧ is_Some (attrs (d img) !! "data-src")
             ∧ attrs (dom w img) !! "data-src" = None
             ∧ (img ∉ observed w LazyObs))
        ∧ (reports img batches = 1 →
             ∃ v, attrs (d img) !! "data-src" = Some v
                  ∧ writes_to img (log w) = [SetSrc v; RemoveAttribute "data-src"]
                  ∧ (tagName (d img) = "img" → attrs (dom w img) !! "src" = Some v)
                  ∧ (tagName (d img) = "div" →
                       attrs (dom w img) !! "src" = attrs (d img) !! "src")
                  ∧ attrs (dom w img) !! "src" =
                      (if reflects_src (tagName (d img)) then Some v
                       else attrs (d img) !! "src"))
        ∧ (reports img batches = 0 →
             writes_to img (log w) = [] ∧ dom w img = d img
             ∧ (img ∈ observed w LazyObs ↔ img ∈ images))
        ∧ (attrs (d img) !! "data-src" = None →
             writes_to img (log w) = [] ∧ dom w img = d img).
Proof.
  intros images w1.
  destruct (initLazyImages_spec pg d y) as (Hd & Hw1 & Ho & Hl).
  fold w1 images in Hd, Hw1, Ho, Hl.
  split; [done|]. intros batches w Hrun img.
  destruct (one_shot_run LazyObs lazy_action lazy_writes lazy_action_spec
              lazy_callback lazy_callback_one_shot w1 batches w Hrun img)
    as (Hr & Hin & Hw & Hdom & Hobs).
  rewrite Hw1 in Hw. cbn [app] in Hw. rewrite Hd in Hw, Hdom. rewrite Ho in Hin, Hobs.
  assert (Himg : reports img batches ≠ 0 → ∃ v, attrs (d img) !! "data-src" = Some v).
  { intros Hne. apply Hin, elem_of_matching in Hne as [_ Hsel].
    unfold class_has_attr in Hsel. apply andb_true_iff in Hsel as [_ Hsel].
    apply bool_decide_eq_true in Hsel as [v Hv]. eauto. }
  assert (Hzero : reports img batches = 0 →
            writes_to img (log w) = [] ∧ dom w img = d img
            ∧ (img ∈ observed w LazyObs ↔ img ∈ images)).
  { intros Hz. rewrite Hz in *. split_and!; [done | done | tauto]. }
  split_and!; [done | done | | | done |].
  - intros Hne. split_and!.
    + by apply Hin.
    + destruct (Himg Hne) as [v Hv]. by exists v.
    + rewrite Hdom. by apply repeated_lazy_no_data_src.
    + intros Hin'. by apply Hobs in Hin' as [_ ?].
  - intros Hone. destruct Himg as [v Hv]; [lia|]. exists v.
    rewrite Hone in *. unfold lazy_writes in *. cbn in Hw, Hdom.
    rewrite Hv in Hw, Hdom. cbn in Hw, Hdom.
    assert (attrs (dom w img) !! "src" =
              (if reflects_src (tagName (d img)) then Some v else attrs (d img) !! "src"))
      as Hsrc.
    { rewrite Hdom. destruct (reflects_src (tagName (d img))); cbn.
      - rewrite lookup_delete_ne by done. by rewrite lookup_insert_eq.
      - by rewrite lookup_delete_ne. }
    split_and!; [done | done | | | done].
    + intros Htag. by rewrite Hsrc, Htag.
    + intros Htag. by rewrite Hsrc, Htag.
  - intros Hnone.
    destruct (decide (reports img batches = 0)) as [Hz|Hne].
    + by destruct (Hzero Hz) as (? & ? & _).
    + destruct (Himg Hne) as [v Hv]. congruence.
Qed.

Lemma lazy_load_once_witness :
  ∃ w, deliveries LazyObs lazy_callback (exec (initLazyImages demo_page) demo_world)
         [[Entry 6 true]] w
       ∧ writes_to 6 (log w) = [SetSrc "shot.png"; RemoveAttribute "data-src"]
       ∧ attrs (dom w 6) !! "src" = Some "shot.png"
       ∧ writes_to 7 (log w) = [].
Proof.
  set (w1 := exec (initLazyImages demo_page) demo_world).
  set (w2 := exec (lazy_callback [Entry 6 true]) w1).
  assert (Hrun : deliveries LazyObs lazy_callback w1 [[Entry 6 true]] w2).
  { apply (deliveries_cons _ _ w1 _ w2); [|reflexivity|apply deliveries_nil].
    split; [discriminate|].
    intros e He. apply list_elem_of_singleton in He as ->. by_compute. }
  exists w2. split; [exact Hrun|].
  destruct (lazy_load_once demo_page demo_dom 0) as [_ Hspec].
  destruct (Hspec _ _ Hrun 6) as (_ & _ & _ & Hyes & _).
  destruct (Hspec _ _ Hrun 7) as (_ & _ & _ & _ & _ & Hno).
  destruct Hyes as (v & Hv & Hw & Hsrc & _); [vm_compute; reflexivity|].
  assert (v = "shot.png") as -> by (vm_compute in Hv; congruence).
  split_and!; [exact Hw | by apply Hsrc | apply Hno; vm_compute; reflexivity].
Defined.

(** C4 as stated fails where it says "exactly once".  An image the
    observer never reports intersecting is never loaded: on the demo page,
    after a first notification that reports image 6 as not intersecting,
    the image has received no write, has no [src] and still has its
    [data-src].  And one notification can report an image more than once:
    after a first notification that reports image 6 as intersecting, then
    not, then intersecting again, its [src] has been assigned twice, the
    second time the text ["undefined"]. *)
Lemma lazy_load_counterexample :
  let w1 := exec (initLazyImages demo_page) demo_world in
  let w2 := exec (lazy_callback [Entry 6 false]) w1 in
  let batch := [Entry 6 true; Entry 6 false; Entry 6 true] in
  let w3 := exec (lazy_callback batch) w1 in
  6 ∈ matching demo_page (class_has_attr "project-card__image" "data-src") demo_dom
  ∧ (deliveries LazyObs lazy_callback w1 [[Entry 6 false]] w2
     ∧ writes_to 6 (log w2) = []
     ∧ attrs (dom w2 6) !! "src" = None
     ∧ attrs (dom w2 6) !! "data-src" = Some "shot.png")
  ∧ (deliveries LazyObs lazy_callback w1 [batch] w3
     ∧ writes_to 6 (log w3) =
         [SetSrc "shot.png"; RemoveAttribute "data-src";
          SetSrc "undefined"; RemoveAttribute "data-src"]
     ∧ attrs (dom w3 6) !! "src" = Some "undefined").
Proof.
  intros w1 w2 batch w3. split_and!.
  - by_compute.
  - apply (deliveries_cons _ _ w1 _ w2); [|reflexivity|apply deliveries_nil].
    split; [discriminate|].
    intros e He. apply list_elem_of_singleton in He as ->. by_compute.
  - vm_compute. reflexivity.
  - vm_compute. reflexivity.
  - vm_compute. reflexivity.
  - apply (deliveries_cons _ _ w1 _ w3); [|reflexivity|apply deliveries_nil].
    split; [discriminate|].
    intros e He. repeat (apply elem_of_cons in He as [->|He]; [by_compute|]).
    by apply elem_of_nil in He.
  - vm_compute. reflexivity.
  - vm_compute. reflexivity.
Qed.

(** ** Typing effect *)

Lemma trimStart_length s : length (trimStart s) ≤ length s.
Proof. induction s as [|c r IH]; cbn; [lia|]. destruct (is_white c); cbn; lia. Qed.

Lemma trim_length s : length (trim s) ≤ length s.
Proof.
  unfold trim, trimEnd. rewrite length_reverse.
  etrans; [apply trimStart_length|]. rewrite length_reverse. apply trimStart_length.
Qed.

Lemma trim_leading_white c s : is_white c = true → trim (c :: s) = trim s.
Proof. intros H. unfold trim. cbn. by rewrite H. Qed.

Lemma trim_not_verbatim c s : is_white c = true → trim (c :: s) ≠ c :: s.
Proof.
  intros H E. pose proof (trim_length s) as Hl.
  rewrite trim_leading_white in E by done. rewrite E in Hl. cbn in Hl. lia.
Qed.

Lemma take_charAt (s : jsstring) k : k < length s → take k s ++ charAt s k = take (S k) s.
Proof.
  intros Hlt. destruct (lookup_lt_is_Some_2 s k Hlt) as [c Hc].
  unfold charAt. rewrite Hc. symmetry. by apply take_S_r.
Qed.

(** *** The timetable *)

Lemma typed_by_before M e : (e < 600)%Z → typed_by M e = 0.
Proof. intros. unfold typed_by, startup_delay. destruct (Z.ltb_spec e 600); [done|lia]. Qed.

Lemma typed_by_during M e k :
  1 ≤ k ≤ M → (600 + 42 * (Z.of_nat k - 1) <= e < 600 + 42 * Z.of_nat k)%Z →
  typed_by M e = k.
Proof.
  intros Hk He. unfold typed_by, startup_delay, type_speed.
  destruct (Z.ltb_spec e 600); [lia|].
  assert ((e - 600) / 42 = Z.of_nat k - 1)%Z as -> by (Z.div_mod_to_equations; lia).
  lia.
Qed.

Lemma typed_by_after M e :
  (600 + 42 * (Z.of_nat M - 1) <= e)%Z → typed_by M e = M.
Proof.
  intros He. unfold typed_by, startup_delay, type_speed.
  destruct (Z.ltb_spec e 600).
  - destruct M; [done | lia].
  - apply Nat.min_l.
    assert (Z.of_nat M - 1 <= (e - 600) / 42)%Z by (apply Z.div_le_lower_bound; lia).
    lia.
Qed.

Lemma cursor_classes C :
  "typing-active" ∈ typing_classes C
  ∧ ("typing-active" ∉ done_classes C)
  ∧ "typing-done" ∈ done_classes C.
Proof.
  unfold done_classes, typing_classes. split_and!.
  - rewrite elem_of_union, elem_of_singleton. by left.
  - rewrite elem_of_union, elem_of_difference, !elem_of_singleton. intros [[=]|[_ []]]. done.
  - rewrite elem_of_union, elem_of_singleton. by left.
Qed.


(** *** The event loop on one pending timer *)

Lemma elapse_none fuel T w :
  timers w = [] → elapse fuel T w = Some (with_clock (Z.max (clock w) T) w).
Proof. intros H. destruct fuel; cbn; by rewrite H. Qed.

Lemma elapse_idle fuel T w due j :
  timers w = [Timer due j] → (T < due)%Z →
  elapse fuel T w = Some (with_clock (Z.max (clock w) T) w).
Proof.
  intros H Hlt. destruct fuel; cbn; rewrite H; cbn;
    destruct (Z.leb_spec due T); (lia || done).
Qed.

Lemma elapse_fire fuel T w due j :
  timers w = [Timer due j] → (due <= T)%Z →
  elapse (S fuel) T w =
  elapse fuel T (exec (run_task j) (with_clock (Z.max (clock w) due) (with_timers [] w))).
Proof.
  intros H Hle. cbn. rewrite H. cbn. destruct (Z.leb_spec due T); [done | lia].
Qed.

Lemma type_more el full w :
  charIndex w < length full →
  exec (type el full) w =
  with_timers (timers w ++ [Timer (clock w + 42) (TypeTick el full)])
    (with_charIndex (S (charIndex w))
       (exec (set_textContent el (textContent (dom w el) ++ charAt full (charIndex w))) w)).
Proof.
  intros Hlt. unfold type. rewrite exec_gets.
  destruct (Nat.ltb_spec (charIndex w) (length full)); [done | lia].
Qed.

Lemma type_end el full w :
  length full ≤ charIndex w →
  exec (type el full) w = with_timers (timers w ++ [Timer (clock w + 2200) (TypingDone el)]) w.
Proof.
  intros Hlt. unfold type. rewrite exec_gets.
  destruct (Nat.ltb_spec (charIndex w) (length full)); [lia | done].
Qed.

Section typing_timeline.
Variables (el : node) (full : jsstring) (t0 : Z) (C : gset string).

(** From the moment the text is complete: the class swap is the one
    pending timer. *)
Lemma typing_dwell fuel T w :
  timers w = [Timer (t0 + done_at (length full)) (TypingDone el)] →
  textContent (dom w el) = full →
  classList (dom w el) = C →
  (t0 + 600 + 42 * Z.of_nat (length full) <= clock w <= T)%Z →
  1 ≤ fuel →
  ∃ w', elapse fuel T w = Some w' ∧ typing_result el full t0 C T w'.
Proof.
  intros Ht Htext Hcl Hclock Hfuel.
  assert (typed_by (length full) (T - t0) = length full) as HM
    by (apply typed_by_after; lia).
  destruct (Z.lt_ge_cases T (t0 + done_at (length full))) as [Hlt|Hge].
  - eexists. split; [by eapply elapse_idle|].
    unfold typing_result. cbn. rewrite HM, Htext, Hcl, take_ge by done.
    destruct (Z.ltb_spec (T - t0) (done_at (length full))); [|lia].
    split_and!; [lia | done | done].
  - destruct fuel as [|fuel]; [lia|].
    erewrite elapse_fire by done. cbn [run_task].
    eexists. split; [by apply elapse_none|].
    unfold typing_result, typing_done. js_unfold. cbn. dom_simpl.
    rewrite HM, Htext, Hcl, take_ge by done.
    destruct (Z.ltb_spec (T - t0) (done_at (length full))); [lia|].
    unfold done_at, startup_delay, type_speed, dwell in *.
    split_and!; [lia | done | done].
Qed.

(** From any state between two ticks, by induction on the characters
    still to be typed. *)
Lemma typing_progress n : ∀ k w fuel T,
  length full - k = n → typing_at el full t0 C k w → (clock w <= T)%Z → n + 2 ≤ fuel →
  ∃ w', elapse fuel T w = Some w' ∧ typing_result el full t0 C T w'.
Proof.
  induction n as [|n IH];
    intros k w fuel T Hn [(due & Ht & Hdue) Hi Hle Htext Hcl Hhi [Hlo1 Hlo2]] HT Hfuel.
  - assert (k = length full) as -> by lia.
    destruct (Z.lt_ge_cases T due) as [Hlt|Hge].
    + eexists. split; [by eapply elapse_idle|].
      unfold typing_result. cbn. rewrite Htext, Hcl.
      destruct (Z.ltb_spec (T - t0) (done_at (length full)));
        [|unfold done_at, startup_delay, type_speed, dwell in *; lia].
      split_and!; [lia | | done]. f_equal. symmetry.
      destruct (decide (length full = 0)) as [HM0|HM0].
      * rewrite HM0 in *. apply typed_by_before. lia.
      * assert (1 ≤ length full) as H1 by lia. specialize (Hlo2 H1).
        apply typed_by_during; lia.
    + destruct fuel as [|fuel]; [lia|].
      erewrite elapse_fire by done. cbn [run_task].
      rewrite type_end by (cbn; lia).
      apply typing_dwell; cbn; [| | done | lia | lia].
      * do 2 f_equal. unfold done_at, startup_delay, type_speed, dwell. lia.
      * rewrite Htext. by apply take_ge.
  - destruct (Z.lt_ge_cases T due) as [Hlt|Hge].
    + eexists. split; [by eapply elapse_idle|].
      unfold typing_result. cbn. rewrite Htext, Hcl.
      destruct (Z.ltb_spec (T - t0) (done_at (length full)));
        [|unfold done_at, startup_delay, type_speed, dwell in *; lia].
      split_and!; [lia | | done]. f_equal. symmetry.
      destruct (decide (k = 0)) as [Hk0|Hk0].
      * rewrite Hk0 in *. apply typed_by_before. lia.
      * assert (1 ≤ k) as H1 by lia. specialize (Hlo2 H1).
        apply typed_by_during; lia.
    + destruct fuel as [|fuel]; [lia|].
      erewrite elapse_fire by done. cbn [run_task].
      assert (k < length full) as Hlt by lia.
      rewrite type_more by (cbn; lia).
      apply (IH (S k)); [lia | | cbn; lia | lia].
      split; cbn -[charAt take].
      * eexists. split; [done|]. lia.
      * by rewrite Hi.
      * lia.
      * rewrite fn_lookup_alter. cbn -[charAt take].
        rewrite Htext, Hi. by apply take_charAt.
      * by dom_simpl.
      * lia.
      * split; [lia|]. intros _. lia.
Qed.
End typing_timeline.

Lemma initTyping_found pg d y el :
  head (matching pg (by_class "hero__tagline") d) = Some el →
  let w1 := exec (initTyping pg true) (initial_world d y) in
  let fullText := trim (textContent (d el)) in
  timers w1 = [] ∧ clock w1 = 0%Z ∧ charIndex w1 = 0
  ∧ textContent (dom w1 el) = []
  ∧ classList (dom w1 el) = typing_classes (classList (d el))
  ∧ (∀ n, n ≠ el → dom w1 n = d n)
  ∧ ∃ hero, observed w1 TypingObs = {[hero]} ∪ ∅
      ∧ log w1 = [Mutate el (SetTextContent []); Mutate el (ClassAdd "typing-active");
                  NewObserver TypingObs (TypingCb el fullText) (ObserverInit 0.3 "0px");
                  Observe TypingObs hero].
Proof.
  intros Hel w1 fullText. unfold w1, initTyping, querySelector. cbn [negb].
  rewrite exec_gets. cbn [dom initial_world]. rewrite Hel.
  unfold closest. js_unfold. cbn.
  split_and!; try done.
  - by dom_simpl.
  - by dom_simpl.
  - intros n Hn. by dom_simpl.
  - eexists. split; [by rewrite fn_lookup_alter, fn_lookup_insert|done].
Qed.

(** The whole scenario, in closed form. *)
Lemma typing_timeline pg d y el e0 rest t0 T :
  head (matching pg (by_class "hero__tagline") d) = Some el →
  isIntersecting e0 = true →
  (0 <= t0 <= T)%Z →
  let fullText := trim (textContent (d el)) in
  ∃ w, typing_scenario pg d y el (e0 :: rest) t0 T = Some w
       ∧ typing_result el fullText t0 (typing_classes (classList (d el))) T w.
Proof.
  intros Hel Hi Ht fullText.
  destruct (initTyping_found pg d y el Hel) as (Htm & Hck & Hci & Htx & Hcl & _ & _).
  unfold typing_scenario. fold fullText.
  revert Htm Hck Hci Htx Hcl.
  generalize (exec (initTyping pg true) (initial_world d y)). intros w1 Htm Hck Hci Htx Hcl.
  rewrite elapse_none by done. cbn [mbind option_bind].
  unfold typing_callback. rewrite Hi.
  apply (typing_progress el fullText t0 _ (length fullText) 0);
    [lia | | js_unfold; cbn; lia | lia].
  js_unfold. split; cbn.
  - rewrite Htm, Hck. eexists. split; [done|]. lia.
  - done.
  - lia.
  - done.
  - done.
  - lia.
  - split; [lia|]. intros. lia.
Qed.

Lemma typing_never_started el full w1 occs w :
  typing_run el full w1 occs w →
  never_intersecting occs →
  timers w1 = [] →
  timers w = [] ∧ dom w = dom w1 ∧ log w = log w1 ∧ observed w = observed w1.
Proof.
  induction 1 as [w|w es w1 occs w2 (Hne & _) Hcb Hrun IH|w fuel T w1 occs w2 Hel Hrun IH];
    intros Hnever Htm.
  - done.
  - destruct es as [|e0 es]; [done|].
    assert (isIntersecting e0 = false) as Hi.
    { apply (Hnever (e0 :: es)); apply elem_of_cons; auto. }
    unfold typing_callback in Hcb. rewrite Hi in Hcb. injection Hcb as <-.
    apply IH; [|done].
    intros es' e Hin He. apply (Hnever es'); [|done]. apply elem_of_cons; auto.
  - rewrite elapse_none in Hel by done. injection Hel as <-.
    destruct IH as (? & ? & ? & ?); [|done|done].
    intros es' e Hin He. apply (Hnever es'); [|done]. apply elem_of_cons; auto.
Qed.




(** C10.  With motion allowed and a tagline present, initialisation
    itself empties the tagline's text and adds [typing-active] (these are
    its only writes).  As long as the hero is never reported intersecting,
    whatever batches arrive and however much time passes, the text stays
    empty, [typing-active] stays, no timer is pending and nothing further
    is done.  Once it is reported, the text typed is the trimmed original,
    which differs from the original whenever that starts with white
    space. *)
Theorem typing_startup pg d y el :
  head (matching pg (by_class "hero__tagline") d) = Some el →
  let original := textContent (d el) in
  let fullText := trim original in
  let w1 := exec (initTyping pg true) (initial_world d y) in
  (textContent (dom w1 el) = [] ∧ "typing-active" ∈ classList (dom w1 el))
  ∧ (∀ occs w, typing_run el fullText w1 occs w → never_intersecting occs →
       textContent (dom w el) = [] ∧ "typing-active" ∈ classList (dom w el)
       ∧ timers w = [] ∧ log w = log w1)
  ∧ (∀ wr, Mutate el wr ∈ log w1 → wr = SetTextContent [] ∨ wr = ClassAdd "typing-active")
  ∧ (∀ e0 rest t0 T, isIntersecting e0 = true → (0 <= t0)%Z →
       (t0 + startup_delay + type_speed * Z.of_nat (length fullText) <= T)%Z →
       ∃ w, typing_scenario pg d y el (e0 :: rest) t0 T = Some w
            ∧ textContent (dom w el) = fullText)
  ∧ (∀ c s, original = c :: s → is_white c = true → fullText ≠ original).
Proof.
  intros Hel original fullText w1.
  destruct (initTyping_found pg d y el Hel)
    as (Htm & Hck & Hci & Htx & Hcl & Hother & hero & Hobs & Hlog).
  fold w1 original fullText in Htm, Hck, Hci, Htx, Hcl, Hother, Hobs, Hlog.
  pose proof (cursor_classes (classList (d el))) as (Ha & _ & _).
  split; [|split; [|split; [|split]]].
  - split; [exact Htx|]. rewrite Hcl. exact Ha.
  - intros occs w Hrun Hnever.
    destruct (typing_never_started el fullText w1 occs w Hrun Hnever Htm)
      as (Htw & Hd & Hlw & _).
    rewrite Hd, Hcl. split_and!; [exact Htx | exact Ha | exact Htw | exact Hlw].
  - intros wr. rewrite Hlog. rewrite !elem_of_cons, elem_of_nil.
    intros [H|[H|[H|[H|[]]]]]; simplify_eq; auto.
  - intros e0 rest t0 T Hi Ht0 HT.
    destruct (typing_timeline pg d y el e0 rest t0 T Hel Hi) as (w & Hw & _ & Htext & _).
    { unfold startup_delay, type_speed in HT. lia. }
    exists w. split; [done|]. fold original fullText in Htext.
    rewrite Htext, typed_by_after; [by apply take_ge|].
    unfold startup_delay, type_speed in HT. lia.
  - intros c s Ho Hc. unfold fullText. rewrite Ho. by apply trim_not_verbatim.
Qed.

Lemma typing_startup_witness :
  let w1 := exec (initTyping demo_page true) demo_world in
  textContent (dom w1 4) = []
  ∧ "typing-active" ∈ classList (dom w1 4)
  ∧ trim (textContent (demo_dom 4)) ≠ textContent (demo_dom 4)
  ∧ ∃ w, typing_run 4 (trim (textContent (demo_dom 4))) w1
           [Wait 5000; Notify [Entry 3 false]; Wait 60000] w
         ∧ textContent (dom w 4) = [] ∧ timers w = [].
Proof.
  intros w1.
  assert (head (matching demo_page (by_class "hero__tagline") demo_dom) = Some 4) as Hel
    by (vm_compute; reflexivity).
  destruct (typing_startup demo_page demo_dom 0 4 Hel) as ([Htext Hactive] & Hidle & _ & _ & Htrim).
  split_and!; [exact Htext | exact Hactive | |].
  - apply (Htrim 32%N [72; 105]%N); reflexivity.
  - set (w2 := with_clock 5000 w1). set (w3 := with_clock 60000 w2).
    assert (Hrun : typing_run 4 (trim (textContent (demo_dom 4))) w1
                     [Wait 5000; Notify [Entry 3 false]; Wait 60000] w3).
    { apply (typing_run_wait _ _ w1 0 5000 w2); [reflexivity|].
      apply (typing_run_notify _ _ w2 _ w2); [|reflexivity|].
      - split; [discriminate|].
        intros e He. apply list_elem_of_singleton in He as ->. by_compute.
      - apply (typing_run_wait _ _ w2 0 60000 w3); [reflexivity|apply typing_run_nil]. }
    exists w3. split; [exact Hrun|].
    destruct (Hidle _ w3 Hrun) as (Ht & _ & Htm & _); [|by split].
    intros entries e Hin He.
    apply elem_of_cons in Hin as [[=]|Hin].
    apply elem_of_cons in Hin as [[= ->]|Hin].
    + apply list_elem_of_singleton in He as ->. reflexivity.
    + apply list_elem_of_singleton in Hin. discriminate.
Defined.

(** ** Behaviours whose elements are missing *)

Lemma unchanged_is_silent w :
  dom w = dom w ∧ timers w = timers w
  ∧ (∃ l, log w = log w ++ l ∧ Forall inert l)
  ∧ (∀ o n, n ∈ observed w o → n ∈ observed w o).
Proof. split_and!; [done | done | | done]. exists []. by rewrite app_nil_r. Qed.

(** C9.  For each of the eleven behaviours: when the document holds no
    element of the kind the behaviour looks for, initialising it completes
    normally, leaves every element and every timer as they were and adds
    to the log nothing that touches an element or the console (no DOM
    write, no listener, no observed target, no console output).  Ten of
    them leave the whole state unchanged; the reveal behaviour with motion
    allowed constructs its observer, which observes nothing.  Nothing is
    assumed about what the other behaviours look for. *)
Theorem absent_elements_no_op b pg motionOK w :
  finds_nothing b pg (dom w) →
  ∃ w', init b pg motionOK w = (Normal tt, w')
    ∧ dom w' = dom w
    ∧ timers w' = timers w
    ∧ (∃ l, log w' = log w ++ l ∧ Forall inert l)
    ∧ (∀ o n, n ∈ observed w' o → n ∈ observed w o)
    ∧ (b ≠ Reveal ∨ motionOK = false → w' = w).
Proof.
  intros Hnone.
  assert (Hsame : init b pg motionOK w = (Normal tt, w) →
    ∃ w', init b pg motionOK w = (Normal tt, w') ∧ dom w' = dom w ∧ timers w' = timers w
      ∧ (∃ l, log w' = log w ++ l ∧ Forall inert l)
      ∧ (∀ o n, n ∈ observed w' o → n ∈ observed w o)
      ∧ (b ≠ Reveal ∨ motionOK = false → w' = w)).
  { intros ->. exists w. destruct (unchanged_is_silent w) as (? & ? & ? & ?).
    split_and!; done. }
  destruct b; cbn [finds_nothing init] in *.
  - (* mobile menu *)
    apply Hsame. unfold initMobileMenu, getElementById, querySelector. js_unfold.
    destruct Hnone as [-> | ->]; [done|].
    by destruct (head _).
  - (* smooth scroll *)
    apply Hsame. unfold initSmoothScroll, querySelectorAll. js_unfold. by rewrite Hnone.
  - (* active nav *)
    apply Hsame. unfold initActiveNav, querySelectorAll. js_unfold.
    destruct Hnone as [-> | ->]; [done|]. cbn. by rewrite orb_true_r.
  - (* navbar *)
    apply Hsame. unfold initNavbarScroll, querySelector. js_unfold. by rewrite Hnone.
  - (* reveal *)
    destruct motionOK.
    + eexists. unfold initReveal, querySelectorAll. js_unfold. cbn. rewrite Hnone. cbn.
      split_and!; [done | done | done | | | ].
      * eexists. split; [done|]. by repeat constructor.
      * intros o n. cbn. destruct (decide (RevealObs = o)) as [<-|Hne].
        -- rewrite fn_lookup_insert. intros []%not_elem_of_empty.
        -- by rewrite fn_lookup_insert_ne.
      * intros [[]|[=]]. done.
    + apply Hsame. unfold initReveal, querySelectorAll. js_unfold. cbn. by rewrite Hnone.
  - (* parallax *)
    apply Hsame. unfold initParallax, querySelectorAll. js_unfold.
    destruct motionOK; [|done]. cbn. by destruct Hnone as [-> ->].
  - (* typing *)
    apply Hsame. unfold initTyping, querySelector. js_unfold.
    destruct motionOK; [|done]. cbn. by rewrite Hnone.
  - (* ripple *)
    apply Hsame. unfold initRipple, querySelectorAll. js_unfold.
    destruct motionOK; [|done]. cbn. by rewrite Hnone.
  - (* tilt *)
    apply Hsame. unfold initTilt, querySelectorAll. js_unfold.
    destruct motionOK; [|done]. cbn. by rewrite Hnone.
  - (* magnetic *)
    apply Hsame. unfold initMagnetic, querySelectorAll. js_unfold.
    destruct motionOK; [|done]. cbn. by rewrite Hnone.
  - (* lazy images *)
    apply Hsame. unfold initLazyImages, querySelectorAll. js_unfold. by rewrite Hnone.
Qed.

Lemma absent_elements_no_op_witness :
  init Tilt demo_page true demo_world = (Normal tt, demo_world)
  ∧ init Parallax demo_page true demo_world = (Normal tt, demo_world).
Proof.
  split.
  - destruct (absent_elements_no_op Tilt demo_page true demo_world)
      as (w' & Hinit & _ & _ & _ & _ & Hsame); [vm_compute; reflexivity|].
    rewrite Hinit, Hsame; [reflexivity | left; discriminate].
  - destruct (absent_elements_no_op Parallax demo_page true demo_world)
      as (w' & Hinit & _ & _ & _ & _ & Hsame); [vm_compute; split; reflexivity|].
    rewrite Hinit, Hsame; [reflexivity | left; discriminate].
Defined.

(** * Further properties

    What the script shows beyond the statements above: its helpers, its
    handlers over sequences of events, and the script as a whole. *)

(** ** Helpers of the proofs *)

Lemma never_throws_gets {A} (f : world → A) (k : A → JS unit) :
  (∀ a, never_throws (k a)) → never_throws (x ← gets f; k x).
Proof. intros Hk w. apply (Hk (f w) w). Qed.

Lemma exec_forEach_app {A} (l1 l2 : list A) f w :
  (∀ x, never_throws (f x)) →
  exec (forEach (l1 ++ l2) f) w = exec (forEach l2 f) (exec (forEach l1 f) w).
Proof.
  intros Hf. revert w. induction l1 as [|x r IH]; intros w; [done|].
  cbn [app forEach]. rewrite !exec_seq by done. apply IH.
Qed.

Lemma class_force_twice c a b e :
  apply_write (ClassForce c b) (apply_write (ClassForce c a) e) = apply_write (ClassForce c b) e.
Proof.
  destruct e as [t at' X tx h s]. destruct a, b; cbn; f_equal;
    apply set_eq; intros x; set_unfold; destruct (decide (x = c)); tauto.
Qed.

Lemma last_cons_default {A} (x : A) l : last (x :: l) = Some (default x (last l)).
Proof. rewrite last_cons. by destruct (last l). Qed.

(** ** [clamp] *)

Lemma clamp_cases (val min max : Q) :
  (min <= max →
     (val <= min ∧ clamp val min max == min)
     ∨ (min <= val <= max ∧ clamp val min max == val)
     ∨ (max <= val ∧ clamp val min max == max))%Q.
Proof.
  intros Hmm. unfold clamp, Math_max, Math_min.
  destruct (Q.max_spec min (Qmin max val)) as [[H1 E1]|[H1 E1]];
    destruct (Q.min_spec max val) as [[H2 E2]|[H2 E2]];
    rewrite E1; rewrite E2 in *.
  - right. right. split; [lra | reflexivity].
  - right. left. split; [lra | reflexivity].
  - right. right. split; lra.
  - left. split; [lra | reflexivity].
Qed.

Lemma clamp_monotone (v v' min max : Q) :
  (min <= max → v <= v' → clamp v min max <= clamp v' min max)%Q.
Proof.
  intros H Hv.
  destruct (clamp_cases v min max H) as [[? ->]|[[? ->]|[? ->]]];
    destruct (clamp_cases v' min max H) as [[? ->]|[[? ->]|[? ->]]]; lra.
Qed.

(** X1.  [clamp] with any bounds.  When [min <= max] the result lies
    between the bounds; it is [val] itself when [val] lies between them,
    [min] when [val] is at or below [min] and [max] when [val] is at or
    above [max]; clamping a second time changes nothing, and a larger
    [val] never gives a smaller result.  When the bounds are the wrong way
    round ([max < min]) the result is [min], whatever [val] is. *)
Theorem clamp_spec (val min max : Q) :
  ((min <= max → min <= clamp val min max <= max)
   ∧ (min <= val <= max → clamp val min max == val)
   ∧ (min <= max → val <= min → clamp val min max == min)
   ∧ (min <= max → max <= val → clamp val min max == max)
   ∧ (max < min → clamp val min max == min)
   ∧ (min <= max → clamp (clamp val min max) min max == clamp val min max)
   ∧ (∀ val', min <= max → val <= val' → clamp val min max <= clamp val' min max))%Q.
Proof.
  split_and!.
  - intros H. destruct (clamp_cases val min max H) as [[? ->]|[[? ->]|[? ->]]]; lra.
  - intros H. assert (min <= max)%Q as Hmm by lra.
    destruct (clamp_cases val min max Hmm) as [[? ->]|[[? ->]|[? ->]]]; lra.
  - intros H Hv. destruct (clamp_cases val min max H) as [[? ->]|[[? ->]|[? ->]]]; lra.
  - intros H Hv. destruct (clamp_cases val min max H) as [[? ->]|[[? ->]|[? ->]]]; lra.
  - intros H. unfold clamp, Math_max, Math_min.
    destruct (Q.max_spec min (Qmin max val)) as [[H1 E1]|[H1 E1]];
      destruct (Q.min_spec max val) as [[H2 E2]|[H2 E2]];
      rewrite E1; rewrite E2 in *; lra.
  - intros H.
    destruct (clamp_cases val min max H) as [[? E]|[[? E]|[? E]]];
      destruct (clamp_cases (clamp val min max) min max H) as [[? ->]|[[? ->]|[? ->]]]; lra.
  - intros val' H Hv.
    destruct (clamp_cases val min max H) as [[? ->]|[[? ->]|[? ->]]];
      destruct (clamp_cases val' min max H) as [[? ->]|[[? ->]|[? ->]]]; lra.
Qed.

(** ** The event loop of cancellable timers *)

Lemma next_slot_none ss : next_slot ss = None → ss = [].
Proof.
  destruct ss as [|a r]; [done|]. cbn.
  destruct (next_slot r) as [[m r']|]; [|done]. by destruct (_ <=? _)%Z.
Qed.

Lemma next_slot_spec ss : ∀ s rest,
  next_slot ss = Some (s, rest) →
  (∀ x, x ∈ ss ↔ x = s ∨ x ∈ rest)
  ∧ length ss = S (length rest)
  ∧ (∀ x, x ∈ ss → (fires_at s <= fires_at x)%Z).
Proof.
  induction ss as [|a r IH]; intros s rest H; [done|].
  cbn in H. destruct (next_slot r) as [[m r']|] eqn:E.
  - destruct (IH m r' eq_refl) as (Hin & Hlen & Hmin).
    destruct (Z.leb_spec (fires_at a) (fires_at m)); simplify_eq.
    + split_and!; [intros x; by rewrite elem_of_cons | done |].
      intros x [->|Hx]%elem_of_cons; [lia|]. specialize (Hmin x Hx). lia.
    + split_and!.
      * intros x. rewrite !elem_of_cons, Hin. tauto.
      * cbn. lia.
      * intros x [->|Hx]%elem_of_cons; [lia|]. by apply Hmin.
  - simplify_eq. apply next_slot_none in E as ->.
    split_and!; [intros x; by rewrite elem_of_cons | done |].
    intros x [->|Hx]%elem_of_cons; [lia|]. by apply elem_of_nil in Hx.
Qed.

Lemma advance_step fuel T b s rest :
  next_slot (pending b) = Some (s, rest) → (fires_at s <= T)%Z →
  advance (S fuel) T b = advance fuel T (fire s rest b).
Proof.
  intros H Hle. cbn. rewrite H. by rewrite (proj2 (Z.leb_le _ _)) by done.
Qed.

Lemma advance_stop fuel T b :
  (∀ s rest, next_slot (pending b) = Some (s, rest) → (T < fires_at s)%Z) →
  advance fuel T b = on_page (λ w, with_clock (Z.max (clock w) T) w) b.
Proof.
  intros H. destruct fuel; cbn; [by destruct (next_slot (pending b)) as [[??]|]|].
  destruct (next_slot (pending b)) as [[s rest]|] eqn:E; [|done].
  by rewrite (proj2 (Z.leb_gt _ _)) by by eapply H.
Qed.

(** What holds of a state and is kept by every firing holds, after the
    final move of the clock, when time has passed. *)
Lemma advance_inv (P Q : browser → Prop) T :
  (∀ b s rest, P b → next_slot (pending b) = Some (s, rest) → (fires_at s <= T)%Z →
               P (fire s rest b)) →
  (∀ b, P b → Q (on_page (λ w, with_clock (Z.max (clock w) T) w) b)) →
  ∀ fuel b, P b → Q (advance fuel T b).
Proof.
  intros Hfire Hend. induction fuel as [|fuel IH]; intros b HP.
  - cbn. destruct (next_slot (pending b)) as [[??]|]; by apply Hend.
  - destruct (next_slot (pending b)) as [[s rest]|] eqn:E.
    + destruct (Z.le_gt_cases (fires_at s) T) as [Hle|Hgt].
      * rewrite (advance_step _ _ _ s rest) by done. apply IH. by eapply Hfire.
      * rewrite advance_stop; [by apply Hend|]. intros s' rest' E'. simplify_eq. lia.
    + rewrite advance_stop; [by apply Hend|]. intros s' rest' E'. simplify_eq.
Qed.

(** Every slot due by [T] has fired. *)
Lemma run_until_done T b s : s ∈ pending (run_until T b) → (T < fires_at s)%Z.
Proof.
  unfold run_until.
  assert (∀ fuel b, length (pending b) ≤ fuel →
            ∀ s, s ∈ pending (advance fuel T b) → (T < fires_at s)%Z) as H.
  { clear. induction fuel as [|fuel IH]; intros b Hlen s.
    - destruct (pending b) eqn:E; [|cbn in Hlen; lia].
      rewrite advance_stop by (intros ? ?; by rewrite E).
      cbn. rewrite E. intros Hs. by apply elem_of_nil in Hs.
    - destruct (next_slot (pending b)) as [[m rest]|] eqn:E.
      + destruct (next_slot_spec _ _ _ E) as (Hin & Hl & Hmin).
        destruct (Z.le_gt_cases (fires_at m) T) as [Hle|Hgt].
        * rewrite (advance_step _ _ _ m rest) by done. apply IH. cbn. lia.
        * rewrite advance_stop; [|intros s' rest' E'; simplify_eq; lia].
          cbn. intros Hs. specialize (Hmin s Hs). lia.
      + apply next_slot_none in E. rewrite advance_stop by (intros ? ?; by rewrite E).
        cbn. rewrite E. intros Hs. by apply elem_of_nil in Hs. }
  by apply H.
Qed.

Lemma run_until_quiet T b :
  pending b = [] → run_until T b = on_page (λ w, with_clock (Z.max (clock w) T) w) b.
Proof. intros H. unfold run_until. by rewrite H. Qed.

Lemma run_until_early T b h due j :
  pending b = [Slot h due j] → (T < due)%Z →
  run_until T b = on_page (λ w, with_clock (Z.max (clock w) T) w) b.
Proof.
  intros H Hlt. unfold run_until. rewrite H. cbn. rewrite H. cbn.
  by rewrite (proj2 (Z.leb_gt due T)) by lia.
Qed.

Lemma run_until_fire T b h due j :
  pending b = [Slot h due j] → (due <= T)%Z →
  run_until T b =
  let w' := exec j (with_clock (Z.max (clock (page_of b)) due) (page_of b)) in
  Browser (with_clock (Z.max (clock w') T) w') [] (next_handle b).
Proof.
  intros H Hle. unfold run_until. rewrite H. cbn. rewrite H. cbn.
  by rewrite (proj2 (Z.leb_le due T)) by lia.
Qed.

Lemma debounce_quiet {A} (fn : A → JS unit) wait a timer b :
  pending b = [] →
  debounce fn wait a timer b =
  (Some (next_handle b),
   Browser (page_of b) [Slot (next_handle b) (clock (page_of b) + wait) (fn a)]
           (S (next_handle b))).
Proof.
  intros H. unfold debounce, set_timeout, clear_timeout.
  destruct timer; cbn; by rewrite H.
Qed.

Lemma debounce_armed {A} (fn : A → JS unit) wait a b h due j :
  pending b = [Slot h due j] →
  debounce fn wait a (Some h) b =
  (Some (next_handle b),
   Browser (page_of b) [Slot (next_handle b) (clock (page_of b) + wait) (fn a)]
           (S (next_handle b))).
Proof.
  intros H. unfold debounce, set_timeout, clear_timeout. cbn. rewrite H. cbn.
  by rewrite Nat.eqb_refl.
Qed.

(** ** [debounce] *)

Section debounce_theory.
Context {A : Type} (fn : A → JS unit) (wait : Z).

Lemma calls_cons c r st : calls fn wait (c :: r) st = calls fn wait r (call_at fn wait c st).
Proof. reflexivity. Qed.

Lemma call_at_eq t a timer b :
  call_at fn wait (t, a) (timer, b) = debounce fn wait a timer (run_until t b).
Proof. reflexivity. Qed.

Lemma burst_state rest : ∀ t a h w0 nh,
  rapid wait t (rest.*1) →
  ∃ h' nh',
    calls fn wait rest (Some h, Browser (with_clock t w0) [Slot h (t + wait) (fn a)] nh)
    = (Some h',
       Browser (with_clock (default (t, a) (last rest)).1 w0)
               [Slot h' ((default (t, a) (last rest)).1 + wait)
                        (fn (default (t, a) (last rest)).2)]
               nh').
Proof.
  induction rest as [|[t2 a2] r IH]; intros t a h w0 nh Hr.
  - by exists h, nh.
  - destruct Hr as [Ht Hr]. cbn [fmap list_fmap fst] in Ht.
    rewrite calls_cons, call_at_eq.
    erewrite run_until_early; [|reflexivity|lia].
    unfold on_page. cbn [page_of pending next_handle clock with_clock].
    erewrite debounce_armed by reflexivity.
    cbn [page_of pending next_handle clock with_clock].
    rewrite Z.max_r by lia.
    destruct (IH t2 a2 nh w0 (S nh) Hr) as (h' & nh' & E).
    exists h', nh'. rewrite last_cons_default. cbn [default]. exact E.
Qed.

End debounce_theory.

(** X2.  [debounce] over a burst of calls.  Let nothing be pending, and
    let the debounced function be called at [t1] and then again and again,
    each call less than [wait] ms after the one before, the last one at
    time [t] with arguments [a].  Then until [t + wait] the page is as it
    was before the burst, only later: [fn] has not run.  Once [t + wait]
    is reached, [fn] has run exactly once, at [t + wait] and with the last
    call's arguments [a]; the earlier calls are dropped, and nothing is
    pending any more, so the next burst starts as this one did. *)
Theorem debounce_burst {A} (fn : A → JS unit) wait timer b0 t1 a1 rest :
  pending b0 = [] →
  (0 <= wait)%Z →
  (clock (page_of b0) <= t1)%Z →
  rapid wait t1 (rest.*1) →
  let last_call := default (t1, a1) (last rest) in
  let st := calls fn wait ((t1, a1) :: rest) (timer, b0) in
  (∀ T, (last_call.1 <= T < last_call.1 + wait)%Z →
        page_of (run_until T st.2) = with_clock T (page_of b0))
  ∧ (∀ T, (last_call.1 + wait <= T)%Z →
        let w' := exec (fn last_call.2) (with_clock (last_call.1 + wait) (page_of b0)) in
        page_of (run_until T st.2) = with_clock (Z.max (clock w') T) w'
        ∧ pending (run_until T st.2) = []).
Proof.
  intros Hq Hwait Hclock Hrapid last_call st.
  assert (∃ h nh, st = (Some h, Browser (with_clock last_call.1 (page_of b0))
                                  [Slot h (last_call.1 + wait) (fn last_call.2)] nh))
    as (h & nh & Est).
  { unfold st. rewrite calls_cons, call_at_eq.
    rewrite run_until_quiet by done.
    rewrite debounce_quiet by done.
    unfold on_page. cbn [page_of pending next_handle clock with_clock].
    rewrite Z.max_r by lia.
    destruct (burst_state fn wait rest t1 a1 (next_handle b0) (page_of b0)
                (S (next_handle b0)) Hrapid) as (h & nh & E).
    by exists h, nh. }
  rewrite Est. cbn [snd]. split.
  - intros T HT. erewrite run_until_early; [|reflexivity|lia].
    unfold on_page. cbn [page_of clock with_clock]. by rewrite Z.max_r by lia.
  - intros T HT. erewrite run_until_fire; [|reflexivity|exact HT].
    cbn [page_of pending clock with_clock].
    by rewrite (Z.max_r last_call.1 (last_call.1 + wait)) by lia.
Qed.

Lemma debounce_burst_witness :
  let fn := λ c : string, classList_add 0 c in
  let st := calls fn 8 [(0, "a"); (5, "b"); (9, "c")]%Z (None, Browser demo_world [] 0) in
  classList (dom (page_of (run_until 16 st.2)) 0) = classList (demo_dom 0)
  ∧ classList (dom (page_of (run_until 17 st.2)) 0) = {["c"]} ∪ classList (demo_dom 0).
Proof.
  intros fn st.
  destruct (debounce_burst fn 8 None (Browser demo_world [] 0) 0 "a" [(5, "b"); (9, "c")]%Z)
    as [Hbefore Hafter]; [reflexivity | lia | cbn; lia | cbn; lia |].
  fold st in Hbefore, Hafter. split.
  - rewrite (Hbefore 16%Z) by (cbn; lia). reflexivity.
  - destruct (Hafter 17%Z) as [-> _]; [cbn; lia|]. reflexivity.
Defined.

(** ** Mobile menu: sequences of clicks *)

Lemma mobile_link_click_state toggle menu w :
  menu_state toggle menu (exec (mobile_link_click toggle menu) w) = (Some "false", true, false).
Proof.
  unfold menu_state, mobile_link_click. js_unfold. cbn.
  destruct (decide (menu = toggle)) as [->|Hne]; dom_simpl;
    rewrite lookup_insert_eq; do 2 f_equal;
    apply bool_decide_eq_false_2; rewrite elem_of_difference, elem_of_singleton; tauto.
Qed.

Lemma menu_handler_state toggle menu c w :
  menu_state toggle menu (exec (menu_handler toggle menu c) w) =
  (Some (String_of_bool (menu_step (is_open toggle w) c)),
   negb (menu_step (is_open toggle w) c),
   menu_step (is_active toggle w) c).
Proof.
  destruct c; cbn [menu_handler menu_step].
  - rewrite toggle_click_state. by rewrite negb_involutive.
  - by rewrite mobile_link_click_state.
Qed.

Lemma menu_handler_frame toggle menu c w n :
  n ≠ toggle → n ≠ menu → dom (exec (menu_handler toggle menu c) w) n = dom w n.
Proof.
  intros H1 H2. destruct c; unfold menu_handler, toggle_click, mobile_link_click;
    js_unfold; cbn; by dom_simpl.
Qed.

Lemma menu_handler_open toggle menu c w :
  is_open toggle (exec (menu_handler toggle menu c) w) = menu_step (is_open toggle w) c.
Proof.
  pose proof (f_equal (λ p, p.1.1) (menu_handler_state toggle menu c w)) as H.
  cbn beta in H. unfold menu_state in H at 1. cbn [fst] in H.
  unfold is_open at 1. rewrite H.
  by destruct (menu_step (is_open toggle w) c).
Qed.

Lemma menu_handler_active toggle menu c w :
  is_active toggle (exec (menu_handler toggle menu c) w) = menu_step (is_active toggle w) c.
Proof. exact (f_equal snd (menu_handler_state toggle menu c w)). Qed.

Lemma menu_handler_consistent toggle menu c w :
  menu_consistent toggle menu (exec (menu_handler toggle menu c) w).
Proof.
  pose proof (menu_handler_state toggle menu c w) as H.
  unfold menu_state in H. injection H as Ha Hh _.
  unfold menu_consistent. rewrite Ha, Hh.
  destruct (menu_step (is_open toggle w) c); cbn; tauto.
Qed.

Lemma menu_clicks_snoc toggle menu cs c w :
  menu_clicks toggle menu (cs ++ [c]) w =
  exec (menu_handler toggle menu c) (menu_clicks toggle menu cs w).
Proof. unfold menu_clicks. by rewrite foldl_app. Qed.

Lemma menu_clicks_cons toggle menu c cs w :
  menu_clicks toggle menu (c :: cs) w =
  menu_clicks toggle menu cs (exec (menu_handler toggle menu c) w).
Proof. reflexivity. Qed.

Lemma menu_step_sync cs : ∀ a b,
  a = b ∨ ClickLink ∈ cs → foldl menu_step a cs = foldl menu_step b cs.
Proof.
  induction cs as [|c cs IH]; intros a b [H|H]; cbn.
  - done.
  - by apply elem_of_nil in H.
  - by subst.
  - apply elem_of_cons in H as [<-|H]; apply IH; [by left | by right].
Qed.

(** X3.  The mobile menu over any sequence of clicks on the toggle and
    on links of the menu.  What the toggle handler reads as open, and
    whether the toggle carries [is-active], each follow the two-state
    machine in which a toggle click flips and a link click closes; after
    at least one click [aria-expanded] and [hidden] agree, whatever the
    markup said; once [is-active] and the open state agree, or a link has
    been clicked, they agree from then on; and no element other than the
    toggle and the menu is touched. *)
Theorem menu_clicks_spec toggle menu cs w :
  let w' := menu_clicks toggle menu cs w in
  is_open toggle w' = foldl menu_step (is_open toggle w) cs
  ∧ is_active toggle w' = foldl menu_step (is_active toggle w) cs
  ∧ (cs ≠ [] → menu_consistent toggle menu w')
  ∧ (is_active toggle w = is_open toggle w ∨ ClickLink ∈ cs →
       is_active toggle w' = is_open toggle w')
  ∧ (∀ n, n ≠ toggle → n ≠ menu → dom w' n = dom w n).
Proof.
  cbn zeta.
  assert (is_open toggle (menu_clicks toggle menu cs w) = foldl menu_step (is_open toggle w) cs
          ∧ is_active toggle (menu_clicks toggle menu cs w)
            = foldl menu_step (is_active toggle w) cs) as [Ho Ha].
  { revert w. induction cs as [|c cs IH]; intros w; [done|].
    rewrite menu_clicks_cons. cbn [foldl].
    destruct (IH (exec (menu_handler toggle menu c) w)) as [-> ->].
    by rewrite menu_handler_open, menu_handler_active. }
  split; [done|]. split; [done|]. split; [|split].
  - destruct cs as [|c cs _] using rev_ind; [done|]. intros _.
    rewrite menu_clicks_snoc. apply menu_handler_consistent.
  - intros H. rewrite Ho, Ha. by apply menu_step_sync.
  - clear Ho Ha. revert w. induction cs as [|c cs IH]; intros w n H1 H2; [done|].
    rewrite menu_clicks_cons, IH by done. by apply menu_handler_frame.
Qed.

(** ** Active navigation link *)

Lemma mark_loop frag l : ∀ w,
  let w' := exec (forEach l (mark_link frag)) w in
  (∀ n, dom w' n =
        if decide (n ∈ l)
        then apply_write
               (ClassForce "is-active" (bool_decide (attrs (dom w n) !! "href" = Some frag)))
               (dom w n)
        else dom w n)
  ∧ observed w' = observed w ∧ timers w' = timers w.
Proof.
  induction l as [|x r IH]; intros w.
  - cbn. split; [|done]. intros n. by rewrite decide_False by apply not_elem_of_nil.
  - cbn [forEach]. rewrite exec_seq by done.
    set (w1 := exec (mark_link frag x) w).
    destruct (IH w1) as (Hd & Ho & Ht). cbn zeta. rewrite Ho, Ht. split; [|done].
    intros n. rewrite Hd.
    assert (∀ m, attrs (dom w1 m) = attrs (dom w m)) as Hattrs.
    { intros m. unfold w1, mark_link. js_unfold. cbn.
      destruct (decide (m = x)) as [->|]; by dom_simpl. }
    rewrite Hattrs.
    assert (dom w1 x = apply_write
              (ClassForce "is-active" (bool_decide (attrs (dom w x) !! "href" = Some frag)))
              (dom w x)) as Hx.
    { unfold w1, mark_link. js_unfold. cbn. by dom_simpl. }
    assert (∀ m, m ≠ x → dom w1 m = dom w m) as Hne.
    { intros m Hm. unfold w1, mark_link. js_unfold. cbn. by dom_simpl. }
    destruct (decide (n = x)) as [->|Hn].
    + rewrite (decide_True (P := x ∈ x :: r)) by apply list_elem_of_here.
      destruct (decide (x ∈ r)); rewrite Hx; [apply class_force_twice | done].
    + rewrite Hne by done.
      destruct (decide (n ∈ r)) as [Hr|Hr].
      * rewrite decide_True; [done | by apply elem_of_cons; right].
      * rewrite decide_False; [done | rewrite elem_of_cons; tauto].
Qed.

Lemma last_intersecting_cons e r :
  last_intersecting (e :: r) =
  if isIntersecting e
  then Some (default e (last_intersecting r))
  else last_intersecting r.
Proof.
  unfold last_intersecting. cbn [List.filter].
  destruct (isIntersecting e); [|done].
  destruct (List.filter isIntersecting r) as [|x l] eqn:E; [done|].
  rewrite last_cons. by destruct (last (x :: l)) eqn:E'.
Qed.

Lemma active_nav_callback_spec navLinks entries : ∀ w,
  let w' := exec (active_nav_callback navLinks entries) w in
  match last_intersecting entries with
  | None => w' = w
  | Some e =>
      ∀ n, dom w' n =
           if decide (n ∈ navLinks)
           then apply_write
                  (ClassForce "is-active"
                     (bool_decide (attrs (dom w n) !! "href"
                                   = Some (fragment_of (dom w) (target e)))))
                  (dom w n)
           else dom w n
  end
  ∧ observed w' = observed w ∧ timers w' = timers w.
Proof.
  induction entries as [|e r IH]; intros w; [done|].
  unfold active_nav_callback. cbn [forEach]. fold (active_nav_callback navLinks r).
  rewrite last_intersecting_cons.
  destruct (isIntersecting e) eqn:Ei.
  - rewrite exec_seq by (apply never_throws_gets; intros a; by apply never_throws_forEach).
    set (w1 := exec _ w).
    destruct (mark_loop (fragment_of (dom w) (target e)) navLinks w) as (Hd1 & Ho1 & Ht1).
    change (exec (forEach navLinks (mark_link (fragment_of (dom w) (target e)))) w)
      with w1 in Hd1, Ho1, Ht1.
    assert (∀ m, attrs (dom w1 m) = attrs (dom w m)) as Hattrs.
    { intros m. rewrite Hd1. by destruct (decide (m ∈ navLinks)). }
    destruct (IH w1) as (Hd & Ho & Ht). cbn zeta. rewrite Ho, Ht.
    split; [|done].
    destruct (last_intersecting r) as [e'|]; cbn [default].
    + intros n. rewrite Hd. unfold fragment_of. rewrite !Hattrs, Hd1.
      destruct (decide (n ∈ navLinks)); [apply class_force_twice | done].
    + rewrite Hd. exact Hd1.
  - rewrite exec_seq by done. apply IH.
Qed.

Lemma never_throws_active_nav_entry navLinks e :
  never_throws
    (if isIntersecting e then
       id ← getAttribute (target e) "id";
       forEach navLinks (λ link,
         href ← getAttribute link "href";
         classList_toggle_force link "is-active"
           (bool_decide (href = Some ("#" +:+ default "null" id))))
     else mret tt).
Proof.
  destruct (isIntersecting e); [|done].
  apply never_throws_gets. intros a. by apply never_throws_forEach.
Qed.

Lemma active_nav_run navLinks w0 batches w :
  deliveries ActiveNavObs (active_nav_callback navLinks) w0 batches w →
  w = exec (active_nav_callback navLinks (concat batches)) w0
  ∧ ∀ e, e ∈ concat batches → target e ∈ observed w0 ActiveNavObs.
Proof.
  induction 1 as [w|w es w1 bs w2 (_ & Hsub) Hcb _ [IH1 IH2]]; [split; [done|]|].
  - intros e He. by apply elem_of_nil in He.
  - apply (f_equal snd) in Hcb. cbn [snd] in Hcb. subst w1.
    destruct (active_nav_callback_spec navLinks es w) as (_ & Ho & _).
    cbn [concat]. split.
    + unfold active_nav_callback at 1.
      rewrite exec_forEach_app by apply never_throws_active_nav_entry. exact IH1.
    + intros e [He|He]%elem_of_app; [by apply Hsub|].
      cbn zeta in Ho. rewrite <- Ho. exact (IH2 e He).
Qed.

Lemma initActiveNav_spec pg d y :
  let sections := matching pg (tag_has_attr "section" "id") d in
  let navLinks := matching pg (by_class "navbar__link") d in
  let w1 := exec (initActiveNav pg) (initial_world d y) in
  dom w1 = d
  ∧ (∀ n, n ∈ observed w1 ActiveNavObs → n ∈ sections)
  ∧ (sections ≠ [] → navLinks ≠ [] →
       log w1 = NewObserver ActiveNavObs (ActiveNavCb navLinks)
                  (ObserverInit 0 "-40% 0px -55% 0px")
                :: (Observe ActiveNavObs <$> sections)
       ∧ ∀ n, n ∈ sections → n ∈ observed w1 ActiveNavObs).
Proof.
  intros sections navLinks w1. unfold w1, initActiveNav, querySelectorAll.
  rewrite !exec_gets. cbn [dom initial_world]. fold sections navLinks.
  destruct sections as [|s ss] eqn:Es; [by split_and!|].
  destruct navLinks as [|l ls] eqn:El; [by split_and!|].
  cbn [length Nat.eqb orb]. rewrite exec_seq by done.
  set (w0 := exec (newIntersectionObserver _ _ _) _).
  destruct (observe_loop ActiveNavObs (s :: ss) w0) as (Hl & Hd & Ho).
  rewrite Hl, Hd. split_and!; [done | | ].
  - intros n. rewrite Ho. cbn. rewrite fn_lookup_insert, elem_of_empty. tauto.
  - intros _ _. split; [done|]. intros n. rewrite Ho. tauto.
Qed.

(** X4.  The active link follows the last section reported.  After
    initialisation and any deliveries to the observer's callback, let [e]
    be the last entry reported intersecting, over all batches in order.
    Then the section of [e] is one of the [section[id]] elements, and
    every [.navbar__link] carries [is-active] exactly if its [href] is
    ["#"] followed by that section's [id]: several links may be active, or
    none.  Entries that are not intersecting never change anything: if no
    entry was intersecting the document is as in the markup.  Elements
    other than the links are never touched, and the observer keeps all its
    targets. *)
Theorem active_link_follows_last_section pg d y batches w :
  let sections := matching pg (tag_has_attr "section" "id") d in
  let navLinks := matching pg (by_class "navbar__link") d in
  let w1 := exec (initActiveNav pg) (initial_world d y) in
  deliveries ActiveNavObs (active_nav_callback navLinks) w1 batches w →
  observed w = observed w1
  ∧ (∀ n, n ∉ navLinks → dom w n = d n)
  ∧ match last_intersecting (concat batches) with
    | None => dom w = d
    | Some e =>
        target e ∈ sections
        ∧ ∀ link, link ∈ navLinks →
            let here := bool_decide (attrs (d link) !! "href" = Some (fragment_of d (target e))) in
            dom w link = apply_write (ClassForce "is-active" here) (d link)
            ∧ ("is-active" ∈ classList (dom w link) ↔ here = true)
    end.
Proof.
  intros sections navLinks w1 Hrun.
  destruct (initActiveNav_spec pg d y) as (Hd1 & Hobs & _).
  fold sections navLinks w1 in Hd1, Hobs.
  destruct (active_nav_run navLinks w1 batches w Hrun) as [-> Htargets].
  destruct (active_nav_callback_spec navLinks (concat batches) w1) as (Hlast & Ho & _).
  split; [exact Ho|].
  assert (last_intersecting (concat batches) = None ∨
          ∃ e, last_intersecting (concat batches) = Some e ∧ e ∈ concat batches) as Hcase.
  { unfold last_intersecting. destruct (last _) as [e|] eqn:E; [right|by left].
    exists e. split; [done|]. apply last_Some_elem_of in E.
    apply list_elem_of_In, filter_In in E as [E _]. by apply list_elem_of_In. }
  destruct Hcase as [Hnone|(e & Hsome & He)].
  - rewrite Hnone in *. rewrite Hlast, Hd1. split; done.
  - rewrite Hsome in *. rewrite Hd1 in Hlast. split; [|split].
    + intros n Hn. rewrite Hlast. by rewrite decide_False.
    + by apply Hobs, Htargets.
    + intros link Hlink here. rewrite Hlast, decide_True by done. fold here.
      split; [done|]. destruct here; cbn; set_unfold.
      * tauto.
      * split; [tauto | discriminate].
Qed.

Lemma active_link_follows_last_section_witness :
  ∃ w, deliveries ActiveNavObs
         (active_nav_callback (matching nav_page (by_class "navbar__link") nav_dom))
         (exec (initActiveNav nav_page) (initial_world nav_dom 0))
         [[Entry 3 true]; [Entry 2 true; Entry 3 false]] w
       ∧ "is-active" ∈ classList (dom w 0)
       ∧ "is-active" ∉ classList (dom w 1).
Proof.
  set (links := matching nav_page (by_class "navbar__link") nav_dom).
  set (w1 := exec (initActiveNav nav_page) (initial_world nav_dom 0)).
  set (w2 := exec (active_nav_callback links [Entry 3 true]) w1).
  set (w3 := exec (active_nav_callback links [Entry 2 true; Entry 3 false]) w2).
  assert (Hrun : deliveries ActiveNavObs (active_nav_callback links) w1
                   [[Entry 3 true]; [Entry 2 true; Entry 3 false]] w3).
  { apply (deliveries_cons _ _ w1 _ w2); [|reflexivity|].
    - split; [discriminate|].
      intros e He. apply list_elem_of_singleton in He as ->. by_compute.
    - apply (deliveries_cons _ _ w2 _ w3); [|reflexivity|apply deliveries_nil].
      split; [discriminate|].
      intros e He. apply elem_of_cons in He as [->|He]; [by_compute|].
      apply list_elem_of_singleton in He as ->. by_compute. }
  exists w3. split; [exact Hrun|].
  destruct (active_link_follows_last_section nav_page nav_dom 0 _ _ Hrun) as (_ & _ & Hlast).
  change (last_intersecting _) with (Some (Entry 2 true)) in Hlast.
  destruct Hlast as [_ Hlinks].
  split.
  - apply (Hlinks 0); [by_compute | reflexivity].
  - intros H. apply (Hlinks 1) in H; [discriminate | by_compute].
Defined.

(** ** Navbar: updates and the debounced listener *)

Lemma navbar_update_replay navbar y w :
  exec (navbar_update navbar) (with_scrollY y w)
  = exec (replay navbar (navbar_writes y)) (with_scrollY y w).
Proof. done. Qed.

Lemma navbar_writes_last_wins y1 y2 e :
  apply_writes (apply_writes e (navbar_writes y1)) (navbar_writes y2)
  = apply_writes e (navbar_writes y2).
Proof.
  destruct e as [t a X tx h s]. cbn. f_equal.
  - destruct (Qgtb y1 50), (Qgtb y2 50); apply set_eq; intros x; set_unfold;
      destruct (decide (x = "navbar--scrolled")); tauto.
  - apply insert_insert_eq.
Qed.

Lemma replay_keeps n wrs w :
  let w' := exec (replay n wrs) w in
  scrollY w' = scrollY w ∧ clock w' = clock w ∧ timers w' = timers w
  ∧ charIndex w' = charIndex w.
Proof.
  revert w. induction wrs as [|wr r IH]; intros w; [done|].
  unfold replay. cbn [forEach]. rewrite exec_seq by apply never_throws_mutate.
  apply (IH (exec (mutate n wr) w)).
Qed.

(** X5.  A navbar update has no memory.  The navbar after an update at
    offset [y2] is the same whether or not an update at any offset [y1]
    ran in between: what it shows depends on the latest offset only, and
    an update repeated at the same offset changes nothing.  The update
    touches no other element, no observer and no timer; and scrolling
    further down never lowers the progress value nor removes
    [navbar--scrolled]. *)
Theorem navbar_update_memoryless navbar y1 y2 w :
  let direct := exec (navbar_update navbar) (with_scrollY y2 w) in
  let via_y1 := exec (navbar_update navbar)
                  (with_scrollY y2 (exec (navbar_update navbar) (with_scrollY y1 w))) in
  (∀ n, dom via_y1 n = dom direct n)
  ∧ (∀ n, n ≠ navbar → dom direct n = dom w n)
  ∧ observed direct = observed w ∧ timers direct = timers w
  ∧ ((y1 <= y2)%Q →
       (clamp (y1 / 300) 0 1 <= clamp (y2 / 300) 0 1)%Q
       ∧ (Qgtb y1 50 = true → Qgtb y2 50 = true)).
Proof.
  intros direct via_y1. unfold direct, via_y1.
  rewrite !navbar_update_replay.
  set (w1 := exec (replay navbar (navbar_writes y1)) (with_scrollY y1 w)).
  destruct (replay_spec navbar (navbar_writes y1) (with_scrollY y1 w)) as (_ & Hd1 & Hn1 & _).
  fold w1 in Hd1, Hn1.
  destruct (replay_spec navbar (navbar_writes y2) (with_scrollY y2 w1)) as (_ & Hd2 & Hn2 & _).
  destruct (replay_spec navbar (navbar_writes y2) (with_scrollY y2 w)) as (_ & Hd & Hn & Ho).
  destruct (replay_keeps navbar (navbar_writes y2) (with_scrollY y2 w)) as (_ & _ & Ht & _).
  split_and!.
  - intros n. destruct (decide (n = navbar)) as [->|Hne].
    + rewrite Hd2, Hd. cbn [dom with_scrollY]. rewrite Hd1. apply navbar_writes_last_wins.
    + rewrite Hn2, Hn by done. cbn [dom with_scrollY]. by apply Hn1.
  - intros n Hne. by rewrite Hn.
  - exact Ho.
  - exact Ht.
  - intros Hy. split.
    + apply clamp_monotone; [lra | rewrite !scroll_fraction; lra].
    + rewrite !Qgtb_iff. lra.
Qed.

Lemma navbar_writes_shown e y :
  style (apply_writes e (navbar_writes y)) !! "--nav-scroll" = Some [Num (clamp (y / 300) 0 1)]
  ∧ ("navbar--scrolled" ∈ classList (apply_writes e (navbar_writes y)) ↔ (50 < y)%Q).
Proof.
  cbn. split; [by rewrite lookup_insert_eq|].
  rewrite <- Qgtb_iff. destruct (Qgtb y 50).
  - rewrite elem_of_union, elem_of_singleton. tauto.
  - rewrite elem_of_difference, elem_of_singleton. split; [tauto | done].
Qed.

Lemma navbar_update_spec navbar w :
  let w' := exec (navbar_update navbar) w in
  log w' = log w ++ (Mutate navbar <$> navbar_writes (scrollY w))
  ∧ dom w' navbar = apply_writes (dom w navbar) (navbar_writes (scrollY w))
  ∧ scrollY w' = scrollY w.
Proof.
  destruct (replay_spec navbar (navbar_writes (scrollY w)) w) as (Hl & Hd & _).
  destruct (replay_keeps navbar (navbar_writes (scrollY w)) w) as (Hy & _).
  done.
Qed.

Lemma initNavbarScroll_found pg d y navbar :
  head (matching pg (by_class "navbar") d) = Some navbar →
  let w1 := exec (initNavbarScroll pg) (initial_world d y) in
  log w1 = Listen OnWindow "scroll" (NavbarScroll navbar) :: (Mutate navbar <$> navbar_writes y)
  ∧ dom w1 navbar = apply_writes (d navbar) (navbar_writes y)
  ∧ (∀ n, n ≠ navbar → dom w1 n = d n)
  ∧ clock w1 = 0%Z ∧ timers w1 = [].
Proof.
  intros Hn w1. unfold w1, initNavbarScroll, querySelector. rewrite exec_gets.
  cbn [dom initial_world]. rewrite Hn. rewrite exec_seq by done.
  split_and!; try done.
  - unfold navbar_update. js_unfold. cbn. by dom_simpl.
  - intros n Hne. unfold navbar_update. js_unfold. cbn. by dom_simpl.
Qed.

Lemma navbar_scrolls_cons navbar ev r st :
  navbar_scrolls navbar (ev :: r) st = navbar_scrolls navbar r (navbar_scroll navbar ev st).
Proof. reflexivity. Qed.

Lemma navbar_scroll_eq navbar t y timer b :
  navbar_scroll navbar (t, y) (timer, b) =
  debounce (λ _ : unit, navbar_update navbar) 8 tt timer (on_page (with_scrollY y) (run_until t b)).
Proof. reflexivity. Qed.

Lemma navbar_burst_state navbar rest : ∀ t y h w0 nh,
  rapid 8 t (rest.*1) →
  ∃ h' nh',
    navbar_scrolls navbar rest
      (Some h, Browser (with_scrollY y (with_clock t w0)) [Slot h (t + 8) (navbar_update navbar)] nh)
    = (Some h',
       Browser (with_scrollY (default (t, y) (last rest)).2
                  (with_clock (default (t, y) (last rest)).1 w0))
               [Slot h' ((default (t, y) (last rest)).1 + 8) (navbar_update navbar)]
               nh').
Proof.
  induction rest as [|[t2 y2] r IH]; intros t y h w0 nh Hr.
  - by exists h, nh.
  - destruct Hr as [Ht Hr]. cbn [fmap list_fmap fst] in Ht.
    rewrite navbar_scrolls_cons, navbar_scroll_eq.
    erewrite run_until_early; [|reflexivity|lia].
    unfold on_page. cbn [page_of pending next_handle clock with_clock with_scrollY].
    erewrite debounce_armed by reflexivity.
    cbn [page_of pending next_handle clock with_clock with_scrollY].
    rewrite Z.max_r by lia.
    destruct (IH t2 y2 nh w0 (S nh) Hr) as (h' & nh' & E).
    exists h', nh'. rewrite last_cons_default. cbn [default]. exact E.
Qed.

(** X6.  The navbar under a burst of scroll events.  Let the page load at
    offset [y0] with a [.navbar] element, and let scroll events follow,
    the first at [t1] and each less than 8 ms after the one before, the
    last one at time [t] to offset [y].  Until [t + 8] the window is at
    [y] but the navbar still shows what the initial update wrote for
    [y0].  From [t + 8] on the navbar has received exactly two more
    writes, those of one update at the final offset [y]: [--nav-scroll] is
    [clamp(y / 300, 0, 1)], [navbar--scrolled] is present exactly if
    [y > 50], and no timer is pending. *)
Theorem navbar_settles pg d y0 navbar t1 y1 rest :
  head (matching pg (by_class "navbar") d) = Some navbar →
  (0 <= t1)%Z →
  rapid 8 t1 (rest.*1) →
  let last_ev := default (t1, y1) (last rest) in
  let st := navbar_scrolls navbar ((t1, y1) :: rest) (navbar_loaded pg d y0) in
  (∀ T, (last_ev.1 <= T < last_ev.1 + 8)%Z →
     let w := page_of (run_until T st.2) in
     scrollY w = last_ev.2
     ∧ writes_to navbar (log w) = navbar_writes y0
     ∧ dom w navbar = apply_writes (d navbar) (navbar_writes y0))
  ∧ (∀ T, (last_ev.1 + 8 <= T)%Z →
     let w := page_of (run_until T st.2) in
     writes_to navbar (log w) = navbar_writes y0 ++ navbar_writes last_ev.2
     ∧ style (dom w navbar) !! "--nav-scroll" = Some [Num (clamp (last_ev.2 / 300) 0 1)]
     ∧ ("navbar--scrolled" ∈ classList (dom w navbar) ↔ (50 < last_ev.2)%Q)
     ∧ pending (run_until T st.2) = []).
Proof.
  intros Hn Ht1 Hrapid last_ev st.
  destruct (initNavbarScroll_found pg d y0 navbar Hn) as (Hl1 & Hd1 & _ & Hc1 & _).
  set (w1 := exec (initNavbarScroll pg) (initial_world d y0)) in *.
  assert (writes_to navbar (log w1) = navbar_writes y0) as Hw1.
  { rewrite Hl1. change (writes_to navbar (Mutate navbar <$> navbar_writes y0) = navbar_writes y0).
    apply writes_to_mutate_eq. }
  assert (∃ h nh, st = (Some h, Browser (with_scrollY last_ev.2 (with_clock last_ev.1 w1))
                                  [Slot h (last_ev.1 + 8) (navbar_update navbar)] nh))
    as (h & nh & Est).
  { unfold st, navbar_loaded. fold w1. rewrite navbar_scrolls_cons, navbar_scroll_eq.
    rewrite run_until_quiet by done.
    rewrite debounce_quiet by done.
    unfold on_page. cbn [page_of pending next_handle clock with_clock with_scrollY].
    rewrite Hc1, Z.max_r by lia.
    destruct (navbar_burst_state navbar rest t1 y1 0 w1 1 Hrapid) as (h & nh & E).
    by exists h, nh. }
  rewrite Est. cbn [snd]. split.
  - intros T HT. erewrite run_until_early; [|reflexivity|lia].
    unfold on_page. cbn [page_of clock with_clock with_scrollY scrollY log dom].
    by split_and!.
  - intros T HT. erewrite run_until_fire; [|reflexivity|exact HT].
    cbn [page_of pending clock with_clock with_scrollY].
    set (w0 := with_clock _ (with_scrollY _ _)).
    destruct (navbar_update_spec navbar w0) as (Hl & Hd & _).
    set (w' := exec (navbar_update navbar) w0) in *.
    cbn [log dom with_clock].
    rewrite Hl, Hd, writes_to_app, writes_to_mutate_eq.
    destruct (navbar_writes_shown (dom w0 navbar) (scrollY w0)) as [Hs Hc].
    change (scrollY w0) with last_ev.2 in *. change (log w0) with (log w1).
    rewrite Hw1. by split_and!.
Qed.

Lemma navbar_settles_witness :
  let st := navbar_scrolls 4 [(100%Z, 20%Q); (104%Z, 90%Q); (110%Z, 150%Q)] (navbar_loaded nav_page nav_dom 0) in
  let w := page_of (run_until 118 st.2) in
  style (dom w 4) !! "--nav-scroll" = Some [Num (clamp (150 / 300) 0 1)]
  ∧ writes_to 4 (log w) = navbar_writes 0 ++ navbar_writes 150
  ∧ "navbar--scrolled" ∈ classList (dom w 4).
Proof.
  intros st w.
  destruct (navbar_settles nav_page nav_dom 0 4 100 20 [(104%Z, 90%Q); (110%Z, 150%Q)])
    as [_ Hafter]; [reflexivity | lia | cbn; lia |].
  destruct (Hafter 118%Z) as (Hw & Hs & Hc & _); [cbn; lia|].
  split_and!; [exact Hs | exact Hw |]. apply Hc. reflexivity.
Defined.

(** ** Parallax: repeated updates *)

Lemma set_style_twice p v v' e :
  apply_write (SetStyle p v) (apply_write (SetStyle p v') e) = apply_write (SetStyle p v) e.
Proof. destruct e. cbn. f_equal. apply insert_insert_eq. Qed.

Lemma style_loop_last prop l n :
  n ∈ l →
  ∃ k, l !! k = Some n ∧ ∀ value i0 w,
    dom (exec (forEach_from i0 l (λ x i, set_style x prop (value i))) w) n
    = apply_write (SetStyle prop (value (i0 + k))) (dom w n).
Proof.
  induction l as [|x r IH]; intros Hn; [by apply elem_of_nil in Hn|].
  destruct (decide (n ∈ r)) as [Hr|Hr].
  - destruct (IH Hr) as (k & Hk & Hdom). exists (S k). split; [done|].
    intros value i0 w. cbn [forEach_from]. rewrite exec_seq by done.
    rewrite Hdom. replace (i0 + S k) with (S i0 + k) by lia.
    cbn. destruct (decide (x = n)) as [->|Hne].
    + rewrite fn_lookup_alter. apply set_style_twice.
    + by rewrite fn_lookup_alter_ne.
  - apply elem_of_cons in Hn as [->|Hn]; [|done].
    exists 0. split; [done|]. intros value i0 w.
    cbn [forEach_from]. rewrite exec_seq by done.
    rewrite style_loop_frame by done. cbn.
    by rewrite fn_lookup_alter, Nat.add_0_r.
Qed.

Lemma parallax_update_loops blobs bgGradients y w :
  exec (parallax_update blobs bgGradients) (with_scrollY y w) =
  exec (forEach_from 0 bgGradients
          (λ g i, set_style g "transform" (translate3d_y (y * gradient_speed i))))
    (exec (forEach_from 0 blobs
             (λ b i, set_style b "transform" (translate3d_y (y * blob_speed i))))
       (with_scrollY y w)).
Proof.
  unfold parallax_update, forEach_i. rewrite exec_gets. cbn [scrollY with_scrollY].
  rewrite exec_seq; [done|].
  apply never_throws_forEach_from. intros. apply never_throws_mutate.
Qed.

Lemma parallax_update_on blobs bgGradients n :
  ∃ vb vg : Q → css_text,
    ∀ y w, dom (exec (parallax_update blobs bgGradients) (with_scrollY y w)) n
           = transform_or_not (bool_decide (n ∈ bgGradients)) (vg y)
               (transform_or_not (bool_decide (n ∈ blobs)) (vb y) (dom w n)).
Proof.
  assert (∀ (speed : nat → Q) l,
            ∃ v : Q → css_text, ∀ y w,
              dom (exec (forEach_from 0 l
                     (λ x i, set_style x "transform" (translate3d_y (y * speed i)))) w) n
              = transform_or_not (bool_decide (n ∈ l)) (v y) (dom w n)) as Hloop.
  { intros speed l. destruct (decide (n ∈ l)) as [Hin|Hout].
    - destruct (style_loop_last "transform" l n Hin) as (k & _ & Hk).
      exists (λ y, translate3d_y (y * speed k)). intros y w.
      rewrite bool_decide_eq_true_2 by done.
      apply (Hk (λ i, translate3d_y (y * speed i)) 0 w).
    - exists (λ _, []). intros y w. rewrite bool_decide_eq_false_2 by done.
      by apply style_loop_frame. }
  destruct (Hloop blob_speed blobs) as (vb & Hb).
  destruct (Hloop gradient_speed bgGradients) as (vg & Hg).
  exists vb, vg. intros y w.
  by rewrite parallax_update_loops, Hg, Hb.
Qed.

(** X7.  A parallax update has no memory either.  The document after an
    update at offset [y2] is the same whether or not an update at any
    offset [y1] ran in between, also when an element occurs twice in a
    list or in both lists: the scroll listener asks for one update per
    scroll event, and the updates it asks for in excess leave no trace.
    An update touches only the blobs and the gradients, and of these only
    the [transform] of their style. *)
Theorem parallax_update_memoryless blobs bgGradients y1 y2 w :
  let direct := exec (parallax_update blobs bgGradients) (with_scrollY y2 w) in
  let via_y1 :=
    exec (parallax_update blobs bgGradients)
      (with_scrollY y2 (exec (parallax_update blobs bgGradients) (with_scrollY y1 w))) in
  (∀ n, dom via_y1 n = dom direct n)
  ∧ (∀ n, n ∉ blobs → n ∉ bgGradients → dom direct n = dom w n)
  ∧ (∀ n, tagName (dom direct n) = tagName (dom w n)
          ∧ attrs (dom direct n) = attrs (dom w n)
          ∧ classList (dom direct n) = classList (dom w n)
          ∧ textContent (dom direct n) = textContent (dom w n)
          ∧ hidden (dom direct n) = hidden (dom w n)
          ∧ ∀ p, p ≠ "transform" → style (dom direct n) !! p = style (dom w n) !! p).
Proof.
  intros direct via_y1. split; [|split]; intros n;
    destruct (parallax_update_on blobs bgGradients n) as (vb & vg & Hn);
    unfold direct, via_y1; rewrite !Hn; cbn [dom with_scrollY].
  - destruct (bool_decide (n ∈ bgGradients)), (bool_decide (n ∈ blobs));
      cbn [transform_or_not]; by rewrite ?set_style_twice.
  - intros Hb Hg. by rewrite !bool_decide_eq_false_2 by done.
  - destruct (bool_decide (n ∈ bgGradients)), (bool_decide (n ∈ blobs));
      cbn [transform_or_not]; split_and!; try done;
      intros p Hp; cbn; by rewrite ?lookup_insert_ne by done.
Qed.

(** ** Typing effect: every execution *)

Section typing_phases.
Variables (el : node) (full : jsstring) (C0 : gset string) (d0 : node → element).

Lemma typing_phase_clock t w : typing_inv el full C0 d0 w → typing_inv el full C0 d0 (with_clock t w).
Proof.
  intros [[| | |] Hframe]; (split; [|exact Hframe]).
  - by apply phase_waiting.
  - by eapply phase_typing.
  - by eapply phase_dwelling.
  - by apply phase_finished.
Qed.

Lemma elapse_stuck T w due j :
  timers w = [Timer due j] → (due <= T)%Z → elapse 0 T w = None.
Proof. intros H Hle. cbn. rewrite H. cbn. destruct (Z.leb_spec due T); [done | lia]. Qed.

Lemma typing_phase_elapse fuel : ∀ T w w',
  typing_inv el full C0 d0 w → elapse fuel T w = Some w' → typing_inv el full C0 d0 w'.
Proof.
  induction fuel as [|fuel IH]; intros T w w' [Hphase Hframe] Hel.
  - destruct Hphase as [Ht Hi Htx Hcl | due Ho Ht Hi Htx Hcl | due Ho Ht Htx Hcl | Ho Ht Htx Hcl].
    + rewrite elapse_none in Hel by done. injection Hel as <-.
      apply typing_phase_clock. split; [by apply phase_waiting | done].
    + destruct (Z.lt_ge_cases T due) as [Hlt|Hge].
      * erewrite elapse_idle in Hel by done. injection Hel as <-.
        apply typing_phase_clock. split; [by eapply phase_typing | done].
      * by erewrite elapse_stuck in Hel.
    + destruct (Z.lt_ge_cases T due) as [Hlt|Hge].
      * erewrite elapse_idle in Hel by done. injection Hel as <-.
        apply typing_phase_clock. split; [by eapply phase_dwelling | done].
      * by erewrite elapse_stuck in Hel.
    + rewrite elapse_none in Hel by done. injection Hel as <-.
      apply typing_phase_clock. split; [by apply phase_finished | done].
  - destruct Hphase as [Ht Hi Htx Hcl | due Ho Ht Hi Htx Hcl | due Ho Ht Htx Hcl | Ho Ht Htx Hcl].
    + rewrite elapse_none in Hel by done. injection Hel as <-.
      apply typing_phase_clock. split; [by apply phase_waiting | done].
    + destruct (Z.lt_ge_cases T due) as [Hlt|Hge].
      * erewrite elapse_idle in Hel by done. injection Hel as <-.
        apply typing_phase_clock. split; [by eapply phase_typing | done].
      * erewrite elapse_fire in Hel by done. cbn [run_task] in Hel.
        apply (IH _ _ _) in Hel; [done|].
        destruct (decide (charIndex w < length full)) as [Hlt|Hnlt].
        -- rewrite type_more by done. split.
           ++ eapply phase_typing; cbn -[charAt take]; [done | done | lia | | by dom_simpl].
              rewrite fn_lookup_alter. cbn -[charAt take].
              rewrite Htx. by apply take_charAt.
           ++ intros n Hn. cbn -[charAt take]. rewrite fn_lookup_alter_ne by done.
              by apply Hframe.
        -- rewrite type_end by (cbn; lia). split; [|done].
           eapply phase_dwelling; cbn; [done | done | | done].
           rewrite Htx. apply take_ge. lia.
    + destruct (Z.lt_ge_cases T due) as [Hlt|Hge].
      * erewrite elapse_idle in Hel by done. injection Hel as <-.
        apply typing_phase_clock. split; [by eapply phase_dwelling | done].
      * erewrite elapse_fire in Hel by done. cbn [run_task] in Hel.
        apply (IH _ _ _) in Hel; [done|].
        unfold typing_done. js_unfold. split.
        -- apply phase_finished; cbn; [done | done | by dom_simpl | ].
           dom_simpl. by rewrite Hcl.
        -- intros n Hn. cbn. rewrite !fn_lookup_alter_ne by done. by apply Hframe.
    + rewrite elapse_none in Hel by done. injection Hel as <-.
      apply typing_phase_clock. split; [by apply phase_finished | done].
Qed.

Lemma typing_phase_notify entries w w' :
  typing_inv el full C0 d0 w → deliverable (observed w TypingObs) entries →
  typing_callback el full entries w = (Normal tt, w') → typing_inv el full C0 d0 w'.
Proof.
  intros [Hphase Hframe] (Hne & Hsub) Hcb.
  destruct entries as [|e0 es]; [done|].
  assert (observed w TypingObs ≠ ∅) as Hobs.
  { intros H. specialize (Hsub e0 (list_elem_of_here _ _)). rewrite H in Hsub.
    by apply not_elem_of_empty in Hsub. }
  destruct Hphase as [Ht Hi Htx Hcl | | |]; [|done..].
  unfold typing_callback in Hcb. destruct (isIntersecting e0).
  - apply (f_equal snd) in Hcb. cbn [snd] in Hcb. subst w'. js_unfold. split; [|done].
    eapply phase_typing; cbn; [ | by rewrite Ht | lia | by rewrite Htx, Hi | done].
    by rewrite fn_lookup_insert.
  - injection Hcb as <-. split; [by apply phase_waiting | done].
Qed.

Lemma typing_phase_run w0 occs w : typing_run el full w0 occs w → typing_inv el full C0 d0 w0 → typing_inv el full C0 d0 w.
Proof.
  induction 1 as [w|w es w1 occs w2 Hdel Hcb _ IH|w fuel T w1 occs w2 Hel _ IH]; intros Hinv.
  - done.
  - apply IH. by eapply typing_phase_notify.
  - apply IH. by eapply typing_phase_elapse.
Qed.

End typing_phases.

(** X8.  The typing effect runs at most once and only forwards.  After
    initialisation with motion allowed, in every execution (batches
    delivered to the observer and time passing, in any order) the effect
    is in one of four phases: waiting; typing, with one tick pending;
    complete, with the class swap pending; finished.  So the text shown is
    always a prefix of the trimmed tagline, never more than one timer is
    pending, and an element that did not have [typing-done] in the markup
    carries it only once the whole text is shown and nothing is pending.
    Once the hero has been reported the observer has no target left, so a
    later report cannot start the effect again.  No other element is
    touched. *)
Theorem typing_never_restarts pg d y el occs w :
  head (matching pg (by_class "hero__tagline") d) = Some el →
  let fullText := trim (textContent (d el)) in
  let w1 := exec (initTyping pg true) (initial_world d y) in
  typing_run el fullText w1 occs w →
  typing_phase el fullText (classList (d el)) w
  ∧ (∀ n, n ≠ el → dom w n = d n)
  ∧ (∃ k, k ≤ length fullText ∧ textContent (dom w el) = take k fullText)
  ∧ length (timers w) ≤ 1
  ∧ ("typing-done" ∉ classList (d el) → "typing-done" ∈ classList (dom w el) →
       textContent (dom w el) = fullText ∧ timers w = []).
Proof.
  intros Hel fullText w1 Hrun.
  destruct (initTyping_found pg d y el Hel) as (Htm & _ & Hci & Htx & Hcl & Hother & _).
  fold w1 in Htm, Hci, Htx, Hcl, Hother.
  destruct (typing_phase_run el fullText (classList (d el)) d w1 occs w Hrun)
    as [Hphase Hframe].
  { split; [by apply phase_waiting | done]. }
  split; [done|]. split; [done|].
  destruct Hphase as [Ht Hi Ht' Hc | due Ho Ht Hi Ht' Hc | due Ho Ht Ht' Hc | Ho Ht Ht' Hc];
    rewrite Ht, Ht', Hc; cbn [length].
  - split_and!; [exists 0; split; [lia | done] | lia |].
    intros Hno Hyes. exfalso. apply Hno. unfold typing_classes in Hyes.
    apply elem_of_union in Hyes as [Hyes|Hyes]; [|done].
    by apply elem_of_singleton in Hyes.
  - split_and!; [by exists (charIndex w) | lia |].
    intros Hno Hyes. exfalso. apply Hno. unfold typing_classes in Hyes.
    apply elem_of_union in Hyes as [Hyes|Hyes]; [|done].
    by apply elem_of_singleton in Hyes.
  - split_and!; [exists (length fullText); split; [lia | by rewrite take_ge] | lia |].
    intros Hno Hyes. exfalso. apply Hno. unfold typing_classes in Hyes.
    apply elem_of_union in Hyes as [Hyes|Hyes]; [|done].
    by apply elem_of_singleton in Hyes.
  - split_and!; [exists (length fullText); split; [lia | by rewrite take_ge] | lia | done].
Qed.

Lemma typing_never_restarts_witness :
  ∃ w, typing_run 4 (trim (textContent (demo_dom 4)))
         (exec (initTyping demo_page true) demo_world)
         [Notify [Entry 3 false]; Wait 100; Notify [Entry 3 true]; Wait 720] w
       ∧ textContent (dom w 4) = [72]%N
       ∧ length (timers w) ≤ 1.
Proof.
  set (full := trim (textContent (demo_dom 4))).
  set (w1 := exec (initTyping demo_page true) demo_world).
  set (w2 := with_clock 100 w1).
  set (w3 := exec (typing_callback 4 full [Entry 3 true]) w2).
  assert (∃ w, elapse 2 720 w3 = Some w ∧ textContent (dom w 4) = [72]%N) as (w4 & Hw4 & Htext).
  { eexists. split; reflexivity. }
  assert (Hrun : typing_run 4 full w1
                   [Notify [Entry 3 false]; Wait 100; Notify [Entry 3 true]; Wait 720] w4).
  { apply (typing_run_notify _ _ w1 _ w1); [|reflexivity|].
    { split; [discriminate|].
      intros e He. apply list_elem_of_singleton in He as ->. by_compute. }
    apply (typing_run_wait _ _ w1 0 100 w2); [reflexivity|].
    apply (typing_run_notify _ _ w2 _ w3); [|reflexivity|].
    { split; [discriminate|].
      intros e He. apply list_elem_of_singleton in He as ->. by_compute. }
    apply (typing_run_wait _ _ w3 2 720 w4); [exact Hw4 | apply typing_run_nil]. }
  exists w4. split; [exact Hrun|]. split; [exact Htext|].
  assert (head (matching demo_page (by_class "hero__tagline") demo_dom) = Some 4) as Hel
    by (vm_compute; reflexivity).
  by destruct (typing_never_restarts demo_page demo_dom 0 4 _ w4 Hel Hrun) as (_ & _ & _ & Hle & _).
Defined.

(** ** Ripple: initialisation *)

Lemma ripple_loop l : ∀ w,
  NoDup l →
  let w' := exec (forEach l (λ btn,
              set_style btn "position" [Lit "relative"] ;;
              set_style btn "overflow" [Lit "hidden"] ;;
              addEventListener (OnElement btn) "click" (RippleClick btn))) w in
  log w' = log w ++ concat (ripple_effects <$> l)
  ∧ (∀ n, n ∈ l → dom w' n = apply_writes (dom w n) ripple_writes)
  ∧ (∀ n, n ∉ l → dom w' n = dom w n).
Proof.
  induction l as [|x r IH]; intros w Hnd.
  - cbn. rewrite app_nil_r. split_and!; [done | | done].
    intros n Hn. by apply elem_of_nil in Hn.
  - apply NoDup_cons in Hnd as [Hx Hnd].
    cbn [forEach]. rewrite exec_seq.
    2:{ apply never_throws_seq; [done|]. by apply never_throws_seq. }
    set (w1 := exec _ w).
    assert (log w1 = log w ++ ripple_effects x) as Hl1 by (unfold w1; js_unfold; cbn; by rewrite <- !app_assoc).
    assert (dom w1 x = apply_writes (dom w x) ripple_writes) as Hd1
      by (unfold w1; js_unfold; cbn; by dom_simpl).
    assert (∀ n, n ≠ x → dom w1 n = dom w n) as Hn1
      by (intros n Hn; unfold w1; js_unfold; cbn; by dom_simpl).
    destruct (IH w1 Hnd) as (Hl & Hin & Hout). cbn zeta.
    split_and!.
    + rewrite Hl, Hl1. cbn [fmap list_fmap concat]. by rewrite <- app_assoc.
    + intros n [->|Hn]%elem_of_cons.
      * by rewrite Hout, Hd1.
      * rewrite Hin by done. rewrite Hn1; [done|]. intros ->. done.
    + intros n [Hne Hn]%not_elem_of_cons. rewrite Hout by done. by apply Hn1.
Qed.

(** X9.  What the ripple behaviour does at load.  With motion allowed,
    every element of class [hero__btn] or [contact__submit] (each once,
    also when it has both classes) gets [position: relative] and
    [overflow: hidden] in its style and one click listener, in document
    order; its classes and attributes stay, and no other element is
    touched.  With motion disallowed nothing happens. *)
Theorem initRipple_prepares_buttons pg d y :
  let buttons := matching pg ripple_buttons d in
  let w' := exec (initRipple pg true) (initial_world d y) in
  log w' = concat (ripple_effects <$> buttons)
  ∧ (∀ n, n ∈ buttons ↔
          n < doc_size pg
          ∧ ("hero__btn" ∈ classList (d n) ∨ "contact__submit" ∈ classList (d n)))
  ∧ NoDup buttons
  ∧ (∀ n, n ∈ buttons →
          style (dom w' n) !! "position" = Some [Lit "relative"]
          ∧ style (dom w' n) !! "overflow" = Some [Lit "hidden"]
          ∧ classList (dom w' n) = classList (d n)
          ∧ attrs (dom w' n) = attrs (d n))
  ∧ (∀ n, n ∉ buttons → dom w' n = d n)
  ∧ exec (initRipple pg false) (initial_world d y) = initial_world d y.
Proof.
  intros buttons w'.
  destruct (ripple_loop buttons (initial_world d y) (NoDup_matching _ _ _)) as (Hl & Hin & Hout).
  assert (w' = exec (forEach buttons (λ btn,
              set_style btn "position" [Lit "relative"] ;;
              set_style btn "overflow" [Lit "hidden"] ;;
              addEventListener (OnElement btn) "click" (RippleClick btn)))
            (initial_world d y)) as -> by done.
  split_and!; [done | | apply NoDup_matching | | done | done].
  - intros n. unfold buttons. rewrite elem_of_matching.
    unfold ripple_buttons, sel_or, by_class.
    rewrite orb_true_iff, !bool_decide_eq_true. tauto.
  - intros n Hn. rewrite (Hin n Hn). cbn. split_and!; try done.
    + rewrite lookup_insert_ne by done. by rewrite lookup_insert_eq.
    + by rewrite lookup_insert_eq.
Qed.

(** ** Card tilt *)

Lemma unit_fraction (a w : Q) : (0 < w → 0 <= a <= w → 0 <= a / w <= 1)%Q.
Proof.
  intros Hw [H0 H1]. split.
  - apply Qle_shift_div_l; [done | lra].
  - apply Qle_shift_div_r; [done | lra].
Qed.

Lemma fraction_at (c l w k : Q) : (0 < w → c == l + k * w → (c - l) / w == k)%Q.
Proof. intros Hw Hc. rewrite Hc. field. lra. Qed.

Lemma tilt_finite_iff rect :
  tilt_finite rect = true ↔ ¬ (rect_width rect == 0)%Q ∧ ¬ (rect_height rect == 0)%Q.
Proof.
  unfold tilt_finite.
  by rewrite andb_true_iff, !negb_true_iff, <- !not_true_iff_false, !Qeq_bool_iff.
Qed.

Lemma tilt_move_finite card rect e :
  tilt_finite rect = true →
  tilt_move card rect e =
  set_style card "transform" (tilt_transform (tilt_x rect e) (tilt_y rect e)).
Proof. intros H. unfold tilt_move. by rewrite H. Qed.

Lemma tilt_move_not_finite card rect e :
  tilt_finite rect = false → tilt_move card rect e = mret tt.
Proof. intros H. unfold tilt_move. by rewrite H. Qed.

(** X10.  The tilt stays within two degrees.  For a card of positive
    width and height and a pointer over it, the handler writes
    [rotateY(ry deg) rotateX(rx deg)] with both angles between -2 and 2:
    half of [MAX_DEG].  [ry] is -2 at the left edge, 0 in the middle and 2
    at the right edge; [rx] is 2 at the top edge, 0 in the middle and -2
    at the bottom edge.  No other element is touched. *)
Theorem tilt_within_two_degrees card rect e w :
  (0 < rect_width rect)%Q →
  (0 < rect_height rect)%Q →
  inside rect e →
  let w' := exec (tilt_move card rect e) w in
  let ry := (tilt_x rect e * MAX_DEG)%Q in
  let rx := (- tilt_y rect e * MAX_DEG)%Q in
  style (dom w' card) !! "transform"
    = Some [Lit "perspective(800px) rotateY("; Num ry; Lit "deg) rotateX("; Num rx;
            Lit "deg) translateY(-6px)"]
  ∧ (-2 <= ry <= 2)%Q ∧ (-2 <= rx <= 2)%Q
  ∧ (clientX e == rect_left rect → ry == -2)%Q
  ∧ (clientX e == rect_left rect + rect_width rect → ry == 2)%Q
  ∧ (clientX e == rect_left rect + rect_width rect / 2 → ry == 0)%Q
  ∧ (clientY e == rect_top rect → rx == 2)%Q
  ∧ (clientY e == rect_top rect + rect_height rect → rx == -2)%Q
  ∧ (clientY e == rect_top rect + rect_height rect / 2 → rx == 0)%Q
  ∧ (∀ n, n ≠ card → dom w' n = dom w n).
Proof.
  intros Hw Hh [[Hx1 Hx2] [Hy1 Hy2]] w' ry rx.
  pose proof (unit_fraction (clientX e - rect_left rect) (rect_width rect) Hw) as [Hfx1 Hfx2];
    [lra|].
  pose proof (unit_fraction (clientY e - rect_top rect) (rect_height rect) Hh) as [Hfy1 Hfy2];
    [lra|].
  assert (tilt_finite rect = true) as Hfin by (apply tilt_finite_iff; split; lra).
  unfold w'. rewrite (tilt_move_finite card rect e Hfin).
  unfold ry, rx, tilt_x, tilt_y, MAX_DEG.
  split_and!.
  - js_unfold. cbn. dom_simpl. by rewrite lookup_insert_eq.
  - lra.
  - lra.
  - lra.
  - lra.
  - intros Hc. rewrite (fraction_at _ _ _ 0) by (done || rewrite Hc; ring). lra.
  - intros Hc. rewrite (fraction_at _ _ _ 1) by (done || rewrite Hc; ring). lra.
  - intros Hc. rewrite (fraction_at _ _ _ (1 # 2)) by (done || rewrite Hc; field). lra.
  - intros Hc. rewrite (fraction_at _ _ _ 0) by (done || rewrite Hc; ring). lra.
  - intros Hc. rewrite (fraction_at _ _ _ 1) by (done || rewrite Hc; ring). lra.
  - intros Hc. rewrite (fraction_at _ _ _ (1 # 2)) by (done || rewrite Hc; field). lra.
  - intros n Hn. js_unfold. cbn. by dom_simpl.
Qed.

Lemma tilt_within_two_degrees_witness :
  let rect := Rect 100 50 200 100 in
  let e := Mouse 150 75 in
  let w' := exec (tilt_move 3 rect e) demo_world in
  style (dom w' 3) !! "transform" = Some (tilt_transform (tilt_x rect e) (tilt_y rect e))
  ∧ (-2 <= tilt_x rect e * MAX_DEG <= 2)%Q
  ∧ (tilt_x rect e * MAX_DEG == -1)%Q.
Proof.
  intros rect e w'.
  destruct (tilt_within_two_degrees 3 rect e demo_world) as (Hs & Hry & _);
    [reflexivity | reflexivity | by vm_compute |].
  split; [exact Hs|]. split; [exact Hry|]. reflexivity.
Defined.

Section tilt_session.
Variables (card : node) (d0 : node → element).

Lemma tilt_inv_mono B B' tr lv b :
  tilt_inv card d0 B tr lv b → (B <= B')%Z → tilt_inv card d0 B' tr lv b.
Proof.
  intros (H1 & H2 & H3 & H4) HB. split_and!; try done.
  intros s Hs. destruct (H1 s Hs). split; [done | lia].
Qed.

Lemma tilt_reset_spec w :
  let w' := exec (tilt_reset card) w in
  clock w' = clock w
  ∧ style (dom w' card) !! "transition" = Some [Lit ""]
  ∧ style (dom w' card) !! "transform" = style (dom w card) !! "transform"
  ∧ (∀ n, n ≠ card → dom w' n = dom w n).
Proof.
  unfold tilt_reset. js_unfold. cbn. split_and!; [done | | |].
  - dom_simpl. by rewrite lookup_insert_eq.
  - dom_simpl. by rewrite lookup_insert_ne.
  - intros n Hn. by dom_simpl.
Qed.

Lemma run_until_tilt B tr lv T b :
  tilt_inv card d0 B tr lv b → (clock (page_of b) <= T)%Z →
  tilt_inv card d0 B tr lv (run_until T b)
  ∧ clock (page_of (run_until T b)) = T
  ∧ ((B <= T)%Z → pending (run_until T b) = []).
Proof.
  intros Hinv Hclock.
  assert (tilt_inv card d0 B tr lv (run_until T b) ∧ clock (page_of (run_until T b)) = T)
    as [Hinv' Hclock'].
  { unfold run_until.
    apply (advance_inv (λ b, tilt_inv card d0 B tr lv b ∧ (clock (page_of b) <= T)%Z)
                       (λ b, tilt_inv card d0 B tr lv b ∧ clock (page_of b) = T));
      [| |done].
    - intros b' s rest [(H1 & H2 & H3 & H4) Hc] Hnext Hdue.
      destruct (next_slot_spec _ _ _ Hnext) as (Hin & _ & _).
      destruct (H1 s) as [Hjob _]; [apply Hin; by left|].
      unfold fire. rewrite Hjob. unfold tilt_inv. cbn [page_of pending].
      set (w := with_clock _ _).
      destruct (tilt_reset_spec w) as (Hck & Htn & Htf & Hfr).
      split; [split_and!|].
      + intros x Hx. apply H1, Hin. by right.
      + by rewrite Htf.
      + intros _. by left.
      + intros n Hn. rewrite Hfr by done. by apply H4.
      + rewrite Hck. cbn. lia.
    - intros b' [Hinv' Hc]. split; [exact Hinv'|]. cbn. lia. }
  split; [done|]. split; [done|].
  intros HB. destruct (pending (run_until T b)) as [|s l] eqn:E; [done|].
  assert (s ∈ pending (run_until T b)) as Hs by (rewrite E; apply list_elem_of_here).
  pose proof (run_until_done T b s Hs) as Hlate.
  destruct Hinv' as (H1 & _). destruct (H1 s Hs) as [_ Hsoon]. lia.
Qed.

Lemma written_by_move rect e :
  written_by (Move rect e) =
  if tilt_finite rect then Some (tilt_transform (tilt_x rect e) (tilt_y rect e)) else None.
Proof.
  unfold written_by, tilt_finite. rewrite <- negb_orb.
  by destruct (Qeq_bool (rect_width rect) 0 || Qeq_bool (rect_height rect) 0).
Qed.

Lemma tilt_event_inv tr lv b t0 t ev :
  tilt_inv card d0 (t0 + 400) tr lv b → clock (page_of b) = t0 → (t0 <= t)%Z →
  tilt_inv card d0 (t + 400) (transform_after tr ev) (lv ∨ ev = Leave)
    (tilt_event card (t, ev) b)
  ∧ clock (page_of (tilt_event card (t, ev) b)) = t.
Proof.
  intros Hinv Hclock Ht.
  destruct (run_until_tilt (t0 + 400) tr lv t b Hinv) as (Hinv1 & Hclock1 & _); [lia|].
  apply (tilt_inv_mono _ (t + 400)) in Hinv1; [|lia].
  unfold tilt_event, transform_after. cbn [fst snd].
  destruct Hinv1 as (H1 & H2 & H3 & H4).
  destruct ev as [rect e|].
  - rewrite written_by_move. destruct (tilt_finite rect) eqn:Hfin.
    + rewrite (tilt_move_finite card rect e Hfin).
      unfold tilt_inv, on_page. js_unfold. cbn. split; [split_and!|done].
      * done.
      * dom_simpl. by rewrite lookup_insert_eq.
      * intros [Hlv|[=]]. dom_simpl. rewrite lookup_insert_ne by done. by apply H3.
      * intros n Hn. dom_simpl. by apply H4.
    + rewrite (tilt_move_not_finite card rect e Hfin).
      unfold tilt_inv, on_page. cbn. split; [split_and!|done]; try done.
      intros [Hlv|[=]]. by apply H3.
  - cbn [written_by].
    unfold tilt_inv, tilt_leave, set_timeout, on_page. js_unfold. cbn. split; [split_and!|done].
    + intros s [Hs|Hs]%elem_of_app; [by apply H1|].
      apply list_elem_of_singleton in Hs as ->. cbn. split; [done | lia].
    + dom_simpl. rewrite lookup_insert_ne by done. by rewrite lookup_insert_eq.
    + intros _. right. by destruct (pending (run_until t b)).
    + intros n Hn. dom_simpl. by apply H4.
Qed.

Lemma tilt_events_cons ev evs b :
  tilt_events card (ev :: evs) b = tilt_events card evs (tilt_event card ev b).
Proof. reflexivity. Qed.

Lemma tilt_events_inv evs : ∀ tr lv b t0 t ev,
  tilt_inv card d0 (t0 + 400) tr lv b → clock (page_of b) = t0 →
  in_order t0 ((evs ++ [(t, ev)]).*1) →
  tilt_inv card d0 (t + 400) (foldl transform_after tr ((evs ++ [(t, ev)]).*2))
    (lv ∨ Leave ∈ (evs ++ [(t, ev)]).*2)
    (tilt_events card (evs ++ [(t, ev)]) b)
  ∧ clock (page_of (tilt_events card (evs ++ [(t, ev)]) b)) = t.
Proof.
  induction evs as [|[t1 ev1] evs IH]; intros tr lv b t0 t ev Hinv Hclock Hord.
  - cbn in Hord. destruct Hord as [Ht _].
    destruct (tilt_event_inv tr lv b t0 t ev Hinv Hclock Ht) as [(H1 & H2 & H3 & H4) Hc].
    split; [|done]. split_and!; try done.
    intros [Hlv|Hin]; apply H3; [by left|right].
    cbn in Hin. by apply list_elem_of_singleton in Hin.
  - cbn [app fmap list_fmap fst in_order] in Hord. destruct Hord as [Ht Hord].
    cbn [app]. rewrite tilt_events_cons.
    destruct (tilt_event_inv tr lv b t0 t1 ev1 Hinv Hclock Ht) as [Hinv1 Hc1].
    destruct (IH _ _ _ t1 t ev Hinv1 Hc1 Hord) as [(H1 & H2 & H3 & H4) Hc].
    split; [|done]. split_and!; try done.
    intros Hlv. apply H3. destruct Hlv as [Hlv|Hin]; [by left; left|].
    cbn in Hin. apply elem_of_cons in Hin as [Hin|Hin]; [left; by right | by right].
Qed.

End tilt_session.

Lemma foldl_transform_after evs : ∀ tr,
  foldl transform_after tr evs =
  match last_written evs with
  | Some v => Some v
  | None => tr
  end.
Proof.
  unfold last_written.
  induction evs as [|ev evs IH]; intros tr; [done|].
  cbn [foldl omap list_omap]. rewrite IH. unfold transform_after.
  destruct (written_by ev) as [v|]; [|done].
  rewrite last_cons. by destruct (last (omap written_by evs)).
Qed.

(** X11.  The tilt after a pointer session.  Let nothing be pending, and
    let [mousemove] and [mouseleave] events reach a card in any number
    and order, at times that do not decrease, the last one at time [t].
    From [t + 400] on no timer is pending.  The card's [transform] is the
    last one written: by a move over a card of width and height other than
    zero the tilt [perspective(800px) rotateY(ry deg) rotateX(rx deg)
    translateY(-6px)], with [ry] four times the pointer's horizontal
    position in the card (from -0.5 at the left edge to 0.5 at the right)
    and [rx] minus four times its vertical position; by leaving the empty
    string; by a move over a card of width or height zero nothing, the
    angles being no numbers then.  If no event wrote one, the [transform]
    is as before the session.  If the pointer has left at all, the
    [transition] that leaving sets has been reset to the empty string.  No
    other element is touched. *)
Theorem tilt_session_settles card b0 evs t ev T :
  pending b0 = [] →
  in_order (clock (page_of b0)) ((evs ++ [(t, ev)]).*1) →
  (t + 400 <= T)%Z →
  let b := run_until T (tilt_events card (evs ++ [(t, ev)]) b0) in
  pending b = []
  ∧ style (dom (page_of b) card) !! "transform" =
      match last_written ((evs ++ [(t, ev)]).*2) with
      | Some v => Some v
      | None => style (dom (page_of b0) card) !! "transform"
      end
  ∧ (Leave ∈ (evs ++ [(t, ev)]).*2 →
       style (dom (page_of b) card) !! "transition" = Some [Lit ""])
  ∧ (∀ n, n ≠ card → dom (page_of b) n = dom (page_of b0) n).
Proof.
  intros Hq Hord HT b.
  assert (tilt_inv card (dom (page_of b0)) (clock (page_of b0) + 400)
            (style (dom (page_of b0) card) !! "transform") False b0) as Hinv0.
  { split_and!; try done. intros s. rewrite Hq. intros Hs. by apply elem_of_nil in Hs. }
  destruct (tilt_events_inv card _ evs _ False b0 _ t ev Hinv0 eq_refl Hord) as [Hinv Hc].
  destruct (run_until_tilt card _ _ _ _ T _ Hinv) as ((H1 & H2 & H3 & H4) & _ & Hdone); [lia|].
  fold b in H1, H2, H3, H4, Hdone.
  specialize (Hdone HT). split; [done|].
  split; [by rewrite H2, foldl_transform_after|]. split; [|done].
  intros Hleave. destruct H3 as [H3|H3]; [by right | done | done].
Qed.

Lemma tilt_session_settles_witness :
  let rect := Rect 100 50 200 100 in
  let flat := Rect 100 50 0 100 in
  let evs := [(10%Z, Move rect (Mouse 150 75)); (20%Z, Leave);
              (100%Z, Move rect (Mouse 300 50))] in
  let b := run_until 550 (tilt_events 3 (evs ++ [(150%Z, Move flat (Mouse 100 60))])
                            (Browser demo_world [] 0)) in
  pending b = []
  ∧ style (dom (page_of b) 3) !! "transform" =
      Some [Lit "perspective(800px) rotateY("; Num (((300 - 100) / 200 - 0.5) * 4);
            Lit "deg) rotateX("; Num (- ((50 - 50) / 100 - 0.5) * 4);
            Lit "deg) translateY(-6px)"]
  ∧ style (dom (page_of b) 3) !! "transition" = Some [Lit ""].
Proof.
  intros rect flat evs b.
  destruct (tilt_session_settles 3 (Browser demo_world [] 0) evs 150
              (Move flat (Mouse 100 60)) 550)
    as (Hp & Htf & Htn & _); [reflexivity | cbn; lia | lia |].
  split; [exact Hp|]. split; [exact Htf|]. apply Htn.
  cbn. rewrite !elem_of_cons. tauto.
Defined.

(** ** Magnetic hover *)

Lemma half (w : Q) : (w / 2 == w * (1 # 2))%Q.
Proof. reflexivity. Qed.

(** X12.  The magnetic pull.  The handler sets the element's [transform]
    to [translate(tx px, ty px)], where [tx] is 0.3 times the pointer's
    horizontal offset from the centre of the element and [ty] 0.3 times
    its vertical offset: towards the pointer in each direction and never
    beyond it, and by at most 0.15 times the element's width and height
    while the pointer is over the element.  No other element is touched,
    and leaving the element sets the transform to [translate(0,0)]. *)
Theorem magnetic_pull el rect e w :
  let w' := exec (magnetic_move el rect e) w in
  let dx := (clientX e - (rect_left rect + rect_width rect / 2))%Q in
  let dy := (clientY e - (rect_top rect + rect_height rect / 2))%Q in
  let tx := (dx * 0.3)%Q in
  let ty := (dy * 0.3)%Q in
  style (dom w' el) !! "transform"
    = Some [Lit "translate("; Num tx; Lit "px,"; Num ty; Lit "px)"]
  ∧ ((0 <= dx → 0 <= tx <= dx) ∧ (dx <= 0 → dx <= tx <= 0))%Q
  ∧ ((0 <= dy → 0 <= ty <= dy) ∧ (dy <= 0 → dy <= ty <= 0))%Q
  ∧ (inside rect e →
       (- (0.15 * rect_width rect) <= tx <= 0.15 * rect_width rect)%Q
       ∧ (- (0.15 * rect_height rect) <= ty <= 0.15 * rect_height rect)%Q)
  ∧ (∀ n, n ≠ el → dom w' n = dom w n)
  ∧ style (dom (exec (magnetic_leave el) w') el) !! "transform" = Some [Lit "translate(0,0)"].
Proof.
  intros w' dx dy tx ty. unfold tx, ty, dx, dy.
  split_and!.
  - unfold w', magnetic_move. js_unfold. cbn. dom_simpl. by rewrite lookup_insert_eq.
  - intros H. lra.
  - intros H. lra.
  - intros H. lra.
  - intros H. lra.
  - intros [[Hx1 Hx2] [Hy1 Hy2]]. rewrite !half. split; lra.
  - intros n Hn. unfold w', magnetic_move. js_unfold. cbn. by dom_simpl.
  - unfold magnetic_leave. js_unfold. cbn. dom_simpl. by rewrite lookup_insert_eq.
Qed.

(** ** The script as a whole *)

Lemma steady_ret : steady (mret tt).
Proof. intros w. split_and!; try done. exists []. by rewrite app_nil_r. Qed.

Lemma steady_seq (a b : JS unit) : steady a → steady b → steady (a ;; b).
Proof.
  intros Ha Hb w. cbn zeta.
  assert (never_throws a) as Hna by (intros w0; apply Ha).
  rewrite exec_seq by done.
  destruct (Ha w) as (Ha1 & Ha2 & Ha3 & Ha4 & la & Ha5 & Ha6).
  destruct (Hb (exec a w)) as (Hb1 & Hb2 & Hb3 & Hb4 & lb & Hb5 & Hb6).
  split; [unfold mbind, JS_bind; by rewrite Ha1|]. split; [congruence|].
  split; [congruence|]. split; [congruence|].
  exists (la ++ lb). split; [by rewrite Hb5, Ha5, app_assoc | by apply Forall_app].
Qed.

Lemma steady_gets {A} (f : world → A) (k : A → JS unit) :
  (∀ a, steady (k a)) → steady (x ← gets f; k x).
Proof. intros Hk w. apply (Hk (f w) w). Qed.

Lemma steady_forEach {A} (l : list A) f : (∀ x, steady (f x)) → steady (forEach l f).
Proof.
  intros Hf. induction l as [|x r IH]; [apply steady_ret|].
  cbn [forEach]. by apply steady_seq.
Qed.

Lemma steady_emit e f :
  load_effect e →
  (∀ w, timers (f w) = timers w ∧ clock (f w) = clock w ∧ scrollY (f w) = scrollY w
        ∧ log (f w) = log w) →
  steady (modify (λ w, emit e (f w))).
Proof.
  intros He H w. destruct (H w) as (H1 & H2 & H3 & H4).
  split; [done|]. split; [done|]. split; [done|]. split; [done|].
  exists [e]. split; [cbn; by rewrite H4 | by apply Forall_singleton].
Qed.

Lemma steady_silent f :
  (∀ w, timers (f w) = timers w ∧ clock (f w) = clock w ∧ scrollY (f w) = scrollY w
        ∧ log (f w) = log w) →
  steady (modify f).
Proof.
  intros H w. destruct (H w) as (H1 & H2 & H3 & H4).
  split; [done|]. split; [done|]. split; [done|]. split; [done|].
  exists []. cbn. by rewrite H4, app_nil_r.
Qed.

Ltac steady_step :=
  lazymatch goal with
  | |- steady (mret tt) => apply steady_ret
  | |- steady (mbind (λ _ : unit, _) _) => apply steady_seq
  | |- steady (mbind _ (gets _)) => apply steady_gets; intros
  | |- steady (forEach _ _) => apply steady_forEach; intros
  | |- steady (modify (emit ?e)) => apply (steady_emit e (λ w, w)); by intros
  | |- steady (modify (λ w, emit ?e _)) => apply (steady_emit e); by intros
  | |- steady (modify _) => apply steady_silent; by intros
  | |- steady (match ?x with Some _ => _ | None => _ end) => destruct x
  | |- steady (if ?b then _ else _) => destruct b
  end.

Lemma steady_init b pg motionOK : steady (init b pg motionOK).
Proof.
  destruct b, motionOK; cbn [init];
    unfold initMobileMenu, initSmoothScroll, initActiveNav, initNavbarScroll, initReveal,
      initParallax, initTyping, initRipple, initTilt, initMagnetic, initLazyImages,
      getElementById, querySelector, querySelectorAll, querySelectorAll_in, closest,
      navbar_update, set_style, classList_toggle_force, classList_add, get_textContent,
      set_textContent, addEventListener, newIntersectionObserver, observe, mutate;
    cbn [negb]; repeat steady_step.
Qed.

(** X13.  Loading the script is safe.  Whatever the document, the state
    and the motion preference, running the script completes normally,
    schedules no timer and leaves the clock and the scroll offset alone;
    all that it does is write to elements, register listeners, create
    observers and have them observe.  It never scrolls, never cancels an
    event, and never stops an observer: these happen in handlers only, as
    does every exception of the script. *)
Theorem load_never_throws pg motionOK w :
  let w' := exec (main pg motionOK) w in
  main pg motionOK w = (Normal tt, w')
  ∧ timers w' = timers w
  ∧ clock w' = clock w
  ∧ scrollY w' = scrollY w
  ∧ ∃ l, log w' = log w ++ l ∧ Forall load_effect l.
Proof.
  apply (steady_forEach behaviours (λ b, init b pg motionOK)).
  intros b. apply steady_init.
Qed.

Lemma calm_dom_refl d : calm_dom d d.
Proof. intros n. by split_and!. Qed.

Lemma calm_dom_trans d1 d2 d3 : calm_dom d1 d2 → calm_dom d2 d3 → calm_dom d1 d3.
Proof.
  intros H12 H23 n.
  destruct (H12 n) as (Ha & Hb & Hc & Hd & He & Hf).
  destruct (H23 n) as (Ha' & Hb' & Hc' & Hd' & He' & Hf').
  split_and!; [congruence.. | |].
  - intros c Hc1 Hin. by apply He', He.
  - intros c Hc1 Hc2 Hin. by apply Hf, Hf'.
Qed.

Lemma calmly_never_throws m : calmly m → never_throws m.
Proof. intros H w. apply H. Qed.

Lemma calmly_ret : calmly (mret tt).
Proof.
  intros w. split_and!; try done; try apply calm_dom_refl.
  exists []. by rewrite app_nil_r.
Qed.

Lemma calmly_seq (a b : JS unit) : calmly a → calmly b → calmly (a ;; b).
Proof.
  intros Ha Hb w. cbn zeta.
  rewrite exec_seq by by apply calmly_never_throws.
  destruct (Ha w) as (Ha1 & Ha2 & Ha3 & Ha4 & Ha5 & la & Ha6 & Ha7).
  destruct (Hb (exec a w)) as (Hb1 & Hb2 & Hb3 & Hb4 & Hb5 & lb & Hb6 & Hb7).
  split_and!.
  - unfold mbind, JS_bind. by rewrite Ha1.
  - congruence.
  - congruence.
  - congruence.
  - by eapply calm_dom_trans.
  - exists (la ++ lb). split; [by rewrite Hb6, Ha6, app_assoc | by apply Forall_app].
Qed.

Lemma calmly_gets {A} (f : world → A) (k : A → JS unit) :
  (∀ a, calmly (k a)) → calmly (x ← gets f; k x).
Proof. intros Hk w. apply (Hk (f w) w). Qed.

Lemma calmly_forEach {A} (l : list A) f : (∀ x, calmly (f x)) → calmly (forEach l f).
Proof.
  intros Hf. induction l as [|x r IH]; [apply calmly_ret|].
  cbn [forEach]. by apply calmly_seq.
Qed.

Lemma calmly_modify f :
  (∀ w, timers (f w) = timers w
        ∧ observed (f w) RevealObs = observed w RevealObs
        ∧ observed (f w) TypingObs = observed w TypingObs
        ∧ calm_dom (dom w) (dom (f w))
        ∧ ∃ e, log (f w) = log w ++ [e] ∧ calm e) →
  calmly (modify f).
Proof.
  intros H w. destruct (H w) as (H1 & H2 & H3 & H4 & e & H5 & H6).
  split; [done|]. split; [done|]. split; [done|]. split; [done|]. split; [done|].
  exists [e]. split; [done|]. by apply Forall_singleton.
Qed.

Lemma calmly_listen t type h : calm (Listen t type h) → calmly (addEventListener t type h).
Proof.
  intros H. apply calmly_modify. intros w.
  split; [done|]. split; [done|]. split; [done|]. split; [apply calm_dom_refl|]. by eexists.
Qed.

Lemma calmly_new_observer o cb opts :
  o = ActiveNavObs ∨ o = LazyObs → calmly (newIntersectionObserver o cb opts).
Proof.
  intros H. apply calmly_modify. intros w. split; [done|].
  split; [cbn; destruct H as [-> | ->]; by rewrite fn_lookup_insert_ne|].
  split; [cbn; destruct H as [-> | ->]; by rewrite fn_lookup_insert_ne|].
  split; [apply calm_dom_refl|]. by eexists.
Qed.

Lemma calmly_observe o n : o = ActiveNavObs ∨ o = LazyObs → calmly (observe o n).
Proof.
  intros H. apply calmly_modify. intros w. split; [done|].
  split; [cbn; destruct H as [-> | ->]; by rewrite fn_lookup_alter_ne|].
  split; [cbn; destruct H as [-> | ->]; by rewrite fn_lookup_alter_ne|].
  split; [apply calm_dom_refl|]. by eexists.
Qed.

Lemma calm_write n wr e :
  calm (Mutate n wr) →
  let e' := apply_write wr e in
  tagName e' = tagName e ∧ attrs e' = attrs e ∧ textContent e' = textContent e
  ∧ hidden e' = hidden e
  ∧ (∀ c, c ≠ "navbar--scrolled" → c ∈ classList e → c ∈ classList e')
  ∧ (∀ c, c ≠ "navbar--scrolled" → c ≠ "is-visible" → c ∈ classList e' → c ∈ classList e).
Proof.
  intros H.
  destruct wr as [| | |c| | |c force| | |p v]; cbn in H; try done; subst; cbn;
    (split; [done|]); (split; [done|]); (split; [done|]); (split; [done|]).
  - split.
    + intros c _ Hc. apply elem_of_union. by right.
    + intros c _ Hc Hin. apply elem_of_union in Hin as [Hin|Hin]; [|done].
      by apply elem_of_singleton in Hin.
  - split.
    + intros c Hc Hin. destruct force.
      * apply elem_of_union. by right.
      * apply elem_of_difference. split; [done|]. by rewrite elem_of_singleton.
    + intros c Hc _ Hin. destruct force.
      * apply elem_of_union in Hin as [Hin|Hin]; [|done].
        by apply elem_of_singleton in Hin.
      * by apply elem_of_difference in Hin as [Hin _].
Qed.

Lemma calmly_mutate n wr : calm (Mutate n wr) → calmly (mutate n wr).
Proof.
  intros H. apply calmly_modify. intros w.
  split; [done|]. split; [done|]. split; [done|]. split; [|by eexists].
  intros m. cbn. destruct (decide (m = n)) as [->|Hne].
  - rewrite fn_lookup_alter. by apply (calm_write n).
  - rewrite fn_lookup_alter_ne by done. apply calm_dom_refl.
Qed.

Ltac calm_step :=
  lazymatch goal with
  | |- calmly (mret tt) => apply calmly_ret
  | |- calmly (mbind (λ _ : unit, _) _) => apply calmly_seq
  | |- calmly (mbind _ (gets _)) => apply calmly_gets; intros
  | |- calmly (forEach _ _) => apply calmly_forEach; intros
  | |- calmly (addEventListener _ _ _) => apply calmly_listen; done
  | |- calmly (newIntersectionObserver _ _ _) => apply calmly_new_observer; auto
  | |- calmly (observe _ _) => apply calmly_observe; auto
  | |- calmly (mutate _ _) => apply calmly_mutate; done
  | |- calmly (match ?x with Some _ => _ | None => _ end) => destruct x
  | |- calmly (if ?b then _ else _) => destruct b
  end.

Ltac calm_tac := repeat calm_step.

Lemma calmly_init b pg : calmly (init b pg false).
Proof.
  destruct b; cbn [init];
    unfold initMobileMenu, initSmoothScroll, initActiveNav, initNavbarScroll, initReveal,
      initParallax, initTyping, initRipple, initTilt, initMagnetic, initLazyImages,
      getElementById, querySelector, querySelectorAll, querySelectorAll_in,
      navbar_update, set_style, classList_toggle_force, classList_add;
    cbn [negb]; calm_tac.
Qed.

(** X14.  Loading with reduced motion.  When the user asks for reduced
    motion, the script completes normally, schedules no timer and never
    creates the reveal or the typing observer; all that it does is
    register the click listeners of the menu and of the anchors and the
    navbar's scroll listener, write the navbar's two values, set up the
    observers of the active link and of the lazy images, and add
    [is-visible].  Every element keeps its attributes, its text and its
    [hidden] flag, and every [.animate-wrapper] element ends up with
    [is-visible]. *)
Theorem reduced_motion_load pg d y :
  let w := exec (main pg false) (initial_world d y) in
  main pg false (initial_world d y) = (Normal tt, w)
  ∧ timers w = []
  ∧ observed w RevealObs = ∅
  ∧ observed w TypingObs = ∅
  ∧ Forall calm (log w)
  ∧ (∀ n, attrs (dom w n) = attrs (d n)
          ∧ textContent (dom w n) = textContent (d n)
          ∧ hidden (dom w n) = hidden (d n))
  ∧ (∀ n, n ∈ matching pg (by_class "animate-wrapper") d →
          "is-visible" ∈ classList (dom w n)).
Proof.
  intros w.
  assert (∀ l, calmly (forEach l (λ b, init b pg false))) as Hcalm.
  { intros l. apply calmly_forEach. intros b. apply calmly_init. }
  destruct (Hcalm behaviours (initial_world d y)) as (H1 & H2 & H3 & H4 & H5 & l & H6 & H7).
  fold (main pg false) in H1, H2, H3, H4, H5, H6. fold w in H1, H2, H3, H4, H5, H6.
  split; [exact H1|]. split; [exact H2|]. split; [exact H3|]. split; [exact H4|].
  split; [by rewrite H6|]. split.
  - intros n. destruct (H5 n) as (_ & Ha & Ht & Hh & _). done.
  - intros n Hn.
    set (f := λ b, init b pg false).
    set (wa := exec (forEach before_reveal f) (initial_world d y)).
    set (wb := exec (initReveal pg false) wa).
    assert (w = exec (forEach after_reveal f) wb) as ->.
    { unfold w, main.
      change behaviours with (before_reveal ++ Reveal :: after_reveal).
      rewrite exec_forEach_app by (intros b; apply calmly_never_throws, calmly_init).
      cbn [forEach]. fold f. rewrite exec_seq by apply calmly_never_throws, calmly_init.
      done. }
    destruct (Hcalm before_reveal (initial_world d y)) as (_ & _ & _ & _ & Hda & _).
    destruct (Hcalm after_reveal wb) as (_ & _ & _ & _ & Hdb & _).
    fold f in Hda, Hdb. fold wa in Hda. cbn [dom initial_world] in Hda.
    destruct (Hdb n) as (_ & _ & _ & _ & Hkeep & _). apply Hkeep; [done|].
    assert (n ∈ matching pg (by_class "animate-wrapper") (dom wa)) as Hna.
    { apply elem_of_matching in Hn as [Hlt Hc]. apply elem_of_matching. split; [done|].
      unfold by_class in *. apply bool_decide_eq_true in Hc. apply bool_decide_eq_true.
      destruct (Hda n) as (_ & _ & _ & _ & Hfw & _). by apply Hfw. }
    unfold wb, initReveal, querySelectorAll. cbn [negb]. rewrite exec_gets.
    destruct (class_add_loop "is-visible" (matching pg (by_class "animate-wrapper") (dom wa)) wa
                (NoDup_matching _ _ _)) as (_ & Hadd & _).
    rewrite (Hadd n Hna). cbn. apply elem_of_union. left. by apply elem_of_singleton.
Qed.
